(** * Constraint generators of [oemof.solph.linear_constraints]

    A shallow embedding of the constraint-assembly module
    [src/oemof/solph/linear_constraints.py] and the properties its
    specification states about the generated constraints.

    The module builds Pyomo constraints.  The embedding keeps what the
    module relies on from Python and Pyomo:
    - exceptions are values of an error monad ([result]);
    - a Python [dict] is an insertion-ordered association list;
    - an indexable attribute (a list such as [out_max=[1000000]], or a dict)
      is a [pyseq], and indexing it follows Python ([getitem]);
    - a Pyomo expression is a symbolic term ([pyexpr]); arithmetic between two
      plain numbers gives a plain number, anything else gives an expression;
    - [po.Constraint(index, rule=r)] calls [r] at every index in order, drops
      [Constraint.Skip], and lets exceptions of the rule escape;
    - the variable containers ([model.w], [block.cap], ...) are declared
      outside this module: a [var] names one of their members, and the
      mutable part of a variable (value, fixed flag, bounds) lives in the
      [state] that every generator threads.
    Numbers are rationals ([Q]). *)

From Stdlib Require Import String List ZArith QArith Bool Lia Lqa.
Import ListNotations.
Local Open Scope string_scope.
Local Open Scope list_scope.
Local Open Scope Z_scope.
Local Open Scope Q_scope.

(* ================================================================== *)
(** ** Exceptions *)

Inductive pyerror : Type :=
| ValueError
| KeyError
| IndexError
| TypeError
| ZeroDivisionError.

Inductive result (A : Type) : Type :=
| Ok (a : A)
| Raise (e : pyerror).

Arguments Ok {A} a.
Arguments Raise {A} e.

Definition bind {A B : Type} (r : result A) (k : A -> result B) : result B :=
  match r with
  | Ok a => k a
  | Raise e => Raise e
  end.

Notation "x <- c ;; k" := (bind c (fun x => k))
  (at level 61, c at next level, right associativity).
Notation "' pat <- c ;; k" := (bind c (fun x => match x with pat => k end))
  (at level 61, pat pattern, c at next level, right associativity).

(** [for x in xs: acc = body(acc, x)], stopping at the first exception. *)
Fixpoint for_each {A S : Type} (xs : list A) (body : S -> A -> result S)
  (s : S) : result S :=
  match xs with
  | [] => Ok s
  | x :: rest => s' <- body s x ;; for_each rest body s'
  end.

(** A comprehension [[f x for x in xs]] whose element expression may raise. *)
Fixpoint map_r {A B : Type} (f : A -> result B) (xs : list A)
  : result (list B) :=
  match xs with
  | [] => Ok []
  | x :: rest => y <- f x ;; ys <- map_r f rest ;; Ok (y :: ys)
  end.

(* ================================================================== *)
(** ** Python containers *)

Definition uid := string.

(** [xs[0]], [xs[1]] on a Python list of objects. *)
Definition list_item {A : Type} (xs : list A) (n : nat) : result A :=
  match nth_error xs n with
  | Some x => Ok x
  | None => Raise IndexError
  end.

Section Dict.
Context {K V : Type} (eqb : K -> K -> bool).

Definition dict := list (K * V).

(** [d[k] = v]: an existing key keeps its place, a new key goes last. *)
Fixpoint dict_set (k : K) (v : V) (d : dict) : dict :=
  match d with
  | [] => [(k, v)]
  | (k', v') :: d' =>
      if eqb k' k then (k', v) :: d' else (k', v') :: dict_set k v d'
  end.

(** [d[k]]. *)
Fixpoint dict_get (k : K) (d : dict) : result V :=
  match d with
  | [] => Raise KeyError
  | (k', v') :: d' => if eqb k' k then Ok v' else dict_get k d'
  end.

(** [{k: v for ...}] from the pairs in generation order. *)
Definition dict_of (kvs : list (K * V)) : dict :=
  fold_left (fun d kv => dict_set (fst kv) (snd kv) d) kvs [].

Definition dict_keys (d : dict) : list K := map fst d.
End Dict.

Arguments dict K V : clear implicits.

Definition pair_eqb (a b : uid * uid) : bool :=
  String.eqb (fst a) (fst b) && String.eqb (snd a) (snd b).

(** A key of an indexable attribute: an integer or a string. *)
Inductive pykey : Type :=
| KInt (z : Z)
| KStr (s : string).

Definition pykey_eqb (a b : pykey) : bool :=
  match a, b with
  | KInt x, KInt y => Z.eqb x y
  | KStr x, KStr y => String.eqb x y
  | _, _ => false
  end.

(** An indexable attribute: a Python list of numbers, or a dict of numbers. *)
Inductive pyseq : Type :=
| PyList (l : list Q)
| PyDict (d : dict pykey Q).

(** [c[k]].  A list takes integers (negative ones count from the end) and
    raises [IndexError] out of range and [TypeError] on a string; a dict
    raises [KeyError] on a missing key. *)
Definition getitem (c : pyseq) (k : pykey) : result Q :=
  match c with
  | PyList l =>
      match k with
      | KInt z =>
          let n := Z.of_nat (length l) in
          let i := (if z <? 0 then z + n else z)%Z in
          if ((0 <=? i) && (i <? n))%Z
          then match nth_error l (Z.to_nat i) with
               | Some q => Ok q
               | None => Raise IndexError
               end
          else Raise IndexError
      | KStr _ => Raise TypeError
      end
  | PyDict d => dict_get pykey_eqb k d
  end.

(** A limit that may be [float('inf')]. *)
Inductive xnum : Type :=
| Finite (q : Q)
| PosInf.

(* ================================================================== *)
(** ** Entities *)

Inductive entity_class : Type :=
| Bus | Source | Sink | Transformer | Storage | Transport.

(** An entity with the attributes the generators read.  [inputs] and
    [outputs] hold the neighbouring entities themselves, as the Python
    objects do; the generators follow them at most two levels deep
    ([obj.outputs[k].outputs[0].uid]), so a finite unfolding of the
    component graph carries everything they can see. *)
#[warnings="-register-all"]
Inductive entity : Type := Entity {
  e_uid : uid;
  e_cls : entity_class;
  inputs : list entity;
  outputs : list entity;
  balanced : bool;
  eta : pyseq;
  out_max : pyseq;
  eta_total : Q;
  beta : Q;
  sigma : Q;
  eta_el_cond : Q;
  sum_out_limit : xnum;
  val : pyseq;
  add_out_limit : Q;
  cap_initial : Q;
  cap_loss : Q;
  eta_in : Q;
  eta_out : Q;
  c_rate_out : Q;
  c_rate_in : Q;
  cap_max : Q;
  grad_pos : Q;
  grad_neg : Q
}.

(** [isinstance(x, cp.Transport)]. *)
Definition is_transport (x : entity) : bool :=
  match e_cls x with
  | Transport => true
  | _ => false
  end.

(* ================================================================== *)
(** ** Variables, expressions, constraints *)

Inductive var : Type :=
| W (e1 e2 : uid) (t : Z)          (* model.w[e1, e2, t] *)
| ExcessSlack (e : uid) (t : Z)    (* block.excess_slack[e, t] *)
| ShortageSlack (e : uid) (t : Z)  (* block.shortage_slack[e, t] *)
| Cap (e : uid) (t : Z)            (* block.cap[e, t] *)
| BlockAddOut (e : uid)            (* block.add_out[e] *)
| ModelAddOut (e : uid)            (* model.add_out[e] *)
| AddCap (e : uid)                 (* block.add_cap[e] *)
| Curtailment (e : uid) (t : Z)    (* block.curtailment_var[e, t] *)
| GradPos (e : uid) (t : Z)        (* block.grad_pos_var[e, t] *)
| GradNeg (e : uid) (t : Z).       (* block.grad_neg_var[e, t] *)

Definition var_eq_dec (a b : var) : {a = b} + {a <> b}.
Proof.
  decide equality; try apply Z.eq_dec; apply string_dec.
Defined.

(** A Python value met in a rule: a plain number [ENum] or a Pyomo
    expression over variables. *)
Inductive pyexpr : Type :=
| ENum (q : Q)
| EVar (v : var)
| EAdd (a b : pyexpr)
| ESub (a b : pyexpr)
| EMul (a b : pyexpr)
| EDiv (a b : pyexpr)
| ENeg (a : pyexpr).

(** [isinstance(x, (int, float))]. *)
Definition is_number (x : pyexpr) : bool :=
  match x with
  | ENum _ => true
  | _ => false
  end.

Definition py_add (a b : pyexpr) : pyexpr :=
  match a, b with
  | ENum x, ENum y => ENum (x + y)
  | _, _ => EAdd a b
  end.

Definition py_sub (a b : pyexpr) : pyexpr :=
  match a, b with
  | ENum x, ENum y => ENum (x - y)
  | _, _ => ESub a b
  end.

Definition py_mul (a b : pyexpr) : pyexpr :=
  match a, b with
  | ENum x, ENum y => ENum (x * y)
  | _, _ => EMul a b
  end.

Definition py_neg (a : pyexpr) : pyexpr :=
  match a with
  | ENum x => ENum (- x)
  | _ => ENeg a
  end.

(** [a / b] where [b] is a plain number: division by zero raises. *)
Definition py_div (a : pyexpr) (b : Q) : result pyexpr :=
  if Qeq_bool b 0 then Raise ZeroDivisionError
  else match a with
       | ENum x => Ok (ENum (x / b))
       | _ => Ok (EDiv a (ENum b))
       end.

(** The builtin [sum]: starts from [0] and adds from the left. *)
Definition py_sum (xs : list pyexpr) : pyexpr :=
  fold_left py_add xs (ENum 0).

Inductive constraint : Type :=
| CEq (l r : pyexpr)    (* l == r *)
| CLe (l r : pyexpr).   (* l <= r *)

(** What a rule hands back to [po.Constraint]. *)
Inductive rule_result : Type :=
| RSkip                    (* po.Constraint.Skip *)
| RCons (c : constraint)   (* a relational expression *)
| RBool (b : bool).        (* a relation between two plain numbers *)

Definition py_eq (a b : pyexpr) : rule_result :=
  match a, b with
  | ENum x, ENum y => RBool (Qeq_bool x y)
  | _, _ => RCons (CEq a b)
  end.

Definition py_le (a b : pyexpr) : rule_result :=
  match a, b with
  | ENum x, ENum y => RBool (Qle_bool x y)
  | _, _ => RCons (CLe a b)
  end.

(** [po.Constraint(index, rule=rule)]: the rule runs at every index in
    order; [Skip] leaves no constraint; a rule that hands back a plain
    boolean is rejected by Pyomo with a [ValueError]. *)
Fixpoint build_constraint {I : Type} (index : list I)
  (rule : I -> result rule_result) : result (list (I * constraint)) :=
  match index with
  | [] => Ok []
  | i :: rest =>
      r <- rule i ;;
      match r with
      | RSkip => build_constraint rest rule
      | RCons c => fam <- build_constraint rest rule ;; Ok ((i, c) :: fam)
      | RBool _ => Raise ValueError
      end
  end.

(** Meaning of expressions and constraints under an assignment of the
    variables. *)
Definition valuation := var -> Q.

Fixpoint eval (rho : valuation) (x : pyexpr) : Q :=
  match x with
  | ENum q => q
  | EVar v => rho v
  | EAdd a b => eval rho a + eval rho b
  | ESub a b => eval rho a - eval rho b
  | EMul a b => eval rho a * eval rho b
  | EDiv a b => eval rho a / eval rho b
  | ENeg a => - eval rho a
  end.

Definition holds (rho : valuation) (c : constraint) : Prop :=
  match c with
  | CEq l r => eval rho l == eval rho r
  | CLe l r => eval rho l <= eval rho r
  end.

(** [qsum f xs] is the mathematical sum of [f x] over [xs]. *)
Fixpoint qsum {A : Type} (f : A -> Q) (xs : list A) : Q :=
  match xs with
  | [] => 0
  | x :: rest => f x + qsum f rest
  end.

(* ================================================================== *)
(** ** Model, block and the mutable variable space *)

(** The parts of the [OptimizationModel] instance the generators read. *)
Record model : Type := Model {
  components : list entity;          (* model.components *)
  timesteps : list Z;                (* model.timesteps *)
  model_I : dict uid uid;            (* model.I : uid -> input uid *)
  model_O : dict uid (list uid)      (* model.O : uid -> output uids *)
}.

(** The block a generator works on.  [objs = None] is [block.objs is None]. *)
Record block : Type := Block {
  objs : option (list entity);       (* block.objs *)
  uids : list uid;                   (* block.uids *)
  indexset : list (uid * Z);         (* block.indexset *)
  investment : bool;  (* block.optimization_options.get('investment', False) *)
  excess_uids : list uid;            (* block.excess_uids *)
  shortage_uids : list uid           (* block.shortage_uids *)
}.

(** The mutable part of one Pyomo variable. *)
Record vardata : Type := VarData {
  v_value : option Q;     (* current value *)
  v_fixed : bool;         (* set by .fix() *)
  v_nonneg : bool;        (* domain NonNegativeReals *)
  v_lb : option Q;        (* lower bound *)
  v_ub : option Q         (* upper bound, set by .setub() *)
}.

Inductive index : Type :=
| Idx1 (e : uid)
| Idx2 (e : uid) (t : Z).

Definition idx2 (p : uid * Z) : index := Idx2 (fst p) (snd p).

Definition family := list (index * constraint).

(** What the generators change: the variables' data, the [po.Var]
    components they add to the block and the [po.Constraint] components
    they add to the block, most recent first. *)
Record state : Type := State {
  vars : var -> vardata;
  var_comps : list (string * list var);
  con_comps : list (string * family)
}.

Definition upd_var (st : state) (v : var) (f : vardata -> vardata) : state :=
  State (fun v' => if var_eq_dec v' v then f (vars st v') else vars st v')
        (var_comps st) (con_comps st).

(** [x.setub(q)] *)
Definition setub (v : var) (q : Q) (st : state) : state :=
  upd_var st v (fun d =>
    VarData (v_value d) (v_fixed d) (v_nonneg d) (v_lb d) (Some q)).

(** [x = q] on a member of a variable container: sets its value. *)
Definition set_value (v : var) (q : Q) (st : state) : state :=
  upd_var st v (fun d =>
    VarData (Some q) (v_fixed d) (v_nonneg d) (v_lb d) (v_ub d)).

(** [x.fix()] *)
Definition fix_var (v : var) (st : state) : state :=
  upd_var st v (fun d =>
    VarData (v_value d) true (v_nonneg d) (v_lb d) (v_ub d)).

(** [block.name = po.Var(index, within=po.NonNegativeReals)], with
    [bounds] when the call gives a bounds rule. *)
Definition declare_nonneg (v : var) (bounds : option (Q * Q)) (st : state)
  : state :=
  upd_var st v (fun _ =>
    match bounds with
    | None => VarData None false true None None
    | Some (lo, hi) => VarData None false true (Some lo) (Some hi)
    end).

Definition add_var_comp (name : string) (vs : list var) (st : state) : state :=
  State (vars st) ((name, vs) :: var_comps st) (con_comps st).

(** [block.name = po.Constraint(...)] *)
Definition add_con_comp (name : string) (fam : family) (st : state) : state :=
  State (vars st) (var_comps st) ((name, fam) :: con_comps st).

Fixpoint lookup_comp {A : Type} (name : string) (l : list (string * A))
  : option A :=
  match l with
  | [] => None
  | (n, a) :: rest => if String.eqb n name then Some a else lookup_comp name rest
  end.

Definition con_comp (name : string) (st : state) : option family :=
  lookup_comp name (con_comps st).

Definition var_comp (name : string) (st : state) : option (list var) :=
  lookup_comp name (var_comps st).

(** The guard every generator but one starts with:
    [if not block.objs or block.objs is None: raise ValueError(...)]. *)
Definition require_objs (blk : block) : result (list entity) :=
  match objs blk with
  | None => Raise ValueError
  | Some [] => Raise ValueError
  | Some l => Ok l
  end.

(** [for obj in block.objs] without the guard: iterating [None] is a
    [TypeError]. *)
Definition iter_objs (blk : block) : result (list entity) :=
  match objs blk with
  | None => Raise TypeError
  | Some l => Ok l
  end.

(** [model.O[e][k]] *)
Definition O_at (m : model) (e : uid) (k : nat) : result uid :=
  os <- dict_get String.eqb e (model_O m) ;; list_item os k.

(** [model.I[e]] *)
Definition I_of (m : model) (e : uid) : result uid :=
  dict_get String.eqb e (model_I m).

(** [e in uids] *)
Definition mem_uid (e : uid) (l : list uid) : bool :=
  existsb (String.eqb e) l.

(** Modelled from the spec: [model.edges(components)] belongs to the model
    assembler, which is not part of this module.  An edge is an ordered pair
    (source uid, destination uid) derived from [inputs]/[outputs] by
    traversal: for every component its input edges, then its output
    edges. *)
Definition edges (cs : list entity) : list (uid * uid) :=
  flat_map (fun c =>
    map (fun i => (e_uid i, e_uid c)) (inputs c) ++
    map (fun o => (e_uid c, e_uid o)) (outputs c)) cs.

(** A family built over [(e, t)] pairs, as stored on the block. *)
Definition tag2 (fam : list ((uid * Z) * constraint)) : family :=
  map (fun ic => (idx2 (fst ic), snd ic)) fam.

Definition tag1 (fam : list (uid * constraint)) : family :=
  map (fun ic => (Idx1 (fst ic), snd ic)) fam.

(* ================================================================== *)
(** ** [add_bus_balance] *)

(** [(t.inputs[0].uid, t.outputs[0].uid)] *)
Definition transport_key (t : entity) : result (uid * uid) :=
  i <- list_item (inputs t) 0 ;;
  o <- list_item (outputs t) 0 ;;
  Ok (e_uid i, e_uid o).

(** [(t.inputs[0].uid, t.outputs[0].uid): t.eta[0]], one item of [etas]. *)
Definition transport_eta_item (t : entity) : result ((uid * uid) * Q) :=
  k <- transport_key t ;;
  v <- getitem (eta t) (KInt 0) ;;
  Ok (k, v).

(** [(t.inputs[0].uid, t.outputs[0].uid): t.out_max[0]], one item of
    [out_max]. *)
Definition transport_max_item (t : entity) : result ((uid * uid) * Q) :=
  k <- transport_key t ;;
  v <- getitem (out_max t) (KInt 0) ;;
  Ok (k, v).

(** [[t for t in model.components if isinstance(t, cp.Transport)]] *)
Definition transports (m : model) : list entity :=
  filter is_transport (components m).

Definition non_transport_uids (xs : list entity) : list uid :=
  map e_uid (filter (fun x => negb (is_transport x)) xs).

Definition bus_balance_rule (blk : block) (I O : dict uid (list uid))
  (etas : dict (uid * uid) Q) (et : uid * Z) : result rule_result :=
  let '(e, t) := et in
  Ie <- dict_get String.eqb e I ;;
  let lhs := ENum 0 in
  let lhs := py_add lhs (py_sum (map (fun i => EVar (W i e t)) Ie)) in
  tin <- map_r (fun k =>
                  c <- dict_get pair_eqb k etas ;;
                  Ok (py_mul (EVar (W (fst k) e t)) (ENum c)))
               (filter (fun k => String.eqb e (snd k)) (dict_keys etas)) ;;
  let lhs := py_add lhs (py_sum tin) in
  Oe <- dict_get String.eqb e O ;;
  let rhs := py_sum (map (fun o => EVar (W e o t)) Oe) in
  let rhs := py_add rhs
    (py_sum (map (fun k => EVar (W e (snd k) t))
                 (filter (fun k => String.eqb e (fst k)) (dict_keys etas)))) in
  let rhs := if mem_uid e (excess_uids blk)
             then py_add rhs (EVar (ExcessSlack e t)) else rhs in
  let lhs := if mem_uid e (shortage_uids blk)
             then py_add lhs (EVar (ShortageSlack e t)) else lhs in
  Ok (py_eq lhs rhs).

Definition add_bus_balance (m : model) (blk : block) (st : state)
  : result state :=
  l <- require_objs blk ;;
  eta_items <- map_r transport_eta_item (transports m) ;;
  let etas := dict_of pair_eqb eta_items in
  max_items <- map_r transport_max_item (transports m) ;;
  let out_max_d := dict_of pair_eqb max_items in
  tuples <- map_r transport_key (transports m) ;;
  st1 <- for_each (list_prod tuples (timesteps m))
           (fun s kt =>
              ub <- dict_get pair_eqb (fst kt) out_max_d ;;
              Ok (setub (W (fst (fst kt)) (snd (fst kt)) (snd kt)) ub s)) st ;;
  let bal := filter balanced l in
  let uids := map e_uid bal in
  let I := dict_of String.eqb
             (map (fun b => (e_uid b, non_transport_uids (inputs b))) bal) in
  let O := dict_of String.eqb
             (map (fun b => (e_uid b, non_transport_uids (outputs b))) bal) in
  fam <- build_constraint (list_prod uids (timesteps m))
           (bus_balance_rule blk I O etas) ;;
  Ok (add_con_comp "balance" (tag2 fam) st1).

(* ================================================================== *)
(** ** Transformer relations *)

Definition io_rule (m : model) (eta_d : dict uid pyseq) (idx : nat)
  (et : uid * Z) : result rule_result :=
  let '(e, t) := et in
  i <- I_of m e ;;
  es <- dict_get String.eqb e eta_d ;;
  c <- getitem es (KInt (Z.of_nat idx)) ;;
  o <- O_at m e idx ;;
  let lhs := py_sub (py_mul (EVar (W i e t)) (ENum c)) (EVar (W e o t)) in
  Ok (py_eq lhs (ENum 0)).

Definition add_simple_io_relation (m : model) (blk : block) (idx : nat)
  (st : state) : result state :=
  l <- require_objs blk ;;
  let eta_d := dict_of String.eqb (map (fun o => (e_uid o, eta o)) l) in
  fam <- build_constraint (indexset blk) (io_rule m eta_d idx) ;;
  Ok (add_con_comp "io_relation" (tag2 fam) st).

Definition ioo_rule (m : model) (eta_total_d : dict uid Q)
  (et : uid * Z) : result rule_result :=
  let '(e, t) := et in
  i <- I_of m e ;;
  c <- dict_get String.eqb e eta_total_d ;;
  let lhs := py_mul (EVar (W i e t)) (ENum c) in
  o0 <- O_at m e 0 ;;
  o1 <- O_at m e 1 ;;
  let rhs := py_add (EVar (W e o0 t)) (EVar (W e o1 t)) in
  Ok (py_eq lhs rhs).

Definition add_eta_total_chp_relation (m : model) (blk : block) (st : state)
  : result state :=
  l <- require_objs blk ;;
  let eta_total_d :=
    dict_of String.eqb (map (fun o => (e_uid o, eta_total o)) l) in
  fam <- build_constraint (indexset blk) (ioo_rule m eta_total_d) ;;
  Ok (add_con_comp "ioo_relation" (tag2 fam) st).

Definition simple_chp_rule (m : model) (eta_d : dict uid pyseq)
  (et : uid * Z) : result rule_result :=
  let '(e, t) := et in
  o0 <- O_at m e 0 ;;
  es <- dict_get String.eqb e eta_d ;;
  c0 <- getitem es (KInt 0) ;;
  lhs <- py_div (EVar (W e o0 t)) c0 ;;
  o1 <- O_at m e 1 ;;
  es' <- dict_get String.eqb e eta_d ;;
  c1 <- getitem es' (KInt 1) ;;
  d <- py_div (py_neg (EVar (W e o1 t))) c1 ;;
  let lhs := py_add lhs d in
  Ok (py_eq lhs (ENum 0)).

Definition add_simple_chp_relation (m : model) (blk : block) (st : state)
  : result state :=
  l <- require_objs blk ;;
  let eta_d := dict_of String.eqb (map (fun o => (e_uid o, eta o)) l) in
  fam <- build_constraint (indexset blk) (simple_chp_rule m eta_d) ;;
  Ok (add_con_comp "pth_relation" (tag2 fam) st).

Definition equivalent_output_rule (m : model) (beta_d eta_el_cond_d : dict uid Q)
  (et : uid * Z) : result rule_result :=
  let '(e, t) := et in
  i <- I_of m e ;;
  let lhs := EVar (W i e t) in
  o0 <- O_at m e 0 ;;
  b <- dict_get String.eqb e beta_d ;;
  o1 <- O_at m e 1 ;;
  c <- dict_get String.eqb e eta_el_cond_d ;;
  rhs <- py_div (py_add (EVar (W e o0 t)) (py_mul (ENum b) (EVar (W e o1 t)))) c ;;
  Ok (py_eq lhs rhs).

Definition power_heat_rule (m : model) (sigma_d : dict uid Q)
  (et : uid * Z) : result rule_result :=
  let '(e, t) := et in
  o0 <- O_at m e 0 ;;
  let lhs := EVar (W e o0 t) in
  s <- dict_get String.eqb e sigma_d ;;
  o1 <- O_at m e 1 ;;
  let rhs := py_mul (ENum s) (EVar (W e o1 t)) in
  Ok (py_le lhs rhs).

Definition add_simple_extraction_chp_relation (m : model) (blk : block)
  (st : state) : result state :=
  l <- require_objs blk ;;
  let beta_d := dict_of String.eqb (map (fun o => (e_uid o, beta o)) l) in
  let sigma_d := dict_of String.eqb (map (fun o => (e_uid o, sigma o)) l) in
  let eta_el_cond_d :=
    dict_of String.eqb (map (fun o => (e_uid o, eta_el_cond o)) l) in
  fam <- build_constraint (indexset blk)
           (equivalent_output_rule m beta_d eta_el_cond_d) ;;
  let st1 := add_con_comp "equivalent_output" (tag2 fam) st in
  fam' <- build_constraint (indexset blk) (power_heat_rule m sigma_d) ;;
  Ok (add_con_comp "pth_relation" (tag2 fam') st1).

(* ================================================================== *)
(** ** [add_global_output_limit] *)

(** [o.uid if not isinstance(o, cp.Transport) else o.outputs[0].uid] *)
Definition output_uid (o : entity) : result uid :=
  if negb (is_transport o) then Ok (e_uid o)
  else d <- list_item (outputs o) 0 ;; Ok (e_uid d).

(** The rule computes [lhs = sum(...) - limit[e]] and skips when [lhs] is a
    plain number or [limit[e] == float('inf')].  With an infinite limit both
    outcomes of the first test skip, so the case on the limit comes first
    here and [lhs] is only formed for a finite limit. *)
Definition output_limit_rule (m : model) (limit : dict uid xnum)
  (O : dict uid (list uid)) (e : uid) : result rule_result :=
  terms <- map_r (fun t => Oe <- dict_get String.eqb e O ;;
                           Ok (map (fun o => EVar (W e o t)) Oe))
                 (timesteps m) ;;
  let s := py_sum (concat terms) in
  lim <- dict_get String.eqb e limit ;;
  match lim with
  | PosInf => Ok RSkip
  | Finite q =>
      let lhs := py_sub s (ENum q) in
      if is_number lhs then Ok RSkip else Ok (py_le lhs (ENum 0))
  end.

Definition add_global_output_limit (m : model) (blk : block) (st : state)
  : result state :=
  l <- require_objs blk ;;
  let limit := dict_of String.eqb (map (fun o => (e_uid o, sum_out_limit o)) l) in
  O_items <- map_r (fun obj => os <- map_r output_uid (outputs obj) ;;
                               Ok (e_uid obj, os)) l ;;
  let O := dict_of String.eqb O_items in
  fam <- build_constraint (uids blk) (output_limit_rule m limit O) ;;
  Ok (add_con_comp "global_limit" (tag1 fam) st).

(* ================================================================== *)
(** ** [add_fixed_source] *)

Definition invest_rule (m : model) (out_max_d val_d : dict uid pyseq)
  (et : uid * Z) : result rule_result :=
  let '(e, t) := et in
  o <- O_at m e 0 ;;
  let lhs := EVar (W e o t) in
  om <- dict_get String.eqb e out_max_d ;;
  o' <- O_at m e 0 ;;
  c <- getitem om (KStr o') ;;
  vs <- dict_get String.eqb e val_d ;;
  v <- getitem vs (KInt t) ;;
  let rhs := py_mul (py_add (ENum c) (EVar (ModelAddOut e))) (ENum v) in
  Ok (py_eq lhs rhs).

Definition add_fixed_source (m : model) (blk : block) (st : state)
  : result state :=
  l <- require_objs blk ;;
  let out_max_d := dict_of String.eqb (map (fun o => (e_uid o, out_max o)) l) in
  let val_d := dict_of String.eqb (map (fun o => (e_uid o, val o)) l) in
  if negb (investment blk) then
    let ee := edges l in
    for_each (list_prod ee (timesteps m))
      (fun s et =>
         let '((e1, e2), t) := et in
         vs <- dict_get String.eqb e1 val_d ;;
         v <- getitem vs (KInt t) ;;
         om <- dict_get String.eqb e1 out_max_d ;;
         c <- getitem om (KInt 0) ;;
         Ok (fix_var (W e1 e2 t) (set_value (W e1 e2 t) (v * c) s))) st
  else
    let add_out_limit_d :=
      dict_of String.eqb (map (fun o => (e_uid o, add_out_limit o)) l) in
    st1 <- for_each (uids blk)
             (fun s e => ub <- dict_get String.eqb e add_out_limit_d ;;
                         Ok (setub (BlockAddOut e) ub s)) st ;;
    fam <- build_constraint (indexset blk) (invest_rule m out_max_d val_d) ;;
    Ok (add_con_comp "invest" (tag2 fam) st1).

(* ================================================================== *)
(** ** [add_dispatch_source] *)

Definition curtailment_source_rule (m : model) (out_max_d val_d : dict uid pyseq)
  (et : uid * Z) : result rule_result :=
  let '(e, t) := et in
  let lhs := EVar (Curtailment e t) in
  vs <- dict_get String.eqb e val_d ;;
  v <- getitem vs (KInt t) ;;
  om <- dict_get String.eqb e out_max_d ;;
  c <- getitem om (KInt 0) ;;
  o <- O_at m e 0 ;;
  let rhs := py_sub (ENum (v * c)) (EVar (W e o t)) in
  Ok (py_eq lhs rhs).

(** [block.name = po.Var(index, within=po.NonNegativeReals)] *)
Definition declare_family (name : string) (mk : uid -> Z -> var)
  (ix : list (uid * Z)) (st : state) : state :=
  add_var_comp name (map (fun et => mk (fst et) (snd et)) ix)
    (fold_left (fun s et => declare_nonneg (mk (fst et) (snd et)) None s) ix st).

Definition add_dispatch_source (m : model) (blk : block) (st : state)
  : result state :=
  l <- require_objs blk ;;
  let st0 := declare_family "curtailment_var" Curtailment (indexset blk) st in
  let out_max_d := dict_of String.eqb (map (fun o => (e_uid o, out_max o)) l) in
  let val_d := dict_of String.eqb (map (fun o => (e_uid o, val o)) l) in
  let ee := edges l in
  st1 <- for_each (list_prod ee (timesteps m))
           (fun s et =>
              let '((e1, e2), t) := et in
              vs <- dict_get String.eqb e1 val_d ;;
              v <- getitem vs (KInt t) ;;
              om <- dict_get String.eqb e1 out_max_d ;;
              c <- getitem om (KInt 0) ;;
              Ok (setub (W e1 e2 t) (v * c) s)) st0 ;;
  fam <- build_constraint (indexset blk)
           (curtailment_source_rule m out_max_d val_d) ;;
  Ok (add_con_comp "curtailment" (tag2 fam) st1).

(* ================================================================== *)
(** ** [add_storage_balance] *)

(** [t_last = len(model.timesteps) - 1] *)
Definition t_last (m : model) : Z :=
  (Z.of_nat (length (timesteps m)) - 1)%Z.

(** The last timestep of the horizon ([-1] stands for "none"). *)
Definition last_timestep (m : model) : Z := last (timesteps m) (-1)%Z.

(** The loop that pins the capacity of the last timestep:
    [block.cap[e, t_last] = cap_initial[e]; block.cap[e, t_last].fix()]. *)
Definition fix_last_cap (m : model) (blk : block) (cap_initial_d : dict uid Q)
  (st : state) : result state :=
  for_each (uids blk)
    (fun s e => c <- dict_get String.eqb e cap_initial_d ;;
                Ok (fix_var (Cap e (t_last m))
                      (set_value (Cap e (t_last m)) c s))) st.

(** The rule returns the pair [(expr, 0)], which Pyomo reads as
    [expr == 0]. *)
Definition storage_balance_rule (m : model)
  (cap_initial_d cap_loss_d eta_in_d eta_out_d : dict uid Q)
  (et : uid * Z) : result rule_result :=
  let '(e, t) := et in
  let expr := ENum 0 in
  if (t =? 0)%Z then
    ci <- dict_get String.eqb e cap_initial_d ;;
    let expr := py_add expr (py_sub (EVar (Cap e t)) (ENum ci)) in
    i <- I_of m e ;;
    ei <- dict_get String.eqb e eta_in_d ;;
    let expr := py_add expr (py_mul (py_neg (EVar (W i e t))) (ENum ei)) in
    o <- O_at m e 0 ;;
    eo <- dict_get String.eqb e eta_out_d ;;
    d <- py_div (EVar (W e o t)) eo ;;
    let expr := py_add expr d in
    Ok (RCons (CEq expr (ENum 0)))
  else
    let expr := py_add expr (EVar (Cap e t)) in
    cl <- dict_get String.eqb e cap_loss_d ;;
    let expr := py_add expr
      (py_mul (py_neg (EVar (Cap e (t - 1)))) (ENum (1 - cl))) in
    i <- I_of m e ;;
    ei <- dict_get String.eqb e eta_in_d ;;
    let expr := py_add expr (py_mul (py_neg (EVar (W i e t))) (ENum ei)) in
    o <- O_at m e 0 ;;
    eo <- dict_get String.eqb e eta_out_d ;;
    d <- py_div (EVar (W e o t)) eo ;;
    let expr := py_add expr d in
    Ok (RCons (CEq expr (ENum 0))).

Definition add_storage_balance (m : model) (blk : block) (st : state)
  : result state :=
  l <- require_objs blk ;;
  let cap_initial_d :=
    dict_of String.eqb (map (fun o => (e_uid o, cap_initial o)) l) in
  let cap_loss_d := dict_of String.eqb (map (fun o => (e_uid o, cap_loss o)) l) in
  let eta_in_d := dict_of String.eqb (map (fun o => (e_uid o, eta_in o)) l) in
  let eta_out_d := dict_of String.eqb (map (fun o => (e_uid o, eta_out o)) l) in
  st1 <- fix_last_cap m blk cap_initial_d st ;;
  fam <- build_constraint (indexset blk)
           (storage_balance_rule m cap_initial_d cap_loss_d eta_in_d eta_out_d) ;;
  Ok (add_con_comp "balance" (tag2 fam) st1).

(* ================================================================== *)
(** ** [add_storage_charge_discharge_limits] *)

Definition storage_discharge_limit_rule (m : model)
  (cap_max_d c_rate_out_d : dict uid Q) (et : uid * Z) : result rule_result :=
  let '(e, t) := et in
  let expr := ENum 0 in
  o <- O_at m e 0 ;;
  let expr := py_add expr (EVar (W e o t)) in
  cm <- dict_get String.eqb e cap_max_d ;;
  cr <- dict_get String.eqb e c_rate_out_d ;;
  let expr := py_add expr
    (py_mul (py_neg (py_add (ENum cm) (EVar (AddCap e)))) (ENum cr)) in
  Ok (py_le expr (ENum 0)).

Definition storage_charge_limit_rule (m : model)
  (cap_max_d c_rate_in_d : dict uid Q) (et : uid * Z) : result rule_result :=
  let '(e, t) := et in
  let expr := ENum 0 in
  i <- I_of m e ;;
  let expr := py_add expr (EVar (W e i t)) in
  cm <- dict_get String.eqb e cap_max_d ;;
  cr <- dict_get String.eqb e c_rate_in_d ;;
  let expr := py_add expr
    (py_mul (py_neg (py_add (ENum cm) (EVar (AddCap e)))) (ENum cr)) in
  Ok (py_le expr (ENum 0)).

(** This generator has no guard on [block.objs]. *)
Definition add_storage_charge_discharge_limits (m : model) (blk : block)
  (st : state) : result state :=
  l <- iter_objs blk ;;
  let c_rate_out_d :=
    dict_of String.eqb (map (fun o => (e_uid o, c_rate_out o)) l) in
  let c_rate_in_d :=
    dict_of String.eqb (map (fun o => (e_uid o, c_rate_in o)) l) in
  let cap_max_d := dict_of String.eqb (map (fun o => (e_uid o, cap_max o)) l) in
  fam <- build_constraint (list_prod (uids blk) (timesteps m))
           (storage_discharge_limit_rule m cap_max_d c_rate_out_d) ;;
  let st1 := add_con_comp "discharge_limit_invest" (tag2 fam) st in
  fam' <- build_constraint (list_prod (uids blk) (timesteps m))
            (storage_charge_limit_rule m cap_max_d c_rate_in_d) ;;
  Ok (add_con_comp "charge_limit_invest" (tag2 fam') st1).

(* ================================================================== *)
(** ** [add_output_gradient_calc] *)

Definition grad_pos_calc_rule (m : model) (et : uid * Z) : result rule_result :=
  let '(e, t) := et in
  if (t >? 0)%Z then
    o <- O_at m e 0 ;;
    o' <- O_at m e 0 ;;
    let lhs := py_sub (EVar (W e o t)) (EVar (W e o' (t - 1))) in
    let rhs := EVar (GradPos e t) in
    Ok (py_le lhs rhs)
  else Ok RSkip.

Definition grad_neg_calc_rule (m : model) (et : uid * Z) : result rule_result :=
  let '(e, t) := et in
  if (t >? 0)%Z then
    o <- O_at m e 0 ;;
    o' <- O_at m e 0 ;;
    let lhs := py_sub (EVar (W e o (t - 1))) (EVar (W e o' t)) in
    let rhs := EVar (GradNeg e t) in
    Ok (py_le lhs rhs)
  else Ok RSkip.

(** [block.name = po.Var(index, within=po.NonNegativeReals, bounds=rule)]
    where the bounds rule returns [(0, grad[e])]. *)
Definition declare_bounded_family (name : string) (mk : uid -> Z -> var)
  (grad : dict uid Q) (ix : list (uid * Z)) (st : state) : result state :=
  st' <- for_each ix
           (fun s et => g <- dict_get String.eqb (fst et) grad ;;
                        Ok (declare_nonneg (mk (fst et) (snd et))
                              (Some (0, g)) s)) st ;;
  Ok (add_var_comp name (map (fun et => mk (fst et) (snd et)) ix) st').

Definition add_output_gradient_calc (m : model) (blk : block)
  (grad_direc : string) (st : state) : result state :=
  l <- require_objs blk ;;
  st1 <- (if String.eqb grad_direc "positive" || String.eqb grad_direc "both"
          then
            let grad_pos_d :=
              dict_of String.eqb (map (fun o => (e_uid o, grad_pos o)) l) in
            s <- declare_bounded_family "grad_pos_var" GradPos grad_pos_d
                   (indexset blk) st ;;
            fam <- build_constraint (indexset blk) (grad_pos_calc_rule m) ;;
            Ok (add_con_comp "grad_pos_calc" (tag2 fam) s)
          else Ok st) ;;
  if String.eqb grad_direc "negative" || String.eqb grad_direc "both"
  then
    let grad_neg_d :=
      dict_of String.eqb (map (fun o => (e_uid o, grad_neg o)) l) in
    s <- declare_bounded_family "grad_neg_var" GradNeg grad_neg_d
           (indexset blk) st1 ;;
    fam <- build_constraint (indexset blk) (grad_neg_calc_rule m) ;;
    Ok (add_con_comp "grad_neg_calc" (tag2 fam) s)
  else Ok st1.

(* ================================================================== *)
(** ** Solutions *)

(** A variable's data is respected by the value a solution gives it. *)
Definition respects (d : vardata) (x : Q) : Prop :=
  (v_fixed d = true -> forall q, v_value d = Some q -> x == q) /\
  (v_nonneg d = true -> 0 <= x) /\
  (forall q, v_lb d = Some q -> q <= x) /\
  (forall q, v_ub d = Some q -> x <= q).

(** A solution satisfies every constraint on the block and respects every
    variable's domain, bounds and fixing. *)
Definition solution (st : state) (rho : valuation) : Prop :=
  (forall name fam i c,
      In (name, fam) (con_comps st) -> In (i, c) fam -> holds rho c) /\
  (forall v, respects (vars st v) (rho v)).

(* ================================================================== *)
(** ** Reading families and values *)

(** The entry a rule result leaves in the family. *)
Definition entry_of {I : Type} (i : I) (r : rule_result)
  : list (I * constraint) :=
  match r with
  | RCons c => [(i, c)]
  | _ => []
  end.

Definition not_bool (r : rule_result) : Prop :=
  match r with
  | RBool _ => False
  | _ => True
  end.


(** The value [val[e][t] * out_max[e][0]] both source generators compute. *)
Definition source_potential (l : list entity) (e : uid) (t : Z) : result Q :=
  vs <- dict_get String.eqb e
          (dict_of String.eqb (map (fun o => (e_uid o, val o)) l)) ;;
  v <- getitem vs (KInt t) ;;
  om <- dict_get String.eqb e
          (dict_of String.eqb (map (fun o => (e_uid o, out_max o)) l)) ;;
  c <- getitem om (KInt 0) ;;
  Ok (v * c).


Definition potential_or_zero (l : list entity) (e : uid) (t : Z) : Q :=
  match source_potential l e t with
  | Ok q => q
  | Raise _ => 0
  end.

(** One direction of [add_output_gradient_calc]: the bounded variable is
    declared, then its constraint family is built. *)
Definition grad_block (blk : block) (name_var name_con : string)
  (mk : uid -> Z -> var) (grad : dict uid Q)
  (rule : uid * Z -> result rule_result) (st : state) : result state :=
  s <- declare_bounded_family name_var mk grad (indexset blk) st ;;
  fam <- build_constraint (indexset blk) rule ;;
  Ok (add_con_comp name_con (tag2 fam) s).

(** The relation the gradient rules hand back at [(e, t)], given the first
    output [o] of [e]. *)
Definition grad_pos_result (o : uid) (et : uid * Z) : rule_result :=
  if (snd et >? 0)%Z
  then RCons (CLe (ESub (EVar (W (fst et) o (snd et)))
                        (EVar (W (fst et) o (snd et - 1))))
                  (EVar (GradPos (fst et) (snd et))))
  else RSkip.

Definition grad_neg_result (o : uid) (et : uid * Z) : rule_result :=
  if (snd et >? 0)%Z
  then RCons (CLe (ESub (EVar (W (fst et) o (snd et - 1)))
                        (EVar (W (fst et) o (snd et))))
                  (EVar (GradNeg (fst et) (snd et))))
  else RSkip.

(** The uid a per-entity variable belongs to. *)
Definition var_uid (v : var) : uid :=
  match v with
  | W e _ _ | ExcessSlack e _ | ShortageSlack e _ | Cap e _ | BlockAddOut e
  | ModelAddOut e | AddCap e | Curtailment e _ | GradPos e _ | GradNeg e _ => e
  end.

(** [W(e,out,t) - W(e,out,t-1)] and its opposite. *)
Definition pos_diff (rho : valuation) (e o : uid) (t : Z) : Q :=
  rho (W e o t) - rho (W e o (t - 1)).

Definition neg_diff (rho : valuation) (e o : uid) (t : Z) : Q :=
  rho (W e o (t - 1)) - rho (W e o t).

(** One gradient direction is present in [st']: the variable component
    [name_var] covers the block's index set, every variable [mk e t] has
    domain non-negative reals and bounds [(0, gmax e)], and the family
    [name_con] holds, for every entity and every timestep [t > 0], exactly
    relations meaning [diff e out t <= mk e t], and nothing at [t <= 0]. *)
Definition gradient_declared (m : model) (blk : block) (l : list entity)
  (st' : state) (name_var name_con : string) (mk : uid -> Z -> var)
  (gmax : entity -> Q) (diff : valuation -> uid -> uid -> Z -> Q) : Prop :=
  exists fam,
    con_comp name_con st' = Some fam /\
    var_comp name_var st'
    = Some (map (fun et => mk (fst et) (snd et)) (indexset blk)) /\
    forall s t o,
      In s l -> In t (timesteps m) -> O_at m (e_uid s) 0 = Ok o ->
      (v_nonneg (vars st' (mk (e_uid s) t)) = true /\
       v_lb (vars st' (mk (e_uid s) t)) = Some 0 /\
       v_ub (vars st' (mk (e_uid s) t)) = Some (gmax s)) /\
      ((t > 0)%Z ->
       (exists c, In (Idx2 (e_uid s) t, c) fam) /\
       (forall c rho, In (Idx2 (e_uid s) t, c) fam ->
          (holds rho c <-> diff rho (e_uid s) o t <= rho (mk (e_uid s) t)))) /\
      ((t <= 0)%Z -> forall c, ~ In (Idx2 (e_uid s) t, c) fam).

(** One gradient direction is untouched between [st] and [st']: neither
    its variable component nor its constraint family was declared. *)
Definition gradient_absent (st st' : state) (name_var name_con : string)
  (mk : uid -> Z -> var) : Prop :=
  con_comp name_con st' = con_comp name_con st /\
  var_comp name_var st' = var_comp name_var st /\
  forall e t, vars st' (mk e t) = vars st (mk e t).

(** What a state that extends [st] by one direction block satisfies. *)
Definition block_added (m : model) (blk : block) (l : list entity)
  (st st2 : state) (name_var name_con : string) (mk : uid -> Z -> var)
  (f : entity -> Q) (res : uid -> uid * Z -> rule_result) : Prop :=
  exists fam,
    con_comps st2 = (name_con, fam) :: con_comps st /\
    var_comps st2
    = (name_var, map (fun et => mk (fst et) (snd et)) (indexset blk))
        :: var_comps st /\
    (forall v, (forall e t, v <> mk e t) -> vars st2 v = vars st v) /\
    (forall s t, In s l -> In t (timesteps m) ->
       vars st2 (mk (e_uid s) t)
       = VarData None false true (Some 0) (Some (f s))) /\
    (forall s t o c, In s l -> O_at m (e_uid s) 0 = Ok o ->
       (In (Idx2 (e_uid s) t, c) fam
        <-> In t (timesteps m) /\ res o (e_uid s, t) = RCons c)).

(** The bus balance in the words of the specification.  A transport link
    is a triple (source uid, destination uid, efficiency).  Left side:
    non-transport inflows, plus the inflow over every link that ends at the
    bus times the link's efficiency, plus the shortage slack when the bus
    allows shortage.  Right side: non-transport outflows, plus the outflow
    over every link that starts at the bus, plus the excess slack when the
    bus allows excess. *)
Definition links_into (links : list ((uid * uid) * Q)) (e : uid)
  : list ((uid * uid) * Q) :=
  filter (fun k => String.eqb e (snd (fst k))) links.

Definition links_from (links : list ((uid * uid) * Q)) (e : uid)
  : list ((uid * uid) * Q) :=
  filter (fun k => String.eqb e (fst (fst k))) links.

Definition balance_lhs (blk : block) (links : list ((uid * uid) * Q))
  (b : entity) (t : Z) (rho : valuation) : Q :=
  qsum (fun i => rho (W i (e_uid b) t)) (non_transport_uids (inputs b))
  + qsum (fun k => rho (W (fst (fst k)) (e_uid b) t) * snd k)
         (links_into links (e_uid b))
  + (if mem_uid (e_uid b) (shortage_uids blk)
     then rho (ShortageSlack (e_uid b) t) else 0).

Definition balance_rhs (blk : block) (links : list ((uid * uid) * Q))
  (b : entity) (t : Z) (rho : valuation) : Q :=
  qsum (fun o => rho (W (e_uid b) o t)) (non_transport_uids (outputs b))
  + qsum (fun k => rho (W (e_uid b) (snd (fst k)) t))
         (links_from links (e_uid b))
  + (if mem_uid (e_uid b) (excess_uids blk)
     then rho (ExcessSlack (e_uid b) t) else 0).

Definition is_empty {A : Type} (xs : list A) : bool :=
  match xs with
  | [] => true
  | _ => false
  end.

(** The bus has at least one flow or slack variable in its balance. *)
Definition bus_has_terms (blk : block) (links : list ((uid * uid) * Q))
  (b : entity) : bool :=
  negb (is_empty (non_transport_uids (inputs b)))
  || negb (is_empty (links_into links (e_uid b)))
  || mem_uid (e_uid b) (shortage_uids blk)
  || negb (is_empty (non_transport_uids (outputs b)))
  || negb (is_empty (links_from links (e_uid b)))
  || mem_uid (e_uid b) (excess_uids blk).

(** The block with another entity subset. *)
Definition with_objs (blk : block) (l : list entity) : block :=
  Block (Some l) (uids blk) (indexset blk) (investment blk)
        (excess_uids blk) (shortage_uids blk).

(** The global output limit.  [limit_sum rho e outs ts] is the sum over all
    timesteps [t] of [ts] and all [o] of [outs] of [W(e,o,t)]. *)
Definition limit_sum (rho : valuation) (e : uid) (outs : list uid)
  (ts : list Z) : Q :=
  qsum (fun t => qsum (fun o => rho (W e o t)) outs) ts.

(** What the family [fam] holds for the entity [obj] when the sum ranges
    over the output uids [outs]: nothing when the limit is infinite or the
    sum has no term (it is then a plain number); otherwise relations, at
    least one, that mean [limit_sum <= sum_out_limit(obj)]. *)
Definition limit_emitted (m : model) (fam : family) (obj : entity)
  (outs : list uid) : Prop :=
  match sum_out_limit obj with
  | PosInf => forall c, ~ In (Idx1 (e_uid obj), c) fam
  | Finite q =>
      if is_empty outs || is_empty (timesteps m)
      then forall c, ~ In (Idx1 (e_uid obj), c) fam
      else (exists c, In (Idx1 (e_uid obj), c) fam) /\
           (forall c rho, In (Idx1 (e_uid obj), c) fam ->
              (holds rho c <-> limit_sum rho (e_uid obj) outs (timesteps m) <= q))
  end.

(** The output uids the specification names: the non-transport outputs. *)
Definition spec_limit_outputs (obj : entity) : list uid :=
  non_transport_uids (outputs obj).

(** The output uids the generator collects in [O[obj.uid]]: every output,
    a transport being replaced by the uid of its own first output. *)
Definition code_limit_outputs (obj : entity) : result (list uid) :=
  map_r output_uid (outputs obj).

Definition outputs_or_nil (obj : entity) : list uid :=
  match code_limit_outputs obj with
  | Ok os => os
  | Raise _ => []
  end.

(* ================================================================== *)
(** ** A small energy system

    The system of [examples/storage_optimization/storage_invest.py], cut
    down to three timesteps, with a second electricity bus and a transport
    link added. *)

Module Example.

(** An entity as a neighbour sees it: uid and class only. *)
Definition stub (u : uid) (c : entity_class) : entity :=
  Entity u c [] [] false (PyList []) (PyList []) 0 0 0 0 PosInf
         (PyList []) 0 0 0 0 0 0 0 0 0 0.

Definition mk_bus (u : uid) (bal : bool) (ins outs : list entity) : entity :=
  Entity u Bus ins outs bal (PyList []) (PyList []) 0 0 0 0 PosInf
         (PyList []) 0 0 0 0 0 0 0 0 0 0.

Definition mk_transport (u : uid) (src dst : entity) (et mx : Q) : entity :=
  Entity u Transport [src] [dst] false (PyList [et]) (PyList [mx]) 0 0 0 0
         PosInf (PyList []) 0 0 0 0 0 0 0 0 0 0.

Definition mk_source (u : uid) (outs : list entity) (vs : list Q)
  (mx : pyseq) (lim : Q) (total : xnum) : entity :=
  Entity u Source [] outs false (PyList []) mx 0 0 0 0 total
         (PyList vs) lim 0 0 0 0 0 0 0 (1 # 2) (1 # 4).

Definition mk_storage (u : uid) (i o : entity)
  (ci cl ei eo co cin cm : Q) : entity :=
  Entity u Storage [i] [o] false (PyList []) (PyList []) 0 0 0 0 PosInf
         (PyList []) 0 ci cl ei eo co cin cm 0 0.

Definition bel_stub := stub "bel" Bus.
Definition bel2_stub := stub "bel2" Bus.
Definition bgas_stub := stub "bgas" Bus.

Definition line := mk_transport "line" bel_stub bel2_stub (9 # 10) 500.

Definition wind :=
  mk_source "wind" [bel_stub] [1 # 2; 1; 1 # 4] (PyList [1000000]) 0 PosInf.

Definition rgas :=
  mk_source "rgas" [bgas_stub] [] (PyList []) 0 (Finite 194397000).

Definition storage :=
  mk_storage "sto_simple" bel_stub bel_stub 0 0 1 (4 # 5) (1 # 6) (1 # 6) 0.

Definition bel :=
  mk_bus "bel" true
    [stub "wind" Source; stub "sto_simple" Storage]
    [stub "demand" Sink; stub "sto_simple" Storage; line].

Definition bel2 := mk_bus "bel2" true [line] [stub "demand2" Sink].

Definition bgas := mk_bus "bgas" false [stub "rgas" Source] [].

Definition mdl : model :=
  Model [wind; rgas; storage; line] [0; 1; 2]%Z
        [("sto_simple", "bel")]
        [("wind", ["bel"]); ("rgas", ["bgas"]); ("sto_simple", ["bel"])].

Definition blank_var : vardata := VarData None false true None None.

Definition st0 : state := State (fun _ => blank_var) [] [].

Definition block_of (l : list entity) (invest : bool) : block :=
  Block (Some l) (map e_uid l) (list_prod (map e_uid l) (timesteps mdl))
        invest ["bel"] [].

(** A source that feeds the second bus through the transport link. *)
Definition feeder :=
  mk_source "feeder" [line] [] (PyList []) 0 (Finite 5).

Definition bus_block := block_of [bel; bgas; bel2] false.
Definition feeder_block := block_of [feeder] false.
Definition storage_block := block_of [storage] true.
Definition source_block := block_of [wind] false.
Definition source_block_invest := block_of [wind] true.
Definition commodity_block := block_of [rgas] false.

End Example.

(* ================================================================== *)
(** ** A small conversion plant

    A gas power plant and a combined heat and power unit between a gas bus,
    an electricity bus and a heat bus, and a wind source whose [out_max] is
    keyed by the uid of its output. *)

Module Plant.

Definition mk_transformer (u : uid) (i : entity) (outs : list entity)
  (etas : list Q) (total b sg cond gp gn : Q) : entity :=
  Entity u Transformer [i] outs false (PyList etas) (PyList []) total b sg
         cond PosInf (PyList []) 0 0 0 0 0 0 0 0 gp gn.

Definition bgas := Example.stub "bgas" Bus.
Definition bel := Example.stub "bel" Bus.
Definition bth := Example.stub "bth" Bus.

Definition pp_gas :=
  mk_transformer "pp_gas" bgas [bel] [29 # 50] 0 0 0 0 100 50.

Definition chp :=
  mk_transformer "chp" bgas [bel; bth] [3 # 10; 1 # 2] (4 # 5) (1 # 5)
                 (3 # 5) (2 # 5) 0 0.

Definition wind_keyed :=
  Example.mk_source "wind" [bel] [1 # 2; 1]
    (PyDict [(KStr "bel", 1000000)]) 250 PosInf.

Definition mdl : model :=
  Model [pp_gas; chp; wind_keyed] [0; 1]%Z
        [("pp_gas", "bgas"); ("chp", "bgas")]
        [("pp_gas", ["bel"]); ("chp", ["bel"; "bth"]); ("wind", ["bel"])].

Definition block_of (l : list entity) (invest : bool) : block :=
  Block (Some l) (map e_uid l) (list_prod (map e_uid l) (timesteps mdl))
        invest [] [].

Definition pp_block := block_of [pp_gas] false.
Definition chp_block := block_of [chp] false.

End Plant.
(* ================================================================== *)
(** * Properties *)

(** ** The error monad and the loops *)

Lemma bind_ok {A B : Type} (r : result A) (k : A -> result B) (b : B) :
  bind r k = Ok b -> exists a, r = Ok a /\ k a = Ok b.
Proof.
  destruct r as [a|e]; simpl; intro H; [exists a; auto | discriminate].
Qed.

Lemma map_r_ok {A B : Type} (f : A -> result B) (g : A -> B) (xs : list A) :
  (forall x, In x xs -> f x = Ok (g x)) -> map_r f xs = Ok (map g xs).
Proof.
  induction xs as [|x rest IH]; intro H; simpl; [reflexivity|].
  rewrite (H x (or_introl eq_refl)); simpl.
  rewrite IH; [reflexivity|].
  intros y Hy; apply H; right; exact Hy.
Qed.

Lemma for_each_ok {A S : Type} (xs : list A) (body : S -> A -> result S)
  (step : S -> A -> S) (s : S) :
  (forall s' x, In x xs -> body s' x = Ok (step s' x)) ->
  for_each xs body s = Ok (fold_left step xs s).
Proof.
  revert s; induction xs as [|x rest IH]; intros s H; simpl; [reflexivity|].
  rewrite (H s x (or_introl eq_refl)); simpl.
  apply IH; intros s' y Hy; apply H; right; exact Hy.
Qed.

(** ** Dictionaries *)

Section DictFacts.
Context {K V : Type} (eqb : K -> K -> bool).
Hypothesis eqb_spec : forall a b, eqb a b = true <-> a = b.

Lemma eqb_refl' (a : K) : eqb a a = true.
Proof. apply eqb_spec; reflexivity. Qed.

Lemma eqb_neq (a b : K) : a <> b -> eqb a b = false.
Proof.
  intro H; destruct (eqb a b) eqn:E; [|reflexivity].
  apply eqb_spec in E; contradiction.
Qed.

Lemma dict_set_fresh (k : K) (v : V) (d : dict K V) :
  ~ In k (map fst d) -> dict_set eqb k v d = d ++ [(k, v)].
Proof.
  induction d as [|[k' v'] d IH]; simpl; intro H; [reflexivity|].
  rewrite eqb_neq by (intro E; apply H; left; exact E).
  rewrite IH; [reflexivity|]. intro E; apply H; right; exact E.
Qed.

Lemma dict_fold_nodup (kvs acc : list (K * V)) :
  NoDup (map fst (acc ++ kvs)) ->
  fold_left (fun d kv => dict_set eqb (fst kv) (snd kv) d) kvs acc
  = acc ++ kvs.
Proof.
  revert acc; induction kvs as [|[k v] kvs IH]; intros acc H; simpl.
  - rewrite app_nil_r; reflexivity.
  - rewrite dict_set_fresh.
    + rewrite IH; rewrite <- app_assoc; [reflexivity | exact H].
    + rewrite map_app in H; simpl in H.
      apply NoDup_remove_2 in H.
      intro E; apply H; apply in_or_app; left; exact E.
Qed.

(** A comprehension over distinct keys is the list of its pairs. *)
Lemma dict_of_nodup (kvs : list (K * V)) :
  NoDup (map fst kvs) -> dict_of eqb kvs = kvs.
Proof.
  intro H; unfold dict_of; rewrite dict_fold_nodup; [reflexivity | exact H].
Qed.

Lemma dict_get_in (d : dict K V) (k : K) (v : V) :
  NoDup (map fst d) -> In (k, v) d -> dict_get eqb k d = Ok v.
Proof.
  induction d as [|[k' v'] d IH]; simpl; intros Hnd Hin; [contradiction|].
  inversion Hnd as [|? ? Hnotin Hnd']; subst.
  destruct Hin as [E|Hin].
  - inversion E; subst; rewrite eqb_refl'; reflexivity.
  - rewrite eqb_neq; [apply IH; assumption|].
    intro E; subst; apply Hnotin.
    change k with (fst (k, v)); apply in_map; exact Hin.
Qed.

End DictFacts.

Lemma string_eqb_spec (a b : string) : String.eqb a b = true <-> a = b.
Proof. apply String.eqb_eq. Qed.

Lemma pair_eqb_spec (a b : uid * uid) : pair_eqb a b = true <-> a = b.
Proof.
  destruct a as [a1 a2], b as [b1 b2]; unfold pair_eqb; simpl.
  rewrite andb_true_iff, !String.eqb_eq.
  split; [intros [-> ->]; reflexivity | intro E; inversion E; auto].
Qed.

(** An attribute dictionary [{obj.uid: obj.attr for obj in objs}] over
    objects with distinct uids gives every object its own attribute. *)
Lemma attr_dict_get {A : Type} (f : entity -> A) (l : list entity) (o : entity) :
  NoDup (map e_uid l) -> In o l ->
  dict_get String.eqb (e_uid o)
    (dict_of String.eqb (map (fun x => (e_uid x, f x)) l)) = Ok (f o).
Proof.
  intros Hnd Hin.
  assert (Hk : NoDup (map fst (map (fun x => (e_uid x, f x)) l))).
  { rewrite map_map; simpl; exact Hnd. }
  rewrite (dict_of_nodup String.eqb string_eqb_spec _ Hk).
  apply (dict_get_in String.eqb string_eqb_spec _ _ _ Hk).
  apply (in_map (fun x => (e_uid x, f x))); exact Hin.
Qed.

(** ** Expressions *)

Lemma eval_py_add (rho : valuation) (a b : pyexpr) :
  eval rho (py_add a b) = eval rho a + eval rho b.
Proof. destruct a, b; reflexivity. Qed.

Lemma eval_py_sub (rho : valuation) (a b : pyexpr) :
  eval rho (py_sub a b) = eval rho a - eval rho b.
Proof. destruct a, b; reflexivity. Qed.

Lemma eval_py_mul (rho : valuation) (a b : pyexpr) :
  eval rho (py_mul a b) = eval rho a * eval rho b.
Proof. destruct a, b; reflexivity. Qed.

Lemma eval_py_neg (rho : valuation) (a : pyexpr) :
  eval rho (py_neg a) = - eval rho a.
Proof. destruct a; reflexivity. Qed.

Lemma py_div_ok (a : pyexpr) (b : Q) :
  ~ b == 0 ->
  exists d, py_div a b = Ok d /\ forall rho, eval rho d = eval rho a / b.
Proof.
  intro Hb; unfold py_div.
  destruct (Qeq_bool b 0) eqn:E.
  - apply Qeq_bool_iff in E; contradiction.
  - destruct a; eexists; split; reflexivity.
Qed.

Lemma py_div_zero (a : pyexpr) (b : Q) :
  b == 0 -> py_div a b = Raise ZeroDivisionError.
Proof.
  intro Hb; unfold py_div.
  apply Qeq_bool_iff in Hb; rewrite Hb; reflexivity.
Qed.

Lemma is_number_py_add (a b : pyexpr) :
  is_number (py_add a b) = is_number a && is_number b.
Proof. destruct a, b; reflexivity. Qed.

Lemma is_number_py_sub (a b : pyexpr) :
  is_number (py_sub a b) = is_number a && is_number b.
Proof. destruct a, b; reflexivity. Qed.

Lemma eval_fold_py_add (rho : valuation) (xs : list pyexpr) (acc : pyexpr) :
  eval rho (fold_left py_add xs acc) == eval rho acc + qsum (eval rho) xs.
Proof.
  revert acc; induction xs as [|x rest IH]; intro acc; simpl.
  - ring.
  - rewrite IH, eval_py_add; ring.
Qed.

Lemma eval_py_sum (rho : valuation) (xs : list pyexpr) :
  eval rho (py_sum xs) == qsum (eval rho) xs.
Proof.
  unfold py_sum; rewrite eval_fold_py_add; simpl; ring.
Qed.

Lemma is_number_fold_py_add (xs : list pyexpr) (acc : pyexpr) :
  is_number (fold_left py_add xs acc) = is_number acc && forallb is_number xs.
Proof.
  revert acc; induction xs as [|x rest IH]; intro acc; simpl.
  - rewrite andb_true_r; reflexivity.
  - rewrite IH, is_number_py_add, andb_assoc; reflexivity.
Qed.

Lemma is_number_py_sum (xs : list pyexpr) :
  is_number (py_sum xs) = forallb is_number xs.
Proof. unfold py_sum; rewrite is_number_fold_py_add; reflexivity. Qed.

Lemma qsum_map {A B : Type} (f : B -> Q) (g : A -> B) (xs : list A) :
  qsum f (map g xs) = qsum (fun x => f (g x)) xs.
Proof.
  induction xs as [|x rest IH]; simpl; [reflexivity | rewrite IH; reflexivity].
Qed.

Lemma qsum_app {A : Type} (f : A -> Q) (xs ys : list A) :
  qsum f (xs ++ ys) == qsum f xs + qsum f ys.
Proof.
  induction xs as [|x rest IH]; simpl; [ring | rewrite IH; ring].
Qed.

Lemma qsum_ext {A : Type} (f g : A -> Q) (xs : list A) :
  (forall x, In x xs -> f x == g x) -> qsum f xs == qsum g xs.
Proof.
  induction xs as [|x rest IH]; simpl; intro H; [reflexivity|].
  rewrite (H x (or_introl eq_refl)), IH; [reflexivity|].
  intros y Hy; apply H; right; exact Hy.
Qed.

Lemma py_eq_cons (a b : pyexpr) :
  is_number a && is_number b = false -> py_eq a b = RCons (CEq a b).
Proof. destruct a, b; simpl; intro H; try reflexivity; discriminate. Qed.

Lemma py_le_cons (a b : pyexpr) :
  is_number a && is_number b = false -> py_le a b = RCons (CLe a b).
Proof. destruct a, b; simpl; intro H; try reflexivity; discriminate. Qed.

(** ** Constraint families *)

Lemma build_constraint_ok {I : Type} (ix : list I)
  (rule : I -> result rule_result) (g : I -> rule_result) :
  (forall i, In i ix -> rule i = Ok (g i) /\ not_bool (g i)) ->
  build_constraint ix rule = Ok (flat_map (fun i => entry_of i (g i)) ix).
Proof.
  induction ix as [|i rest IH]; intro H; simpl; [reflexivity|].
  destruct (H i (or_introl eq_refl)) as [Hr Hnb].
  rewrite Hr; simpl.
  assert (IH' := IH (fun j Hj => H j (or_intror Hj))).
  destruct (g i); simpl in *; [exact IH' | rewrite IH'; reflexivity | contradiction].
Qed.

Lemma build_constraint_in {I : Type} (ix : list I)
  (rule : I -> result rule_result) (fam : list (I * constraint))
  (i : I) (c : constraint) :
  build_constraint ix rule = Ok fam -> In (i, c) fam ->
  In i ix /\ rule i = Ok (RCons c).
Proof.
  revert fam; induction ix as [|j rest IH]; simpl; intros fam H Hin.
  - inversion H; subst; contradiction.
  - destruct (rule j) as [r|] eqn:Hr; simpl in H; [|discriminate].
    destruct r as [|c'|b]; [| |discriminate].
    + destruct (IH _ H Hin) as [H1 H2]; auto.
    + destruct (build_constraint rest rule) as [fam'|] eqn:Hb;
        simpl in H; [|discriminate].
      inversion H; subst; destruct Hin as [E|Hin].
      * inversion E; subst; auto.
      * destruct (IH _ eq_refl Hin) as [H1 H2]; auto.
Qed.

(** When no index is skipped the family has one entry per index, in
    order. *)
Lemma build_constraint_all {I : Type} (ix : list I)
  (rule : I -> result rule_result) (c : I -> constraint) :
  (forall i, In i ix -> rule i = Ok (RCons (c i))) ->
  build_constraint ix rule = Ok (map (fun i => (i, c i)) ix).
Proof.
  induction ix as [|i rest IH]; intro H; simpl; [reflexivity|].
  rewrite (H i (or_introl eq_refl)); simpl.
  rewrite IH; [reflexivity|]. intros j Hj; apply H; right; exact Hj.
Qed.

Lemma con_comp_add (name : string) (fam : family) (st : state) :
  con_comp name (add_con_comp name fam st) = Some fam.
Proof. unfold con_comp, add_con_comp; simpl; rewrite String.eqb_refl; reflexivity. Qed.

Lemma in_tag2 (fam : list ((uid * Z) * constraint)) (e : uid) (t : Z)
  (c : constraint) :
  In (Idx2 e t, c) (tag2 fam) <-> In ((e, t), c) fam.
Proof.
  unfold tag2; rewrite in_map_iff; split.
  - intros [[[e' t'] c'] [E H]]; unfold idx2 in E; simpl in E.
    inversion E; subst; exact H.
  - intro H; exists ((e, t), c); split; [reflexivity | exact H].
Qed.

Lemma in_tag1 (fam : list (uid * constraint)) (e : uid) (c : constraint) :
  In (Idx1 e, c) (tag1 fam) <-> In (e, c) fam.
Proof.
  unfold tag1; rewrite in_map_iff; split.
  - intros [[e' c'] [E H]]; simpl in E; inversion E; subst; exact H.
  - intro H; exists (e, c); split; [reflexivity | exact H].
Qed.

Lemma tag2_fst (ix : list (uid * Z)) (c : uid * Z -> constraint) :
  map fst (tag2 (map (fun i => (i, c i)) ix)) = map idx2 ix.
Proof. unfold tag2; rewrite !map_map; reflexivity. Qed.

(** ** The variable space *)

Lemma vars_upd_same (st : state) (v : var) (f : vardata -> vardata) :
  vars (upd_var st v f) v = f (vars st v).
Proof.
  unfold upd_var; simpl. destruct (var_eq_dec v v); [reflexivity | contradiction].
Qed.

Lemma vars_upd_other (st : state) (v v' : var) (f : vardata -> vardata) :
  v' <> v -> vars (upd_var st v f) v' = vars st v'.
Proof.
  intro H; unfold upd_var; simpl.
  destruct (var_eq_dec v' v); [contradiction | reflexivity].
Qed.

(** A loop of writes, each to the variable [vk x]: a variable the loop
    reaches satisfies what every write to it establishes; the others are
    untouched. *)
Lemma fold_writes {A : Type} (step : state -> A -> state) (vk : A -> var)
  (P : var -> vardata -> Prop) (xs : list A) (st : state) :
  (forall s x v, v <> vk x -> vars (step s x) v = vars s v) ->
  (forall s x, P (vk x) (vars (step s x) (vk x))) ->
  forall v, In v (map vk xs) -> P v (vars (fold_left step xs st) v).
Proof.
  intros Hframe Hwrite.
  induction xs as [|x xs IH] using rev_ind; intros v Hin; [contradiction|].
  rewrite fold_left_app; simpl.
  destruct (var_eq_dec v (vk x)) as [->|Hne]; [apply Hwrite|].
  rewrite Hframe by exact Hne.
  apply IH. rewrite map_app in Hin; apply in_app_or in Hin.
  destruct Hin as [Hin|[E|[]]]; [exact Hin | symmetry in E; contradiction].
Qed.

Lemma fold_frame {A : Type} (step : state -> A -> state) (vk : A -> var)
  (xs : list A) (st : state) :
  (forall s x v, v <> vk x -> vars (step s x) v = vars s v) ->
  forall v, ~ In v (map vk xs) -> vars (fold_left step xs st) v = vars st v.
Proof.
  intro Hframe; revert st.
  induction xs as [|x xs IH]; intros st v Hnin; simpl; [reflexivity|].
  rewrite IH by (intro H; apply Hnin; right; exact H).
  apply Hframe; intro E; apply Hnin; left; symmetry; exact E.
Qed.

Lemma fold_con_comps {A : Type} (step : state -> A -> state) (xs : list A)
  (st : state) :
  (forall s x, con_comps (step s x) = con_comps s) ->
  con_comps (fold_left step xs st) = con_comps st.
Proof.
  intro H; revert st; induction xs as [|x xs IH]; intro st; simpl;
    [reflexivity | rewrite IH; apply H].
Qed.

Lemma fold_var_comps {A : Type} (step : state -> A -> state) (xs : list A)
  (st : state) :
  (forall s x, var_comps (step s x) = var_comps s) ->
  var_comps (fold_left step xs st) = var_comps st.
Proof.
  intro H; revert st; induction xs as [|x xs IH]; intro st; simpl;
    [reflexivity | rewrite IH; apply H].
Qed.

Lemma require_objs_ok (blk : block) (l : list entity) :
  objs blk = Some l -> l <> [] -> require_objs blk = Ok l.
Proof.
  intros H Hne; unfold require_objs; rewrite H.
  destruct l; [contradiction | reflexivity].
Qed.

Lemma in_uids (l : list entity) (e : uid) :
  In e (map e_uid l) -> exists s, In s l /\ e_uid s = e.
Proof.
  rewrite in_map_iff; intros [s [E H]]; exists s; auto.
Qed.

(* ================================================================== *)
(** ** Storage balance *)

Lemma vars_fix_set_same (v : var) (q : Q) (s : state) :
  vars (fix_var v (set_value v q s)) v
  = VarData (Some q) true (v_nonneg (vars s v)) (v_lb (vars s v))
            (v_ub (vars s v)).
Proof.
  unfold fix_var; rewrite vars_upd_same.
  unfold set_value; rewrite vars_upd_same; reflexivity.
Qed.

Lemma vars_fix_set_other (v v' : var) (q : Q) (s : state) :
  v' <> v -> vars (fix_var v (set_value v q s)) v' = vars s v'.
Proof.
  intro H; unfold fix_var, set_value; rewrite !vars_upd_other by exact H.
  reflexivity.
Qed.

Lemma vars_setub_same (v : var) (q : Q) (s : state) :
  vars (setub v q s) v
  = VarData (v_value (vars s v)) (v_fixed (vars s v)) (v_nonneg (vars s v))
            (v_lb (vars s v)) (Some q).
Proof. unfold setub; rewrite vars_upd_same; reflexivity. Qed.

Lemma vars_setub_other (v v' : var) (q : Q) (s : state) :
  v' <> v -> vars (setub v q s) v' = vars s v'.
Proof. intro H; unfold setub; rewrite vars_upd_other by exact H; reflexivity. Qed.

Lemma fix_last_cap_ok (m : model) (blk : block) (st : state) (l : list entity) :
  NoDup (map e_uid l) -> uids blk = map e_uid l ->
  exists st1,
    fix_last_cap m blk
      (dict_of String.eqb (map (fun o => (e_uid o, cap_initial o)) l)) st
    = Ok st1 /\
    con_comps st1 = con_comps st /\
    forall s, In s l ->
      v_fixed (vars st1 (Cap (e_uid s) (t_last m))) = true /\
      v_value (vars st1 (Cap (e_uid s) (t_last m))) = Some (cap_initial s).
Proof.
  intros Hnd Hu.
  set (d := dict_of String.eqb (map (fun o => (e_uid o, cap_initial o)) l)).
  set (g := fun e => match dict_get String.eqb e d with Ok c => c | Raise _ => 0 end).
  set (step := fun s e => fix_var (Cap e (t_last m))
                            (set_value (Cap e (t_last m)) (g e) s)).
  exists (fold_left step (uids blk) st).
  assert (Hg : forall s, In s l -> dict_get String.eqb (e_uid s) d = Ok (cap_initial s)).
  { intros s Hs; apply attr_dict_get; assumption. }
  split; [|split].
  - unfold fix_last_cap; apply for_each_ok.
    intros s' e He; rewrite Hu in He.
    destruct (in_uids _ _ He) as [s [Hs <-]].
    unfold step, g; fold d; rewrite (Hg s Hs); reflexivity.
  - apply fold_con_comps; intros; reflexivity.
  - intros s Hs.
    assert (Hgs : g (e_uid s) = cap_initial s).
    { unfold g; rewrite (Hg s Hs); reflexivity. }
    rewrite <- Hgs.
    refine (fold_writes step (fun e => Cap e (t_last m))
             (fun v d' => match v with
                          | Cap e _ => v_fixed d' = true /\ v_value d' = Some (g e)
                          | _ => True
                          end) (uids blk) st _ _ (Cap (e_uid s) (t_last m)) _).
    + intros s' x v Hne; unfold step.
      apply vars_fix_set_other; exact Hne.
    + intros s' x; unfold step.
      rewrite vars_fix_set_same; simpl; split; reflexivity.
    + rewrite Hu, map_map; apply (in_map (fun x => Cap (e_uid x) (t_last m))); exact Hs.
Qed.

Lemma storage_balance_rule_ok (m : model) (l : list entity) (s : entity)
  (t : Z) (i o : uid) :
  NoDup (map e_uid l) -> In s l ->
  I_of m (e_uid s) = Ok i -> O_at m (e_uid s) 0 = Ok o ->
  ~ eta_out s == 0 ->
  exists c,
    storage_balance_rule m
      (dict_of String.eqb (map (fun x => (e_uid x, cap_initial x)) l))
      (dict_of String.eqb (map (fun x => (e_uid x, cap_loss x)) l))
      (dict_of String.eqb (map (fun x => (e_uid x, eta_in x)) l))
      (dict_of String.eqb (map (fun x => (e_uid x, eta_out x)) l))
      (e_uid s, t) = Ok (RCons c) /\
    forall rho,
      (t = 0%Z ->
       (holds rho c <->
        rho (Cap (e_uid s) 0)
        == cap_initial s + rho (W i (e_uid s) 0) * eta_in s
           - rho (W (e_uid s) o 0) / eta_out s)) /\
      ((t > 0)%Z ->
       (holds rho c <->
        rho (Cap (e_uid s) t)
        == rho (Cap (e_uid s) (t - 1)) * (1 - cap_loss s)
           + rho (W i (e_uid s) t) * eta_in s
           - rho (W (e_uid s) o t) / eta_out s)).
Proof.
  intros Hnd Hs HI HO Heta.
  unfold storage_balance_rule.
  rewrite !(attr_dict_get _ l s Hnd Hs), HI, HO.
  assert (Hq : Qeq_bool (eta_out s) 0 = false).
  { destruct (Qeq_bool (eta_out s) 0) eqn:E; [|reflexivity].
    apply Qeq_bool_iff in E; contradiction. }
  destruct (t =? 0)%Z eqn:Et; cbn [bind]; unfold py_div; rewrite Hq;
    cbn [bind]; eexists; (split; [reflexivity|]);
    intro rho; (split; intro Ht).
  - subst t; simpl; unfold Qdiv; split; intro H; lra.
  - apply Z.eqb_eq in Et; lia.
  - apply Z.eqb_neq in Et; contradiction.
  - simpl; unfold Qdiv; split; intro H; lra.
Qed.

(** C2. For every storage entity the balance family holds the capacity
    recursion: at [t = 0], [CAP(e,0) == cap_initial(e) + W(in,e,0) * eta_in(e)
    - W(e,out,0) / eta_out(e)]; at every [t > 0], [CAP(e,t) == CAP(e,t-1) *
    (1 - cap_loss(e)) + W(in,e,t) * eta_in(e) - W(e,out,t) / eta_out(e)]; one
    constraint per (storage, timestep); and the capacity variable of the
    last timestep is set to [cap_initial(e)] and fixed in the state the
    family is then added to. *)
Theorem storage_balance_recursion (m : model) (blk : block) (st : state)
  (l : list entity) :
  objs blk = Some l -> l <> [] ->
  NoDup (map e_uid l) ->
  uids blk = map e_uid l ->
  indexset blk = list_prod (uids blk) (timesteps m) ->
  last_timestep m = t_last m ->
  (forall s, In s l ->
     ~ eta_out s == 0 /\
     (exists i, I_of m (e_uid s) = Ok i) /\
     (exists o, O_at m (e_uid s) 0 = Ok o)) ->
  exists st1 fam,
    add_storage_balance m blk st = Ok (add_con_comp "balance" fam st1) /\
    con_comps st1 = con_comps st /\
    (forall s, In s l ->
       v_fixed (vars st1 (Cap (e_uid s) (last_timestep m))) = true /\
       v_value (vars st1 (Cap (e_uid s) (last_timestep m)))
       = Some (cap_initial s)) /\
    map fst fam = map idx2 (list_prod (map e_uid l) (timesteps m)) /\
    (forall s t, In s l -> In t (timesteps m) ->
       exists c, In (Idx2 (e_uid s) t, c) fam) /\
    (forall s t c i o rho,
       In s l -> In (Idx2 (e_uid s) t, c) fam ->
       I_of m (e_uid s) = Ok i -> O_at m (e_uid s) 0 = Ok o ->
       (t = 0%Z ->
        (holds rho c <->
         rho (Cap (e_uid s) 0)
         == cap_initial s + rho (W i (e_uid s) 0) * eta_in s
            - rho (W (e_uid s) o 0) / eta_out s)) /\
       ((t > 0)%Z ->
        (holds rho c <->
         rho (Cap (e_uid s) t)
         == rho (Cap (e_uid s) (t - 1)) * (1 - cap_loss s)
            + rho (W i (e_uid s) t) * eta_in s
            - rho (W (e_uid s) o t) / eta_out s))).
Proof.
  intros Hobjs Hne Hnd Hu Hix Htl Hwf.
  destruct (fix_last_cap_ok m blk st l Hnd Hu) as [st1 [Hfix [Hcc Hcap]]].
  set (rule := storage_balance_rule m
      (dict_of String.eqb (map (fun x => (e_uid x, cap_initial x)) l))
      (dict_of String.eqb (map (fun x => (e_uid x, cap_loss x)) l))
      (dict_of String.eqb (map (fun x => (e_uid x, eta_in x)) l))
      (dict_of String.eqb (map (fun x => (e_uid x, eta_out x)) l))).
  assert (Hrule : forall et, In et (indexset blk) -> exists c, rule et = Ok (RCons c)).
  { intros [e t] Het; rewrite Hix, Hu in Het.
    apply in_prod_iff in Het; destruct Het as [He _].
    destruct (in_uids _ _ He) as [s [Hs <-]].
    destruct (Hwf s Hs) as [Heta [[i HI] [o HO]]].
    destruct (storage_balance_rule_ok m l s t i o Hnd Hs HI HO Heta) as [c [Hc _]].
    exists c; exact Hc. }
  set (cf := fun et => match rule et with Ok (RCons c) => c | _ => CEq (ENum 0) (ENum 0) end).
  assert (Hb : build_constraint (indexset blk) rule
               = Ok (map (fun et => (et, cf et)) (indexset blk))).
  { apply build_constraint_all; intros et Het.
    destruct (Hrule et Het) as [c Hc]; unfold cf; rewrite Hc; reflexivity. }
  exists st1, (tag2 (map (fun et => (et, cf et)) (indexset blk))).
  split; [|split; [exact Hcc|split; [|split; [|split]]]].
  - unfold add_storage_balance.
    rewrite (require_objs_ok blk l Hobjs Hne); simpl.
    rewrite Hfix; simpl. fold rule; rewrite Hb; reflexivity.
  - intros s Hs; rewrite Htl; apply Hcap; exact Hs.
  - rewrite tag2_fst, Hix, Hu; reflexivity.
  - intros s t Hs Ht; exists (cf (e_uid s, t)).
    apply in_tag2, (in_map (fun et => (et, cf et))).
    rewrite Hix, Hu; apply in_prod; [apply in_map; exact Hs | exact Ht].
  - intros s t c i o rho Hs Hin HI HO.
    apply in_tag2 in Hin.
    destruct (build_constraint_in _ _ _ _ _ Hb Hin) as [_ Hr].
    destruct (Hwf s Hs) as [Heta _].
    destruct (storage_balance_rule_ok m l s t i o Hnd Hs HI HO Heta) as [c' [Hc' Hsem]].
    unfold rule in Hr; rewrite Hc' in Hr; inversion Hr; subst c'.
    apply Hsem.
Qed.

Ltac nodup_uids := repeat constructor; simpl; intuition discriminate.

Lemma storage_balance_recursion_witness :
  exists st1 fam,
    add_storage_balance Example.mdl Example.storage_block Example.st0
    = Ok (add_con_comp "balance" fam st1) /\
    v_value (vars st1 (Cap "sto_simple" 2)) = Some 0 /\
    map fst fam
    = [Idx2 "sto_simple" 0; Idx2 "sto_simple" 1; Idx2 "sto_simple" 2].
Proof.
  destruct (storage_balance_recursion Example.mdl Example.storage_block
              Example.st0 [Example.storage])
    as [st1 [fam [Hrun [_ [Hfix [Hix _]]]]]].
  - reflexivity.
  - discriminate.
  - nodup_uids.
  - reflexivity.
  - reflexivity.
  - reflexivity.
  - intros s [<-|[]]; split; [intro H; discriminate H|].
    split; eexists; reflexivity.
  - exists st1, fam; split; [exact Hrun|split; [|exact Hix]].
    apply (Hfix Example.storage); left; reflexivity.
Defined.

(** A family whose rule succeeds with a relation at every index. *)
Lemma build_total {I : Type} (ix : list I) (rule : I -> result rule_result) :
  (forall i, In i ix -> exists c, rule i = Ok (RCons c)) ->
  exists fam,
    build_constraint ix rule = Ok fam /\
    map fst fam = ix /\
    (forall i c, In (i, c) fam -> rule i = Ok (RCons c)).
Proof.
  intro H.
  set (cf := fun i => match rule i with
                      | Ok (RCons c) => c
                      | _ => CEq (ENum 0) (ENum 0)
                      end).
  assert (Hb : build_constraint ix rule = Ok (map (fun i => (i, cf i)) ix)).
  { apply build_constraint_all; intros i Hi.
    destruct (H i Hi) as [c Hc]; unfold cf; rewrite Hc; reflexivity. }
  exists (map (fun i => (i, cf i)) ix); split; [exact Hb|split].
  - rewrite map_map; simpl; apply map_id.
  - intros i c Hin; apply (build_constraint_in _ _ _ _ _ Hb Hin).
Qed.

Lemma tag2_fst' (fam : list ((uid * Z) * constraint)) :
  map fst (tag2 fam) = map idx2 (map fst fam).
Proof. unfold tag2; rewrite !map_map; reflexivity. Qed.

(* ================================================================== *)
(** ** Storage charge and discharge limits *)

Lemma storage_discharge_limit_rule_ok (m : model) (l : list entity)
  (s : entity) (t : Z) (o : uid) :
  NoDup (map e_uid l) -> In s l -> O_at m (e_uid s) 0 = Ok o ->
  exists c,
    storage_discharge_limit_rule m
      (dict_of String.eqb (map (fun x => (e_uid x, cap_max x)) l))
      (dict_of String.eqb (map (fun x => (e_uid x, c_rate_out x)) l))
      (e_uid s, t) = Ok (RCons c) /\
    forall rho,
      holds rho c <->
      rho (W (e_uid s) o t)
      <= (cap_max s + rho (AddCap (e_uid s))) * c_rate_out s.
Proof.
  intros Hnd Hs HO; unfold storage_discharge_limit_rule.
  rewrite HO; cbn [bind]; rewrite !(attr_dict_get _ l s Hnd Hs); cbn [bind].
  eexists; split; [reflexivity|].
  intro rho; simpl; split; intro H; lra.
Qed.

Lemma storage_charge_limit_rule_ok (m : model) (l : list entity)
  (s : entity) (t : Z) (i : uid) :
  NoDup (map e_uid l) -> In s l -> I_of m (e_uid s) = Ok i ->
  exists c,
    storage_charge_limit_rule m
      (dict_of String.eqb (map (fun x => (e_uid x, cap_max x)) l))
      (dict_of String.eqb (map (fun x => (e_uid x, c_rate_in x)) l))
      (e_uid s, t) = Ok (RCons c) /\
    forall rho,
      holds rho c <->
      rho (W (e_uid s) i t)
      <= (cap_max s + rho (AddCap (e_uid s))) * c_rate_in s.
Proof.
  intros Hnd Hs HI; unfold storage_charge_limit_rule.
  rewrite HI; cbn [bind]; rewrite !(attr_dict_get _ l s Hnd Hs); cbn [bind].
  eexists; split; [reflexivity|].
  intro rho; simpl; split; intro H; lra.
Qed.

(** C3. What the charge/discharge limit generator emits for every storage
    [e] and timestep [t]: the discharge family bounds [W(e, O(e)[0], t)] by
    [(cap_max(e) + ADDCAP(e)) * c_rate_out(e)], as claimed; the charge
    family bounds [W(e, I(e), t)], the flow on the edge from the storage to
    its input bus, by [(cap_max(e) + ADDCAP(e)) * c_rate_in(e)], and is
    indifferent to the flow [W(I(e), e, t)] from the input bus into the
    storage that the claim names. *)
Theorem charge_limit_bounds_reverse_edge (m : model) (blk : block)
  (st : state) (l : list entity) :
  objs blk = Some l ->
  NoDup (map e_uid l) ->
  uids blk = map e_uid l ->
  (forall s, In s l ->
     (exists i, I_of m (e_uid s) = Ok i) /\
     (exists o, O_at m (e_uid s) 0 = Ok o)) ->
  exists st' dis chg,
    add_storage_charge_discharge_limits m blk st = Ok st' /\
    con_comp "discharge_limit_invest" st' = Some dis /\
    con_comp "charge_limit_invest" st' = Some chg /\
    map fst dis = map idx2 (list_prod (map e_uid l) (timesteps m)) /\
    map fst chg = map idx2 (list_prod (map e_uid l) (timesteps m)) /\
    (forall s t c o rho,
       In s l -> In (Idx2 (e_uid s) t, c) dis -> O_at m (e_uid s) 0 = Ok o ->
       (holds rho c <->
        rho (W (e_uid s) o t)
        <= (cap_max s + rho (AddCap (e_uid s))) * c_rate_out s)) /\
    (forall s t c i rho,
       In s l -> In (Idx2 (e_uid s) t, c) chg -> I_of m (e_uid s) = Ok i ->
       (holds rho c <->
        rho (W (e_uid s) i t)
        <= (cap_max s + rho (AddCap (e_uid s))) * c_rate_in s) /\
       (i <> e_uid s ->
        forall rho', (forall v, v <> W i (e_uid s) t -> rho' v = rho v) ->
                     (holds rho' c <-> holds rho c))).
Proof.
  intros Hobjs Hnd Hu Hwf.
  set (ix := list_prod (uids blk) (timesteps m)).
  assert (Hin_ix : forall e t, In (e, t) ix -> exists s, In s l /\ e_uid s = e).
  { intros e t H; unfold ix in H; rewrite Hu in H.
    apply in_prod_iff in H; destruct H as [He _]; apply in_uids; exact He. }
  destruct (build_total ix (storage_discharge_limit_rule m
      (dict_of String.eqb (map (fun x => (e_uid x, cap_max x)) l))
      (dict_of String.eqb (map (fun x => (e_uid x, c_rate_out x)) l))))
    as [dis [Hdis [Hdfst Hdin]]].
  { intros [e t] Het; destruct (Hin_ix e t Het) as [s [Hs <-]].
    destruct (Hwf s Hs) as [_ [o HO]].
    destruct (storage_discharge_limit_rule_ok m l s t o Hnd Hs HO) as [c [Hc _]].
    exists c; exact Hc. }
  destruct (build_total ix (storage_charge_limit_rule m
      (dict_of String.eqb (map (fun x => (e_uid x, cap_max x)) l))
      (dict_of String.eqb (map (fun x => (e_uid x, c_rate_in x)) l))))
    as [chg [Hchg [Hcfst Hcin]]].
  { intros [e t] Het; destruct (Hin_ix e t Het) as [s [Hs <-]].
    destruct (Hwf s Hs) as [[i HI] _].
    destruct (storage_charge_limit_rule_ok m l s t i Hnd Hs HI) as [c [Hc _]].
    exists c; exact Hc. }
  eexists; exists (tag2 dis), (tag2 chg).
  split; [|split; [|split; [|split; [|split; [|split]]]]].
  - unfold add_storage_charge_discharge_limits, iter_objs.
    rewrite Hobjs; cbn [bind]. fold ix; rewrite Hdis; cbn [bind].
    rewrite Hchg; cbn [bind]; reflexivity.
  - reflexivity.
  - reflexivity.
  - rewrite tag2_fst', Hdfst; unfold ix; rewrite Hu; reflexivity.
  - rewrite tag2_fst', Hcfst; unfold ix; rewrite Hu; reflexivity.
  - intros s t c o rho Hs Hin HO.
    apply in_tag2 in Hin; apply Hdin in Hin.
    destruct (storage_discharge_limit_rule_ok m l s t o Hnd Hs HO) as [c' [Hc' Hsem]].
    rewrite Hc' in Hin; inversion Hin; subst c'; apply Hsem.
  - intros s t c i rho Hs Hin HI.
    apply in_tag2 in Hin; apply Hcin in Hin.
    destruct (storage_charge_limit_rule_ok m l s t i Hnd Hs HI) as [c' [Hc' Hsem]].
    rewrite Hc' in Hin; inversion Hin; subst c'. split; [apply Hsem|].
    intros Hne rho' Hagree; rewrite !Hsem.
    rewrite !Hagree; [reflexivity | discriminate |].
    intro E; inversion E; subst; apply Hne; reflexivity.
Qed.

Lemma charge_limit_bounds_reverse_edge_witness :
  exists st' chg,
    add_storage_charge_discharge_limits Example.mdl Example.storage_block
      Example.st0 = Ok st' /\
    con_comp "charge_limit_invest" st' = Some chg /\
    forall t c rho,
      In (Idx2 "sto_simple" t, c) chg ->
      (holds rho c <->
       rho (W "sto_simple" "bel" t)
       <= (0 + rho (AddCap "sto_simple")) * (1 # 6)).
Proof.
  destruct (charge_limit_bounds_reverse_edge Example.mdl Example.storage_block
              Example.st0 [Example.storage])
    as [st' [dis [chg [Hrun [_ [Hchg [_ [_ [_ Hsem]]]]]]]]].
  - reflexivity.
  - nodup_uids.
  - reflexivity.
  - intros s [<-|[]]; split; eexists; reflexivity.
  - exists st', chg; split; [exact Hrun|split; [exact Hchg|]].
    intros t c rho Hin.
    apply (Hsem Example.storage t c "bel" rho);
      [left; reflexivity | exact Hin | reflexivity].
Defined.

(* ================================================================== *)
(** ** The guard on the entity subset *)

Lemma require_objs_empty (blk : block) :
  objs blk = None \/ objs blk = Some [] -> require_objs blk = Raise ValueError.
Proof. intros [H|H]; unfold require_objs; rewrite H; reflexivity. Qed.

(** Every generator that starts with the guard raises [ValueError] on an
    empty or missing subset, before it does anything else. *)
Lemma guarded_generators_raise (m : model) (blk : block) (st : state)
  (idx : nat) (grad_direc : string) :
  objs blk = None \/ objs blk = Some [] ->
  add_bus_balance m blk st = Raise ValueError /\
  add_simple_io_relation m blk idx st = Raise ValueError /\
  add_eta_total_chp_relation m blk st = Raise ValueError /\
  add_simple_chp_relation m blk st = Raise ValueError /\
  add_simple_extraction_chp_relation m blk st = Raise ValueError /\
  add_global_output_limit m blk st = Raise ValueError /\
  add_fixed_source m blk st = Raise ValueError /\
  add_dispatch_source m blk st = Raise ValueError /\
  add_storage_balance m blk st = Raise ValueError /\
  add_output_gradient_calc m blk grad_direc st = Raise ValueError.
Proof.
  intro H; apply require_objs_empty in H.
  unfold add_bus_balance, add_simple_io_relation, add_eta_total_chp_relation,
    add_simple_chp_relation, add_simple_extraction_chp_relation,
    add_global_output_limit, add_fixed_source, add_dispatch_source,
    add_storage_balance, add_output_gradient_calc.
  rewrite H; cbn [bind]; repeat split; reflexivity.
Qed.

(** C4. The storage charge/discharge limit generator has no guard: on an
    empty subset it returns normally, adding two empty constraint families,
    where the bus balance and the storage balance generators (like every
    other generator of the module) raise [ValueError]; on a missing subset
    it fails with the [TypeError] of iterating [None], not with the
    configuration error. *)
Theorem charge_discharge_limits_unguarded (m : model) (st : state)
  (ix : list (uid * Z)) (inv : bool) (ex sh : list uid) :
  add_storage_charge_discharge_limits m (Block (Some []) [] ix inv ex sh) st
  = Ok (add_con_comp "charge_limit_invest" []
          (add_con_comp "discharge_limit_invest" [] st)) /\
  add_storage_charge_discharge_limits m (Block None [] ix inv ex sh) st
  = Raise TypeError /\
  add_bus_balance m (Block (Some []) [] ix inv ex sh) st = Raise ValueError /\
  add_storage_balance m (Block (Some []) [] ix inv ex sh) st
  = Raise ValueError /\
  add_storage_balance m (Block None [] ix inv ex sh) st = Raise ValueError.
Proof. repeat split; reflexivity. Qed.

(* ================================================================== *)
(** ** Fixed sources *)

(** C7. In investment mode the rule reads the capacity as
    [out_max[e][model.O[e][0]]]: the attribute is indexed by the uid of the
    first output, not by position [0] as in non-investment mode.  With
    [out_max] a list, which the non-investment path (and the example
    system) uses, the upper bound of [block.add_out[e]] is set and then the
    first call of the rule raises [TypeError]: no equality is emitted. *)
Theorem invest_rule_indexes_by_output_uid (m : model) (blk : block)
  (st : state) (l : list entity) :
  objs blk = Some l -> l <> [] ->
  investment blk = true ->
  NoDup (map e_uid l) ->
  uids blk = map e_uid l ->
  indexset blk = list_prod (uids blk) (timesteps m) ->
  timesteps m <> [] ->
  (forall s, In s l ->
     (exists xs, out_max s = PyList xs) /\
     (exists o, O_at m (e_uid s) 0 = Ok o)) ->
  add_fixed_source m blk st = Raise TypeError /\
  (forall s t, In s l ->
     invest_rule m
       (dict_of String.eqb (map (fun o => (e_uid o, out_max o)) l))
       (dict_of String.eqb (map (fun o => (e_uid o, val o)) l))
       (e_uid s, t) = Raise TypeError).
Proof.
  intros Hobjs Hne Hinv Hnd Hu Hix Hts Hwf.
  assert (Hrule : forall s t, In s l ->
     invest_rule m
       (dict_of String.eqb (map (fun o => (e_uid o, out_max o)) l))
       (dict_of String.eqb (map (fun o => (e_uid o, val o)) l))
       (e_uid s, t) = Raise TypeError).
  { intros s t Hs; destruct (Hwf s Hs) as [[xs Hom] [o HO]].
    unfold invest_rule; rewrite HO; cbn [bind].
    rewrite (attr_dict_get out_max l s Hnd Hs); cbn [bind].
    rewrite Hom; reflexivity. }
  split; [|exact Hrule].
  unfold add_fixed_source.
  rewrite (require_objs_ok blk l Hobjs Hne); cbn [bind].
  rewrite Hinv; cbn [negb].
  rewrite (for_each_ok (uids blk) _
             (fun s e => setub (BlockAddOut e)
                (match dict_get String.eqb e
                         (dict_of String.eqb
                            (map (fun o => (e_uid o, add_out_limit o)) l))
                 with Ok q => q | Raise _ => 0 end) s)).
  - cbn [bind]. rewrite Hix, Hu.
    set (rule := invest_rule m _ _) in *.
    destruct l as [|s0 l']; [contradiction|].
    destruct (timesteps m) as [|t0 ts]; [contradiction|].
    cbn [map list_prod app build_constraint].
    rewrite (Hrule s0 t0 (or_introl eq_refl)); reflexivity.
  - intros s' e He; rewrite Hu in He.
    destruct (in_uids _ _ He) as [s [Hs <-]].
    rewrite (attr_dict_get add_out_limit l s Hnd Hs); reflexivity.
Qed.

Lemma invest_rule_indexes_by_output_uid_witness :
  add_fixed_source Example.mdl Example.source_block_invest Example.st0
  = Raise TypeError.
Proof.
  apply (invest_rule_indexes_by_output_uid Example.mdl
           Example.source_block_invest Example.st0 [Example.wind]).
  - reflexivity.
  - discriminate.
  - reflexivity.
  - nodup_uids.
  - reflexivity.
  - reflexivity.
  - discriminate.
  - intros s [<-|[]]; split; eexists; reflexivity.
Defined.

(** The edges of entities without inputs are their output edges. *)
Lemma in_edges_no_inputs (l : list entity) (e1 e2 : uid) :
  (forall s, In s l -> inputs s = []) ->
  (In (e1, e2) (edges l) <->
   exists s o, In s l /\ In o (outputs s) /\ e1 = e_uid s /\ e2 = e_uid o).
Proof.
  intro Hin; unfold edges; rewrite in_flat_map; split.
  - intros [s [Hs H]]; rewrite (Hin s Hs) in H; simpl in H.
    apply in_map_iff in H; destruct H as [o [E Ho]]; inversion E; subst.
    exists s, o; auto.
  - intros [s [o [Hs [Ho [-> ->]]]]]; exists s; split; [exact Hs|].
    rewrite (Hin s Hs); simpl.
    apply (in_map (fun o => (e_uid s, e_uid o))); exact Ho.
Qed.

Lemma source_potential_ok (l : list entity) (s : entity) (t : Z) (v c : Q) :
  NoDup (map e_uid l) -> In s l ->
  getitem (val s) (KInt t) = Ok v -> getitem (out_max s) (KInt 0) = Ok c ->
  source_potential l (e_uid s) t = Ok (v * c).
Proof.
  intros Hnd Hs Hv Hc; unfold source_potential.
  rewrite (attr_dict_get val l s Hnd Hs); cbn [bind]; rewrite Hv; cbn [bind].
  rewrite (attr_dict_get out_max l s Hnd Hs); cbn [bind]; rewrite Hc.
  reflexivity.
Qed.

Lemma source_lookups_ok (m : model) (l : list entity) (e1 e2 : uid) (t : Z) :
  NoDup (map e_uid l) ->
  (forall s, In s l ->
     inputs s = [] /\
     (exists c, getitem (out_max s) (KInt 0) = Ok c) /\
     (forall t, In t (timesteps m) ->
                exists v, getitem (val s) (KInt t) = Ok v)) ->
  In ((e1, e2), t) (list_prod (edges l) (timesteps m)) ->
  source_potential l e1 t = Ok (potential_or_zero l e1 t).
Proof.
  intros Hnd Hwf Hin.
  apply in_prod_iff in Hin; destruct Hin as [He Ht].
  apply in_edges_no_inputs in He; [|intros s Hs; apply (Hwf s Hs)].
  destruct He as [s [o [Hs [Ho [-> ->]]]]].
  destruct (Hwf s Hs) as [_ [[c Hc] Hv]].
  destruct (Hv t Ht) as [v Hv'].
  unfold potential_or_zero.
  rewrite (source_potential_ok l s t v c Hnd Hs Hv' Hc); reflexivity.
Qed.

(** C6. In non-investment mode the fixed source generator sets, for every
    source [e], every output edge [(e, o)] and every timestep [t], the value
    of the flow variable [W(e,o,t)] to [val(e)[t] * out_max(e)[0]] and fixes
    it; it adds no constraint and declares no variable; any solution gives
    the flow exactly that value. *)
Theorem fixed_source_pins_flow (m : model) (blk : block) (st : state)
  (l : list entity) :
  objs blk = Some l -> l <> [] ->
  investment blk = false ->
  NoDup (map e_uid l) ->
  (forall s, In s l ->
     inputs s = [] /\
     (exists c, getitem (out_max s) (KInt 0) = Ok c) /\
     (forall t, In t (timesteps m) ->
                exists v, getitem (val s) (KInt t) = Ok v)) ->
  exists st',
    add_fixed_source m blk st = Ok st' /\
    con_comps st' = con_comps st /\
    var_comps st' = var_comps st /\
    (forall s o t v c,
       In s l -> In o (outputs s) -> In t (timesteps m) ->
       getitem (val s) (KInt t) = Ok v ->
       getitem (out_max s) (KInt 0) = Ok c ->
       v_value (vars st' (W (e_uid s) (e_uid o) t)) = Some (v * c) /\
       v_fixed (vars st' (W (e_uid s) (e_uid o) t)) = true /\
       (forall rho, solution st' rho ->
                    rho (W (e_uid s) (e_uid o) t) == v * c)).
Proof.
  intros Hobjs Hne Hinv Hnd Hwf.
  set (step := fun (s : state) (et : (uid * uid) * Z) =>
         fix_var (W (fst (fst et)) (snd (fst et)) (snd et))
           (set_value (W (fst (fst et)) (snd (fst et)) (snd et))
              (potential_or_zero l (fst (fst et)) (snd et)) s)).
  set (xs := list_prod (edges l) (timesteps m)).
  exists (fold_left step xs st).
  assert (Hrun : add_fixed_source m blk st = Ok (fold_left step xs st)).
  { unfold add_fixed_source.
    rewrite (require_objs_ok blk l Hobjs Hne); cbn [bind].
    rewrite Hinv; cbn [negb].
    apply for_each_ok; intros s' [[e1 e2] t] Hin.
    assert (Hp := source_lookups_ok m l e1 e2 t Hnd Hwf Hin).
    unfold source_potential in Hp.
    destruct (dict_get String.eqb e1
                (dict_of String.eqb (map (fun o => (e_uid o, val o)) l)))
      as [vs|]; cbn [bind] in *; [|discriminate].
    destruct (getitem vs (KInt t)) as [v|]; cbn [bind] in *; [|discriminate].
    destruct (dict_get String.eqb e1
                (dict_of String.eqb (map (fun o => (e_uid o, out_max o)) l)))
      as [om|]; cbn [bind] in *; [|discriminate].
    destruct (getitem om (KInt 0)) as [c|]; cbn [bind] in *; [|discriminate].
    inversion Hp as [Hq]; unfold step; simpl; rewrite <- Hq; reflexivity. }
  split; [exact Hrun|split; [|split]].
  - apply fold_con_comps; intros; reflexivity.
  - apply fold_var_comps; intros; reflexivity.
  - intros s o t v c Hs Ho Ht Hv Hc.
    assert (Hpz : potential_or_zero l (e_uid s) t = v * c).
    { unfold potential_or_zero.
      rewrite (source_potential_ok l s t v c Hnd Hs Hv Hc); reflexivity. }
    assert (Hvar :
      v_fixed (vars (fold_left step xs st) (W (e_uid s) (e_uid o) t)) = true /\
      v_value (vars (fold_left step xs st) (W (e_uid s) (e_uid o) t))
      = Some (potential_or_zero l (e_uid s) t)).
    { refine (fold_writes step
               (fun et => W (fst (fst et)) (snd (fst et)) (snd et))
               (fun x d => match x with
                           | W e1 _ t' =>
                               v_fixed d = true /\
                               v_value d = Some (potential_or_zero l e1 t')
                           | _ => True
                           end) xs st _ _ (W (e_uid s) (e_uid o) t) _).
      - intros s' x x' Hx; unfold step; apply vars_fix_set_other; exact Hx.
      - intros s' x; unfold step; rewrite vars_fix_set_same; split; reflexivity.
      - apply in_map_iff; exists ((e_uid s, e_uid o), t); split; [reflexivity|].
        unfold xs; apply in_prod; [|exact Ht].
        apply in_edges_no_inputs; [intros s1 Hs1; apply (Hwf s1 Hs1)|].
        exists s, o; auto. }
    destruct Hvar as [Hfixed Hval]; rewrite Hpz in Hval.
    split; [exact Hval|split; [exact Hfixed|]].
    intros rho [_ Hresp].
    destruct (Hresp (W (e_uid s) (e_uid o) t)) as [Hf _].
    apply Hf; assumption.
Qed.

Lemma fixed_source_pins_flow_witness :
  exists st',
    add_fixed_source Example.mdl Example.source_block Example.st0 = Ok st' /\
    con_comps st' = [] /\
    v_value (vars st' (W "wind" "bel" 0)) = Some ((1 # 2) * 1000000) /\
    v_fixed (vars st' (W "wind" "bel" 0)) = true.
Proof.
  destruct (fixed_source_pins_flow Example.mdl Example.source_block
              Example.st0 [Example.wind])
    as [st' [Hrun [Hcc [_ Hval]]]].
  - reflexivity.
  - discriminate.
  - reflexivity.
  - nodup_uids.
  - intros s [<-|[]]; split; [reflexivity|split; [eexists; reflexivity|]].
    intros t [<-|[<-|[<-|[]]]]; eexists; reflexivity.
  - exists st'; split; [exact Hrun|split; [exact Hcc|]].
    destruct (Hval Example.wind Example.bel_stub 0%Z (1 # 2) 1000000)
      as [H1 [H2 _]]; try reflexivity; simpl; auto.
Defined.

(* ================================================================== *)
(** ** Dispatchable sources *)

Lemma fold_frame_all {A : Type} (step : state -> A -> state) (vk : A -> var)
  (xs : list A) (st : state) (v : var) :
  (forall s x v', v' <> vk x -> vars (step s x) v' = vars s v') ->
  (forall x, v <> vk x) ->
  vars (fold_left step xs st) v = vars st v.
Proof.
  intros Hframe Hv; apply (fold_frame step vk xs st Hframe).
  intro Hin; apply in_map_iff in Hin; destruct Hin as [x [E _]].
  apply (Hv x); symmetry; exact E.
Qed.

Lemma vars_declare_same (v : var) (b : option (Q * Q)) (s : state) :
  vars (declare_nonneg v b s) v
  = match b with
    | None => VarData None false true None None
    | Some (lo, hi) => VarData None false true (Some lo) (Some hi)
    end.
Proof. unfold declare_nonneg; rewrite vars_upd_same; reflexivity. Qed.

Lemma vars_declare_other (v v' : var) (b : option (Q * Q)) (s : state) :
  v' <> v -> vars (declare_nonneg v b s) v' = vars s v'.
Proof.
  intro H; unfold declare_nonneg; rewrite vars_upd_other by exact H.
  reflexivity.
Qed.

Lemma declare_family_nonneg (name : string) (mk : uid -> Z -> var)
  (ix : list (uid * Z)) (st : state) (e : uid) (t : Z) :
  In (e, t) ix ->
  v_nonneg (vars (declare_family name mk ix st) (mk e t)) = true.
Proof.
  intro Hin; unfold declare_family, add_var_comp; cbn [vars].
  refine (fold_writes
            (fun s et => declare_nonneg (mk (fst et) (snd et)) None s)
            (fun et => mk (fst et) (snd et))
            (fun _ d => v_nonneg d = true) ix st _ _ (mk e t) _).
  - intros s x v Hne; apply vars_declare_other; exact Hne.
  - intros s x; rewrite vars_declare_same; reflexivity.
  - apply (in_map (fun et => mk (fst et) (snd et)) ix (e, t)); exact Hin.
Qed.

Lemma curtailment_source_rule_ok (m : model) (l : list entity) (s : entity)
  (t : Z) (o : uid) (v c : Q) :
  NoDup (map e_uid l) -> In s l ->
  getitem (val s) (KInt t) = Ok v -> getitem (out_max s) (KInt 0) = Ok c ->
  O_at m (e_uid s) 0 = Ok o ->
  exists cn,
    curtailment_source_rule m
      (dict_of String.eqb (map (fun x => (e_uid x, out_max x)) l))
      (dict_of String.eqb (map (fun x => (e_uid x, val x)) l))
      (e_uid s, t) = Ok (RCons cn) /\
    forall rho,
      holds rho cn <->
      rho (Curtailment (e_uid s) t) == v * c - rho (W (e_uid s) o t).
Proof.
  intros Hnd Hs Hv Hc HO; unfold curtailment_source_rule.
  rewrite (attr_dict_get val l s Hnd Hs); cbn [bind]; rewrite Hv; cbn [bind].
  rewrite (attr_dict_get out_max l s Hnd Hs); cbn [bind]; rewrite Hc, HO.
  cbn [bind]; eexists; split; [reflexivity|].
  intro rho; simpl; reflexivity.
Qed.

(** C8. For every dispatchable source [e] and timestep [t] the generator
    sets the upper bound of the flow [W(e,out,t)] to
    [val(e)[t] * out_max(e)[0]], declares the curtailment variable over
    the block's index set with domain non-negative reals, and emits exactly
    one equality [CURTAIL(e,t) == val(e)[t] * out_max(e)[0] - W(e,out,t)];
    hence in any solution curtailment plus flow equals the potential and
    curtailment is non-negative. *)
Theorem dispatch_source_curtailment (m : model) (blk : block) (st : state)
  (l : list entity) :
  objs blk = Some l -> l <> [] ->
  NoDup (map e_uid l) ->
  uids blk = map e_uid l ->
  indexset blk = list_prod (uids blk) (timesteps m) ->
  (forall s, In s l ->
     inputs s = [] /\
     (exists c, getitem (out_max s) (KInt 0) = Ok c) /\
     (forall t, In t (timesteps m) ->
                exists v, getitem (val s) (KInt t) = Ok v) /\
     (exists o, In o (outputs s) /\ O_at m (e_uid s) 0 = Ok (e_uid o))) ->
  exists st' fam,
    add_dispatch_source m blk st = Ok st' /\
    con_comp "curtailment" st' = Some fam /\
    var_comp "curtailment_var" st'
    = Some (map (fun et => Curtailment (fst et) (snd et)) (indexset blk)) /\
    map fst fam = map idx2 (list_prod (map e_uid l) (timesteps m)) /\
    (forall s o t v c,
       In s l -> In t (timesteps m) ->
       O_at m (e_uid s) 0 = Ok o ->
       getitem (val s) (KInt t) = Ok v ->
       getitem (out_max s) (KInt 0) = Ok c ->
       v_ub (vars st' (W (e_uid s) o t)) = Some (v * c) /\
       v_nonneg (vars st' (Curtailment (e_uid s) t)) = true /\
       (exists cn, In (Idx2 (e_uid s) t, cn) fam) /\
       (forall cn rho,
          In (Idx2 (e_uid s) t, cn) fam ->
          (holds rho cn <->
           rho (Curtailment (e_uid s) t) == v * c - rho (W (e_uid s) o t))) /\
       (forall rho,
          solution st' rho ->
          rho (Curtailment (e_uid s) t) + rho (W (e_uid s) o t) == v * c /\
          0 <= rho (Curtailment (e_uid s) t))).
Proof.
  intros Hobjs Hne Hnd Hu Hix Hwf.
  assert (Hwf' : forall s, In s l ->
     inputs s = [] /\
     (exists c, getitem (out_max s) (KInt 0) = Ok c) /\
     (forall t, In t (timesteps m) ->
                exists v, getitem (val s) (KInt t) = Ok v)).
  { intros s Hs; destruct (Hwf s Hs) as [H1 [H2 [H3 _]]]; auto. }
  set (st0 := declare_family "curtailment_var" Curtailment (indexset blk) st).
  set (step := fun (s : state) (et : (uid * uid) * Z) =>
         setub (W (fst (fst et)) (snd (fst et)) (snd et))
               (potential_or_zero l (fst (fst et)) (snd et)) s).
  set (xs := list_prod (edges l) (timesteps m)).
  set (st1 := fold_left step xs st0).
  set (rule := curtailment_source_rule m
      (dict_of String.eqb (map (fun x => (e_uid x, out_max x)) l))
      (dict_of String.eqb (map (fun x => (e_uid x, val x)) l))).
  assert (Hloop : for_each xs
            (fun s et =>
               let '((e1, e2), t) := et in
               vs <- dict_get String.eqb e1
                       (dict_of String.eqb (map (fun o => (e_uid o, val o)) l)) ;;
               v <- getitem vs (KInt t) ;;
               om <- dict_get String.eqb e1
                       (dict_of String.eqb (map (fun o => (e_uid o, out_max o)) l)) ;;
               c <- getitem om (KInt 0) ;;
               Ok (setub (W e1 e2 t) (v * c) s)) st0 = Ok st1).
  { apply for_each_ok; intros s' [[e1 e2] t] Hin.
    assert (Hp := source_lookups_ok m l e1 e2 t Hnd Hwf' Hin).
    unfold source_potential in Hp.
    destruct (dict_get String.eqb e1
                (dict_of String.eqb (map (fun o => (e_uid o, val o)) l)))
      as [vs|]; cbn [bind] in *; [|discriminate].
    destruct (getitem vs (KInt t)) as [v|]; cbn [bind] in *; [|discriminate].
    destruct (dict_get String.eqb e1
                (dict_of String.eqb (map (fun o => (e_uid o, out_max o)) l)))
      as [om|]; cbn [bind] in *; [|discriminate].
    destruct (getitem om (KInt 0)) as [c|]; cbn [bind] in *; [|discriminate].
    inversion Hp as [Hq]; unfold step; simpl; rewrite <- Hq; reflexivity. }
  destruct (build_total (indexset blk) rule) as [fam [Hfam [Hfst Hfin]]].
  { intros [e t] Het; rewrite Hix, Hu in Het.
    apply in_prod_iff in Het; destruct Het as [He Ht].
    destruct (in_uids _ _ He) as [s [Hs <-]].
    destruct (Hwf s Hs) as [_ [[c Hc] [Hv [o [_ HO]]]]].
    destruct (Hv t Ht) as [v Hv'].
    destruct (curtailment_source_rule_ok m l s t _ v c Hnd Hs Hv' Hc HO)
      as [cn [Hcn _]].
    exists cn; exact Hcn. }
  exists (add_con_comp "curtailment" (tag2 fam) st1), (tag2 fam).
  split; [|split; [reflexivity|split; [|split]]].
  - unfold add_dispatch_source.
    rewrite (require_objs_ok blk l Hobjs Hne); cbn [bind].
    fold st0; fold xs; rewrite Hloop; cbn [bind].
    fold rule; rewrite Hfam; reflexivity.
  - unfold var_comp, add_con_comp; cbn [var_comps].
    unfold st1; rewrite fold_var_comps by (intros; reflexivity).
    reflexivity.
  - rewrite tag2_fst', Hfst, Hix, Hu; reflexivity.
  - intros s o t v c Hs Ht HO Hv Hc.
    destruct (curtailment_source_rule_ok m l s t o v c Hnd Hs Hv Hc HO)
      as [cn0 [Hcn0 Hsem]].
    assert (Hidx : In (e_uid s, t) (indexset blk)).
    { rewrite Hix, Hu; apply in_prod; [apply in_map; exact Hs | exact Ht]. }
    assert (Hmem : forall cn, In (Idx2 (e_uid s) t, cn) (tag2 fam) -> cn = cn0).
    { intros cn Hin; apply in_tag2 in Hin; apply Hfin in Hin.
      unfold rule in Hin; rewrite Hcn0 in Hin; inversion Hin; reflexivity. }
    assert (Hex : In (Idx2 (e_uid s) t, cn0) (tag2 fam)).
    { assert (Hi : In (e_uid s, t) (map fst fam)) by (rewrite Hfst; exact Hidx).
      apply in_map_iff in Hi; destruct Hi as [[et cn] [E Hin]]; simpl in E; subst et.
      assert (Hcn := Hfin _ _ Hin).
      unfold rule in Hcn; rewrite Hcn0 in Hcn; inversion Hcn; subst cn.
      apply in_tag2; exact Hin. }
    assert (Hub : v_ub (vars st1 (W (e_uid s) o t)) = Some (v * c)).
    { destruct (Hwf s Hs) as [_ [_ [_ [o' [Ho' HO']]]]].
      rewrite HO in HO'; inversion HO'; subst o.
      assert (Hpz : potential_or_zero l (e_uid s) t = v * c).
      { unfold potential_or_zero.
        rewrite (source_potential_ok l s t v c Hnd Hs Hv Hc); reflexivity. }
      rewrite <- Hpz.
      refine (fold_writes step
                (fun et => W (fst (fst et)) (snd (fst et)) (snd et))
                (fun x d => match x with
                            | W e1 _ t' =>
                                v_ub d = Some (potential_or_zero l e1 t')
                            | _ => True
                            end) xs st0 _ _ (W (e_uid s) (e_uid o') t) _).
      - intros s' x x' Hx; unfold step; apply vars_setub_other; exact Hx.
      - intros s' x; unfold step; rewrite vars_setub_same; reflexivity.
      - apply in_map_iff; exists ((e_uid s, e_uid o'), t); split; [reflexivity|].
        unfold xs; apply in_prod; [|exact Ht].
        apply in_edges_no_inputs; [intros s1 Hs1; apply (Hwf' s1 Hs1)|].
        exists s, o'; auto. }
    assert (Hnn : v_nonneg (vars st1 (Curtailment (e_uid s) t)) = true).
    { unfold st1.
      rewrite (fold_frame_all step
                 (fun et => W (fst (fst et)) (snd (fst et)) (snd et))).
      - apply declare_family_nonneg; exact Hidx.
      - intros s' x x' Hx; unfold step; apply vars_setub_other; exact Hx.
      - intros x; discriminate. }
    split; [exact Hub|split; [exact Hnn|split; [exists cn0; exact Hex|split]]].
    + intros cn rho Hin; rewrite (Hmem cn Hin); apply Hsem.
    + intros rho [Hcons Hresp]; split.
      * assert (H : holds rho cn0).
        { apply (Hcons "curtailment" (tag2 fam) (Idx2 (e_uid s) t) cn0);
            [left; reflexivity | exact Hex]. }
        apply Hsem in H; rewrite H; ring.
      * destruct (Hresp (Curtailment (e_uid s) t)) as [_ [Hn _]].
        apply Hn; exact Hnn.
Qed.

Lemma dispatch_source_curtailment_witness :
  exists st' fam,
    add_dispatch_source Example.mdl Example.source_block Example.st0 = Ok st' /\
    con_comp "curtailment" st' = Some fam /\
    v_ub (vars st' (W "wind" "bel" 1)) = Some (1 * 1000000) /\
    (forall rho,
       solution st' rho ->
       rho (Curtailment "wind" 1) + rho (W "wind" "bel" 1) == 1 * 1000000 /\
       0 <= rho (Curtailment "wind" 1)).
Proof.
  destruct (dispatch_source_curtailment Example.mdl Example.source_block
              Example.st0 [Example.wind])
    as [st' [fam [Hrun [Hfam [_ [_ Hsem]]]]]].
  - reflexivity.
  - discriminate.
  - nodup_uids.
  - reflexivity.
  - reflexivity.
  - intros s [<-|[]]; split; [reflexivity|split; [eexists; reflexivity|split]].
    + intros t [<-|[<-|[<-|[]]]]; eexists; reflexivity.
    + exists Example.bel_stub; split; [left; reflexivity | reflexivity].
  - exists st', fam; split; [exact Hrun|split; [exact Hfam|]].
    destruct (Hsem Example.wind "bel" 1%Z 1 1000000)
      as [H1 [_ [_ [_ H2]]]]; try reflexivity; simpl; auto.
Defined.

(* ================================================================== *)
(** ** Output gradients *)

Lemma in_entries {I : Type} (ix : list I) (g : I -> rule_result) (i : I)
  (c : constraint) :
  In (i, c) (flat_map (fun j => entry_of j (g j)) ix)
  <-> In i ix /\ g i = RCons c.
Proof.
  rewrite in_flat_map; split.
  - intros [j [Hj H]]; destruct (g j) eqn:E; simpl in H;
      try contradiction.
    destruct H as [H|[]]; inversion H; subst; auto.
  - intros [Hi E]; exists i; split; [exact Hi|].
    rewrite E; left; reflexivity.
Qed.

Lemma declare_bounded_family_ok (name : string) (mk : uid -> Z -> var)
  (f : entity -> Q) (l : list entity) (ix : list (uid * Z)) (st : state) :
  NoDup (map e_uid l) ->
  (forall e t, In (e, t) ix -> In e (map e_uid l)) ->
  (forall e t, var_uid (mk e t) = e) ->
  exists st2,
    declare_bounded_family name mk
      (dict_of String.eqb (map (fun x => (e_uid x, f x)) l)) ix st = Ok st2 /\
    var_comps st2
    = (name, map (fun et => mk (fst et) (snd et)) ix) :: var_comps st /\
    con_comps st2 = con_comps st /\
    (forall v, (forall e t, v <> mk e t) -> vars st2 v = vars st v) /\
    (forall s t, In s l -> In (e_uid s, t) ix ->
       vars st2 (mk (e_uid s) t)
       = VarData None false true (Some 0) (Some (f s))).
Proof.
  intros Hnd Hix Hk.
  set (d := dict_of String.eqb (map (fun x => (e_uid x, f x)) l)).
  set (g := fun e => match dict_get String.eqb e d with Ok q => q | Raise _ => 0 end).
  set (step := fun (s : state) (et : uid * Z) =>
         declare_nonneg (mk (fst et) (snd et)) (Some (0, g (fst et))) s).
  exists (add_var_comp name (map (fun et => mk (fst et) (snd et)) ix)
            (fold_left step ix st)).
  split; [|split; [|split; [|split]]].
  - unfold declare_bounded_family.
    rewrite (for_each_ok ix _ step); [reflexivity|].
    intros s' [e t] Hin; destruct (in_uids _ _ (Hix e t Hin)) as [s [Hs <-]].
    unfold step, g; cbn [fst snd]; fold d.
    unfold d; rewrite (attr_dict_get f l s Hnd Hs); reflexivity.
  - unfold add_var_comp; cbn [var_comps].
    rewrite fold_var_comps by (intros; reflexivity); reflexivity.
  - unfold add_var_comp; cbn [con_comps].
    apply fold_con_comps; intros; reflexivity.
  - intros v Hv; unfold add_var_comp; cbn [vars].
    apply (fold_frame_all step (fun et => mk (fst et) (snd et))).
    + intros s x v' Hne; unfold step; apply vars_declare_other; exact Hne.
    + intros x; apply Hv.
  - intros s t Hs Hin; unfold add_var_comp; cbn [vars].
    assert (Hg : g (e_uid s) = f s).
    { unfold g, d; rewrite (attr_dict_get f l s Hnd Hs); reflexivity. }
    rewrite <- Hg.
    assert (Hw := fold_writes step (fun et => mk (fst et) (snd et))
              (fun v d' => d' = VarData None false true (Some 0)
                                        (Some (g (var_uid v)))) ix st).
    rewrite <- (Hk (e_uid s) t) at 2.
    apply Hw.
    + intros s' x v Hne; unfold step; apply vars_declare_other; exact Hne.
    + intros s' x; unfold step; rewrite vars_declare_same, Hk; reflexivity.
    + apply (in_map (fun et => mk (fst et) (snd et)) ix (e_uid s, t)); exact Hin.
Qed.

Lemma grad_pos_calc_rule_ok (m : model) (e : uid) (t : Z) (o : uid) :
  O_at m e 0 = Ok o ->
  grad_pos_calc_rule m (e, t) = Ok (grad_pos_result o (e, t)).
Proof.
  intro HO; unfold grad_pos_calc_rule, grad_pos_result; cbn [fst snd].
  destruct (t >? 0)%Z; [rewrite HO|]; reflexivity.
Qed.

Lemma grad_neg_calc_rule_ok (m : model) (e : uid) (t : Z) (o : uid) :
  O_at m e 0 = Ok o ->
  grad_neg_calc_rule m (e, t) = Ok (grad_neg_result o (e, t)).
Proof.
  intro HO; unfold grad_neg_calc_rule, grad_neg_result; cbn [fst snd].
  destruct (t >? 0)%Z; [rewrite HO|]; reflexivity.
Qed.

(** One direction block: the variable is declared with its bounds over the
    whole index set, the family holds exactly the relations the rule does
    not skip, and nothing else changes. *)
Lemma grad_block_ok (m : model) (blk : block) (l : list entity)
  (name_var name_con : string) (mk : uid -> Z -> var) (f : entity -> Q)
  (rule : uid * Z -> result rule_result)
  (res : uid -> uid * Z -> rule_result) (st : state) :
  NoDup (map e_uid l) ->
  indexset blk = list_prod (map e_uid l) (timesteps m) ->
  (forall e t, var_uid (mk e t) = e) ->
  (forall s, In s l -> exists o, O_at m (e_uid s) 0 = Ok o) ->
  (forall e t o, O_at m e 0 = Ok o ->
                 rule (e, t) = Ok (res o (e, t)) /\ not_bool (res o (e, t))) ->
  exists st2 fam,
    grad_block blk name_var name_con mk
      (dict_of String.eqb (map (fun x => (e_uid x, f x)) l)) rule st = Ok st2 /\
    con_comps st2 = (name_con, fam) :: con_comps st /\
    var_comps st2
    = (name_var, map (fun et => mk (fst et) (snd et)) (indexset blk))
        :: var_comps st /\
    (forall v, (forall e t, v <> mk e t) -> vars st2 v = vars st v) /\
    (forall s t, In s l -> In t (timesteps m) ->
       vars st2 (mk (e_uid s) t)
       = VarData None false true (Some 0) (Some (f s))) /\
    (forall s t o c, In s l -> O_at m (e_uid s) 0 = Ok o ->
       (In (Idx2 (e_uid s) t, c) fam
        <-> In t (timesteps m) /\ res o (e_uid s, t) = RCons c)).
Proof.
  intros Hnd Hix Hk HO Hrule.
  destruct (declare_bounded_family_ok name_var mk f l (indexset blk) st Hnd)
    as [st1 [Hdecl [Hvc [Hcc [Hframe Hvars]]]]]; [|exact Hk|].
  { intros e t Hin; rewrite Hix in Hin; apply in_prod_iff in Hin; tauto. }
  set (first_out := fun e => match O_at m e 0 with Ok o => o | Raise _ => e end).
  set (g := fun et : uid * Z => res (first_out (fst et)) et).
  assert (Hg : forall et, In et (indexset blk) ->
                          rule et = Ok (g et) /\ not_bool (g et)).
  { intros [e t] Hin; rewrite Hix in Hin; apply in_prod_iff in Hin.
    destruct Hin as [He _]; destruct (in_uids _ _ He) as [s [Hs <-]].
    destruct (HO s Hs) as [o Ho].
    unfold g, first_out; cbn [fst]; rewrite Ho; apply Hrule; exact Ho. }
  assert (Hb := build_constraint_ok (indexset blk) rule g Hg).
  eexists; eexists; split; [|split; [|split; [|split; [|split]]]].
  - unfold grad_block; rewrite Hdecl; cbn [bind]; rewrite Hb; reflexivity.
  - unfold add_con_comp; cbn [con_comps]; rewrite Hcc; reflexivity.
  - exact Hvc.
  - exact Hframe.
  - intros s t Hs Ht; apply Hvars; [exact Hs|].
    rewrite Hix; apply in_prod; [apply in_map; exact Hs | exact Ht].
  - intros s t o c Hs Ho; rewrite in_tag2, in_entries.
    unfold g, first_out; cbn [fst]; rewrite Ho, Hix.
    rewrite in_prod_iff; split.
    + intros [[_ Ht] E]; auto.
    + intros [Ht E]; split; [split; [apply in_map; exact Hs | exact Ht] | exact E].
Qed.

Lemma block_added_declared (m : model) (blk : block) (l : list entity)
  (st st2 : state) (name_var name_con : string) (mk : uid -> Z -> var)
  (f : entity -> Q) (res : uid -> uid * Z -> rule_result)
  (diff : valuation -> uid -> uid -> Z -> Q) :
  block_added m blk l st st2 name_var name_con mk f res ->
  (forall e o t, (t > 0)%Z ->
     exists c, res o (e, t) = RCons c /\
               forall rho, holds rho c <-> diff rho e o t <= rho (mk e t)) ->
  (forall e o t, (t <= 0)%Z -> res o (e, t) = RSkip) ->
  gradient_declared m blk l st2 name_var name_con mk f diff.
Proof.
  intros [fam [Hcc [Hvc [_ [Hvars Hfam]]]]] Hpos Hskip.
  exists fam; split; [|split].
  - unfold con_comp; rewrite Hcc; simpl; rewrite String.eqb_refl; reflexivity.
  - unfold var_comp; rewrite Hvc; simpl; rewrite String.eqb_refl; reflexivity.
  - intros s t o Hs Ht Ho; split; [|split].
    + rewrite (Hvars s t Hs Ht); simpl; auto.
    + intro Hgt; destruct (Hpos (e_uid s) o t Hgt) as [c [Hc Hsem]]; split.
      * exists c; apply (Hfam s t o c Hs Ho); auto.
      * intros c' rho Hin; apply (Hfam s t o c' Hs Ho) in Hin.
        destruct Hin as [_ E]; rewrite Hc in E; inversion E; subst c'.
        apply Hsem.
    + intros Hle c Hin; apply (Hfam s t o c Hs Ho) in Hin.
      destruct Hin as [_ E]; rewrite (Hskip (e_uid s) o t Hle) in E.
      discriminate.
Qed.

(** A later block with other names leaves a declared direction declared. *)
Lemma declared_preserved (m : model) (blk : block) (l : list entity)
  (st2 st3 : state) (nv nc nv' nc' : string) (mk mk' : uid -> Z -> var)
  (f : entity -> Q) (diff : valuation -> uid -> uid -> Z -> Q)
  (fam' : family) (vs' : list var) :
  gradient_declared m blk l st2 nv nc mk f diff ->
  con_comps st3 = (nc', fam') :: con_comps st2 ->
  var_comps st3 = (nv', vs') :: var_comps st2 ->
  (forall v, (forall e t, v <> mk' e t) -> vars st3 v = vars st2 v) ->
  String.eqb nc' nc = false -> String.eqb nv' nv = false ->
  (forall e t e' t', mk e t <> mk' e' t') ->
  gradient_declared m blk l st3 nv nc mk f diff.
Proof.
  intros [fam [Hc [Hv Hall]]] Hcc Hvc Hframe Hnc Hnv Hmk.
  exists fam; split; [|split].
  - unfold con_comp in *; rewrite Hcc; simpl; rewrite Hnc; exact Hc.
  - unfold var_comp in *; rewrite Hvc; simpl; rewrite Hnv; exact Hv.
  - intros s t o Hs Ht Ho.
    rewrite (Hframe (mk (e_uid s) t)) by (intros e' t'; apply Hmk).
    apply Hall; assumption.
Qed.

Lemma absent_through_block (st st2 : state) (nv nc nv' nc' : string)
  (mk mk' : uid -> Z -> var) (fam' : family) (vs' : list var) :
  con_comps st2 = (nc', fam') :: con_comps st ->
  var_comps st2 = (nv', vs') :: var_comps st ->
  (forall v, (forall e t, v <> mk' e t) -> vars st2 v = vars st v) ->
  String.eqb nc' nc = false -> String.eqb nv' nv = false ->
  (forall e t e' t', mk e t <> mk' e' t') ->
  gradient_absent st st2 nv nc mk.
Proof.
  intros Hcc Hvc Hframe Hnc Hnv Hmk; split; [|split].
  - unfold con_comp; rewrite Hcc; simpl; rewrite Hnc; reflexivity.
  - unfold var_comp; rewrite Hvc; simpl; rewrite Hnv; reflexivity.
  - intros e t; apply Hframe; intros e' t'; apply Hmk.
Qed.

Lemma grad_pos_result_sem (e o : uid) (t : Z) :
  (t > 0)%Z ->
  exists c, grad_pos_result o (e, t) = RCons c /\
            forall rho, holds rho c <-> pos_diff rho e o t <= rho (GradPos e t).
Proof.
  intro Ht; unfold grad_pos_result; cbn [fst snd].
  assert (E : (t >? 0)%Z = true) by (rewrite Z.gtb_ltb; apply Z.ltb_lt; lia).
  rewrite E; eexists; split; [reflexivity|].
  intro rho; unfold pos_diff; simpl; reflexivity.
Qed.

Lemma grad_neg_result_sem (e o : uid) (t : Z) :
  (t > 0)%Z ->
  exists c, grad_neg_result o (e, t) = RCons c /\
            forall rho, holds rho c <-> neg_diff rho e o t <= rho (GradNeg e t).
Proof.
  intro Ht; unfold grad_neg_result; cbn [fst snd].
  assert (E : (t >? 0)%Z = true) by (rewrite Z.gtb_ltb; apply Z.ltb_lt; lia).
  rewrite E; eexists; split; [reflexivity|].
  intro rho; unfold neg_diff; simpl; reflexivity.
Qed.

Lemma grad_result_skip (e o : uid) (t : Z) :
  (t <= 0)%Z ->
  grad_pos_result o (e, t) = RSkip /\ grad_neg_result o (e, t) = RSkip.
Proof.
  intro Ht; unfold grad_pos_result, grad_neg_result; cbn [fst snd].
  assert (E : (t >? 0)%Z = false) by (rewrite Z.gtb_ltb; apply Z.ltb_ge; lia).
  rewrite E; split; reflexivity.
Qed.

Lemma grad_result_not_bool (o : uid) (et : uid * Z) :
  not_bool (grad_pos_result o et) /\ not_bool (grad_neg_result o et).
Proof.
  unfold grad_pos_result, grad_neg_result.
  destruct (snd et >? 0)%Z; simpl; auto.
Qed.

Lemma grad_block_added (m : model) (blk : block) (l : list entity)
  (name_var name_con : string) (mk : uid -> Z -> var) (f : entity -> Q)
  (rule : uid * Z -> result rule_result)
  (res : uid -> uid * Z -> rule_result) (st : state) :
  NoDup (map e_uid l) ->
  indexset blk = list_prod (map e_uid l) (timesteps m) ->
  (forall e t, var_uid (mk e t) = e) ->
  (forall s, In s l -> exists o, O_at m (e_uid s) 0 = Ok o) ->
  (forall e t o, O_at m e 0 = Ok o ->
                 rule (e, t) = Ok (res o (e, t)) /\ not_bool (res o (e, t))) ->
  exists st2,
    grad_block blk name_var name_con mk
      (dict_of String.eqb (map (fun x => (e_uid x, f x)) l)) rule st = Ok st2 /\
    block_added m blk l st st2 name_var name_con mk f res.
Proof.
  intros Hnd Hix Hk HO Hrule.
  destruct (grad_block_ok m blk l name_var name_con mk f rule res st
              Hnd Hix Hk HO Hrule) as [st2 [fam [Hrun H]]].
  exists st2; split; [exact Hrun | exists fam; exact H].
Qed.

Lemma selected_iff (d a b : string) :
  String.eqb d a || String.eqb d b = true <-> d = a \/ d = b.
Proof. rewrite orb_true_iff, !String.eqb_eq; reflexivity. Qed.

Lemma not_selected (d a b : string) :
  String.eqb d a || String.eqb d b = false -> d = a \/ d = b -> False.
Proof.
  intros H H'; apply selected_iff in H'; rewrite H in H'; discriminate.
Qed.

Lemma add_output_gradient_calc_blocks (m : model) (blk : block) (d : string)
  (st : state) (l : list entity) :
  require_objs blk = Ok l ->
  add_output_gradient_calc m blk d st
  = (st1 <- (if String.eqb d "positive" || String.eqb d "both"
             then grad_block blk "grad_pos_var" "grad_pos_calc" GradPos
                    (dict_of String.eqb (map (fun o => (e_uid o, grad_pos o)) l))
                    (grad_pos_calc_rule m) st
             else Ok st) ;;
     if String.eqb d "negative" || String.eqb d "both"
     then grad_block blk "grad_neg_var" "grad_neg_calc" GradNeg
            (dict_of String.eqb (map (fun o => (e_uid o, grad_neg o)) l))
            (grad_neg_calc_rule m) st1
     else Ok st1).
Proof.
  intro H; unfold add_output_gradient_calc, grad_block; rewrite H; reflexivity.
Qed.

(** C9. For every entity of the gradient generator's subset: when the
    direction includes ['positive'], the variable [GRADPOS(e,t)] is declared
    with bounds [[0, grad_pos(e)]] and the constraint
    [W(e,out,t) - W(e,out,t-1) <= GRADPOS(e,t)] is emitted for every
    timestep [t > 0] and skipped at [t = 0] (at every [t <= 0]);
    symmetrically for ['negative'] with
    [W(e,out,t-1) - W(e,out,t) <= GRADNEG(e,t)]; and for a direction that
    is not selected neither the variable nor the constraint family is
    declared. *)
Theorem output_gradient_directions (m : model) (blk : block) (st : state)
  (l : list entity) (d : string) :
  objs blk = Some l -> l <> [] ->
  NoDup (map e_uid l) ->
  indexset blk = list_prod (map e_uid l) (timesteps m) ->
  (forall s, In s l -> exists o, O_at m (e_uid s) 0 = Ok o) ->
  exists st',
    add_output_gradient_calc m blk d st = Ok st' /\
    (d = "positive" \/ d = "both" ->
     gradient_declared m blk l st' "grad_pos_var" "grad_pos_calc" GradPos
       grad_pos pos_diff) /\
    (d = "negative" \/ d = "both" ->
     gradient_declared m blk l st' "grad_neg_var" "grad_neg_calc" GradNeg
       grad_neg neg_diff) /\
    (d <> "positive" -> d <> "both" ->
     gradient_absent st st' "grad_pos_var" "grad_pos_calc" GradPos) /\
    (d <> "negative" -> d <> "both" ->
     gradient_absent st st' "grad_neg_var" "grad_neg_calc" GradNeg).
Proof.
  intros Hobjs Hne Hnd Hix HO.
  rewrite (add_output_gradient_calc_blocks m blk d st l
             (require_objs_ok blk l Hobjs Hne)).
  assert (Hpos : forall s0, exists st2,
     grad_block blk "grad_pos_var" "grad_pos_calc" GradPos
       (dict_of String.eqb (map (fun o => (e_uid o, grad_pos o)) l))
       (grad_pos_calc_rule m) s0 = Ok st2 /\
     block_added m blk l s0 st2 "grad_pos_var" "grad_pos_calc" GradPos
       grad_pos grad_pos_result).
  { intro s0; apply grad_block_added; auto.
    intros e t o Ho; split;
      [apply grad_pos_calc_rule_ok; exact Ho | apply grad_result_not_bool]. }
  assert (Hneg : forall s0, exists st2,
     grad_block blk "grad_neg_var" "grad_neg_calc" GradNeg
       (dict_of String.eqb (map (fun o => (e_uid o, grad_neg o)) l))
       (grad_neg_calc_rule m) s0 = Ok st2 /\
     block_added m blk l s0 st2 "grad_neg_var" "grad_neg_calc" GradNeg
       grad_neg grad_neg_result).
  { intro s0; apply grad_block_added; auto.
    intros e t o Ho; split;
      [apply grad_neg_calc_rule_ok; exact Ho | apply grad_result_not_bool]. }
  assert (Dpos : forall s0 st2,
     block_added m blk l s0 st2 "grad_pos_var" "grad_pos_calc" GradPos
       grad_pos grad_pos_result ->
     gradient_declared m blk l st2 "grad_pos_var" "grad_pos_calc" GradPos
       grad_pos pos_diff).
  { intros s0 st2 H; apply (block_added_declared _ _ _ _ _ _ _ _ _ _ _ H).
    - intros e o t Ht; apply grad_pos_result_sem; exact Ht.
    - intros e o t Ht; apply grad_result_skip; exact Ht. }
  assert (Dneg : forall s0 st2,
     block_added m blk l s0 st2 "grad_neg_var" "grad_neg_calc" GradNeg
       grad_neg grad_neg_result ->
     gradient_declared m blk l st2 "grad_neg_var" "grad_neg_calc" GradNeg
       grad_neg neg_diff).
  { intros s0 st2 H; apply (block_added_declared _ _ _ _ _ _ _ _ _ _ _ H).
    - intros e o t Ht; apply grad_neg_result_sem; exact Ht.
    - intros e o t Ht; apply grad_result_skip; exact Ht. }
  destruct (String.eqb d "positive" || String.eqb d "both") eqn:Ep;
    destruct (String.eqb d "negative" || String.eqb d "both") eqn:En.
  - destruct (Hpos st) as [st1 [Hr1 Ha1]].
    destruct (Hneg st1) as [st2 [Hr2 Ha2]].
    exists st2; rewrite Hr1; cbn [bind]; rewrite Hr2.
    split; [reflexivity|split; [|split; [|split]]].
    + intros _. destruct Ha2 as [fam2 [Hcc [Hvc [Hfr _]]]].
      apply (declared_preserved m blk l st1 st2 _ _ _ _ GradPos GradNeg
               _ _ _ _ (Dpos _ _ Ha1) Hcc Hvc Hfr); try reflexivity.
      intros; discriminate.
    + intros _; apply (Dneg _ _ Ha2).
    + intros H1 H2; apply selected_iff in Ep; tauto.
    + intros H1 H2; apply selected_iff in En; tauto.
  - destruct (Hpos st) as [st1 [Hr1 Ha1]].
    exists st1; rewrite Hr1; cbn [bind].
    split; [reflexivity|split; [|split; [|split]]].
    + intros _; apply (Dpos _ _ Ha1).
    + intro H; destruct (not_selected _ _ _ En H).
    + intros H1 H2; apply selected_iff in Ep; tauto.
    + intros _ _. destruct Ha1 as [fam1 [Hcc [Hvc [Hfr _]]]].
      apply (absent_through_block st st1 _ _ _ _ GradNeg GradPos _ _
               Hcc Hvc Hfr); try reflexivity.
      intros; discriminate.
  - destruct (Hneg st) as [st2 [Hr2 Ha2]].
    exists st2; cbn [bind]; rewrite Hr2.
    split; [reflexivity|split; [|split; [|split]]].
    + intro H; destruct (not_selected _ _ _ Ep H).
    + intros _; apply (Dneg _ _ Ha2).
    + intros _ _. destruct Ha2 as [fam2 [Hcc [Hvc [Hfr _]]]].
      apply (absent_through_block st st2 _ _ _ _ GradPos GradNeg _ _
               Hcc Hvc Hfr); try reflexivity.
      intros; discriminate.
    + intros H1 H2; apply selected_iff in En; tauto.
  - exists st; cbn [bind].
    split; [reflexivity|split; [|split; [|split]]].
    + intro H; destruct (not_selected _ _ _ Ep H).
    + intro H; destruct (not_selected _ _ _ En H).
    + intros _ _; repeat split; reflexivity.
    + intros _ _; repeat split; reflexivity.
Qed.

Lemma output_gradient_directions_witness :
  exists st',
    add_output_gradient_calc Example.mdl Example.source_block "positive"
      Example.st0 = Ok st' /\
    gradient_declared Example.mdl Example.source_block [Example.wind] st'
      "grad_pos_var" "grad_pos_calc" GradPos grad_pos pos_diff /\
    gradient_absent Example.st0 st' "grad_neg_var" "grad_neg_calc" GradNeg.
Proof.
  destruct (output_gradient_directions Example.mdl Example.source_block
              Example.st0 [Example.wind] "positive")
    as [st' [Hrun [Hpos [_ [_ Hneg]]]]].
  - reflexivity.
  - discriminate.
  - nodup_uids.
  - reflexivity.
  - intros s [<-|[]]; eexists; reflexivity.
  - exists st'; split; [exact Hrun|split].
    + apply Hpos; left; reflexivity.
    + apply Hneg; discriminate.
Defined.

(* ================================================================== *)
(** ** Bus balance *)

Lemma map_r_map {A B C : Type} (f : B -> result C) (h : A -> B) (xs : list A) :
  map_r f (map h xs) = map_r (fun x => f (h x)) xs.
Proof.
  induction xs as [|x rest IH]; simpl; [reflexivity | rewrite IH; reflexivity].
Qed.

Lemma filter_map_fst {A B : Type} (p : A -> bool) (xs : list (A * B)) :
  filter p (map fst xs) = map fst (filter (fun kv => p (fst kv)) xs).
Proof.
  induction xs as [|x rest IH]; simpl; [reflexivity|].
  destruct (p (fst x)); simpl; rewrite IH; reflexivity.
Qed.

Lemma is_number_sum_terms (xs : list pyexpr) :
  (forall x, In x xs -> is_number x = false) ->
  is_number (py_sum xs) = is_empty xs.
Proof.
  intro H; rewrite is_number_py_sum.
  destruct xs as [|x rest]; [reflexivity|]; simpl.
  rewrite (H x (or_introl eq_refl)); reflexivity.
Qed.

Lemma is_empty_map {A B : Type} (f : A -> B) (xs : list A) :
  is_empty (map f xs) = is_empty xs.
Proof. destruct xs; reflexivity. Qed.

Lemma transport_items_keys (g : entity -> result Q) (ts : list entity)
  (items : list ((uid * uid) * Q)) :
  map_r (fun t => k <- transport_key t ;; v <- g t ;; Ok (k, v)) ts = Ok items ->
  map_r transport_key ts = Ok (map fst items).
Proof.
  revert items; induction ts as [|t rest IH]; simpl; intros items H.
  - inversion H; reflexivity.
  - destruct (transport_key t) as [k|]; cbn [bind] in *; [|discriminate].
    destruct (g t) as [v|]; cbn [bind] in *; [|discriminate].
    destruct (map_r _ rest) as [items'|]; cbn [bind] in *; [|discriminate].
    inversion H; subst; rewrite (IH items' eq_refl); reflexivity.
Qed.

Lemma bus_balance_rule_ok (blk : block) (bal : list entity)
  (links : list ((uid * uid) * Q)) (b : entity) (t : Z) :
  NoDup (map e_uid bal) -> In b bal -> NoDup (map fst links) ->
  exists lhs rhs,
    bus_balance_rule blk
      (dict_of String.eqb
         (map (fun x => (e_uid x, non_transport_uids (inputs x))) bal))
      (dict_of String.eqb
         (map (fun x => (e_uid x, non_transport_uids (outputs x))) bal))
      links (e_uid b, t) = Ok (py_eq lhs rhs) /\
    (forall rho, eval rho lhs == balance_lhs blk links b t rho) /\
    (forall rho, eval rho rhs == balance_rhs blk links b t rho) /\
    is_number lhs && is_number rhs = negb (bus_has_terms blk links b).
Proof.
  intros Hnd Hb Hl; unfold bus_balance_rule.
  rewrite (attr_dict_get (fun x => non_transport_uids (inputs x)) bal b Hnd Hb).
  cbn [bind]; unfold dict_keys.
  rewrite !filter_map_fst.
  rewrite map_r_map.
  rewrite (map_r_ok _
             (fun kv : (uid * uid) * Q =>
                py_mul (EVar (W (fst (fst kv)) (e_uid b) t)) (ENum (snd kv)))).
  2:{ intros [k v] Hin; apply filter_In in Hin; destruct Hin as [Hin _].
      cbn [fst snd].
      rewrite (dict_get_in pair_eqb pair_eqb_spec links k v Hl Hin).
      reflexivity. }
  cbn [bind].
  rewrite (attr_dict_get (fun x => non_transport_uids (outputs x)) bal b Hnd Hb).
  cbn [bind].
  rewrite map_map.
  fold (links_into links (e_uid b)); fold (links_from links (e_uid b)).
  eexists; eexists; split; [reflexivity|split; [|split]].
  - intro rho; unfold balance_lhs.
    destruct (mem_uid (e_uid b) (shortage_uids blk));
      rewrite ?eval_py_add, !eval_py_sum, !qsum_map; cbn [eval py_mul];
      unfold uid; ring.
  - intro rho; unfold balance_rhs.
    destruct (mem_uid (e_uid b) (excess_uids blk));
      rewrite ?eval_py_add, !eval_py_sum, !qsum_map; cbn [eval py_mul];
      unfold uid; ring.
  - unfold bus_has_terms.
    assert (H1 : is_number
              (py_sum (map (fun i => EVar (W i (e_uid b) t))
                           (non_transport_uids (inputs b))))
            = is_empty (non_transport_uids (inputs b))).
    { rewrite is_number_sum_terms, is_empty_map; [reflexivity|].
      intros x Hx; apply in_map_iff in Hx; destruct Hx as [i [<- _]]; reflexivity. }
    assert (H2 : is_number
              (py_sum (map (fun kv : (uid * uid) * Q =>
                              py_mul (EVar (W (fst (fst kv)) (e_uid b) t))
                                     (ENum (snd kv)))
                           (links_into links (e_uid b))))
            = is_empty (links_into links (e_uid b))).
    { rewrite is_number_sum_terms, is_empty_map; [reflexivity|].
      intros x Hx; apply in_map_iff in Hx; destruct Hx as [i [<- _]]; reflexivity. }
    assert (H3 : is_number
              (py_sum (map (fun o => EVar (W (e_uid b) o t))
                           (non_transport_uids (outputs b))))
            = is_empty (non_transport_uids (outputs b))).
    { rewrite is_number_sum_terms, is_empty_map; [reflexivity|].
      intros x Hx; apply in_map_iff in Hx; destruct Hx as [i [<- _]]; reflexivity. }
    assert (H4 : is_number
              (py_sum (map (fun x : (uid * uid) * Q =>
                              EVar (W (e_uid b) (snd (fst x)) t))
                           (links_from links (e_uid b))))
            = is_empty (links_from links (e_uid b))).
    { rewrite is_number_sum_terms, is_empty_map; [reflexivity|].
      intros x Hx; apply in_map_iff in Hx; destruct Hx as [i [<- _]]; reflexivity. }
    unfold uid in *.
    destruct (mem_uid (e_uid b) (shortage_uids blk));
      destruct (mem_uid (e_uid b) (excess_uids blk));
      rewrite ?is_number_py_add, ?H1, ?H2, ?H3, ?H4; clear H1 H2 H3 H4;
      repeat match goal with
             | |- context [@is_empty ?A ?x] =>
                 progress (destruct (@is_empty A x))
             end; reflexivity.
Qed.

Lemma transport_bounds_loop (m : model) (st : state)
  (bounds : list ((uid * uid) * Q)) :
  NoDup (map fst bounds) ->
  exists st1,
    for_each (list_prod (map fst bounds) (timesteps m))
      (fun s kt =>
         ub <- dict_get pair_eqb (fst kt) (dict_of pair_eqb bounds) ;;
         Ok (setub (W (fst (fst kt)) (snd (fst kt)) (snd kt)) ub s)) st
    = Ok st1 /\
    con_comps st1 = con_comps st /\
    var_comps st1 = var_comps st.
Proof.
  intro Hnd.
  set (g := fun k => match dict_get pair_eqb k (dict_of pair_eqb bounds) with
                     | Ok q => q
                     | Raise _ => 0
                     end).
  set (step := fun (s : state) (kt : (uid * uid) * Z) =>
         setub (W (fst (fst kt)) (snd (fst kt)) (snd kt)) (g (fst kt)) s).
  exists (fold_left step (list_prod (map fst bounds) (timesteps m)) st).
  split; [|split].
  - apply for_each_ok; intros s' [k t] Hin.
    apply in_prod_iff in Hin; destruct Hin as [Hk _].
    apply in_map_iff in Hk; destruct Hk as [[k' v] [E Hin]]; simpl in E; subst k'.
    unfold step, g; cbn [fst snd].
    rewrite (dict_of_nodup pair_eqb pair_eqb_spec bounds Hnd).
    rewrite (dict_get_in pair_eqb pair_eqb_spec bounds k v Hnd Hin).
    reflexivity.
  - apply fold_con_comps; intros; reflexivity.
  - apply fold_var_comps; intros; reflexivity.
Qed.

Lemma in_balanced (l : list entity) (e : uid) :
  In e (map e_uid (filter balanced l)) ->
  exists b, In b l /\ balanced b = true /\ e_uid b = e.
Proof.
  intro H; apply in_map_iff in H; destruct H as [b [E Hb]].
  apply filter_In in Hb; destruct Hb as [Hb Hbal]; exists b; auto.
Qed.

(** C1. For every bus of the subset with [balanced = true] and every
    timestep the bus balance generator emits exactly one constraint, an
    equality whose left side is the sum of the non-transport inflows plus
    the inflows over the transport links that end at the bus, each times
    the link's efficiency, plus the shortage slack when the bus allows
    shortage, and whose right side is the sum of the non-transport outflows
    plus the outflows over the transport links that start at the bus, plus
    the excess slack when the bus allows excess. *)
Theorem bus_balance_equation (m : model) (blk : block) (st : state)
  (l : list entity) (links bounds : list ((uid * uid) * Q)) :
  objs blk = Some l -> l <> [] ->
  map_r transport_eta_item (transports m) = Ok links ->
  map_r transport_max_item (transports m) = Ok bounds ->
  NoDup (map fst links) ->
  NoDup (map e_uid (filter balanced l)) ->
  (forall b, In b l -> balanced b = true -> bus_has_terms blk links b = true) ->
  exists st' fam,
    add_bus_balance m blk st = Ok st' /\
    con_comp "balance" st' = Some fam /\
    map fst fam
    = map idx2 (list_prod (map e_uid (filter balanced l)) (timesteps m)) /\
    (forall b t c rho,
       In b l -> balanced b = true -> In (Idx2 (e_uid b) t, c) fam ->
       (holds rho c <->
        balance_lhs blk links b t rho == balance_rhs blk links b t rho)).
Proof.
  intros Hobjs Hne Hlinks Hbounds Hndl Hndb Hterms.
  assert (Hk1 := transport_items_keys
                   (fun t => getitem (eta t) (KInt 0)) _ _ Hlinks).
  assert (Hk2 := transport_items_keys
                   (fun t => getitem (out_max t) (KInt 0)) _ _ Hbounds).
  assert (Hkeys : map fst bounds = map fst links).
  { rewrite Hk1 in Hk2; inversion Hk2; reflexivity. }
  assert (Hndbd : NoDup (map fst bounds)) by (rewrite Hkeys; exact Hndl).
  destruct (transport_bounds_loop m st bounds Hndbd) as [st1 [Hloop _]].
  set (bal := filter balanced l) in *.
  set (rule := bus_balance_rule blk
      (dict_of String.eqb
         (map (fun x => (e_uid x, non_transport_uids (inputs x))) bal))
      (dict_of String.eqb
         (map (fun x => (e_uid x, non_transport_uids (outputs x))) bal))
      links).
  assert (Hrule : forall b t, In b l -> balanced b = true ->
            exists c, rule (e_uid b, t) = Ok (RCons c) /\
                      forall rho, holds rho c <->
                        balance_lhs blk links b t rho
                        == balance_rhs blk links b t rho).
  { intros b t Hb Hbal.
    assert (Hin : In b bal) by (apply filter_In; auto).
    destruct (bus_balance_rule_ok blk bal links b t Hndb Hin Hndl)
      as [lhs [rhs [Hr [Hl [Hrh Hnum]]]]].
    rewrite (Hterms b Hb Hbal) in Hnum; cbn [negb] in Hnum.
    exists (CEq lhs rhs); split.
    - unfold rule; rewrite Hr, (py_eq_cons lhs rhs Hnum); reflexivity.
    - intro rho; cbn [holds]; rewrite Hl, Hrh; reflexivity. }
  destruct (build_total (list_prod (map e_uid bal) (timesteps m)) rule)
    as [fam [Hfam [Hfst Hfin]]].
  { intros [e t] Het; apply in_prod_iff in Het; destruct Het as [He _].
    destruct (in_balanced l e He) as [b [Hb [Hbal <-]]].
    destruct (Hrule b t Hb Hbal) as [c [Hc _]]; exists c; exact Hc. }
  exists (add_con_comp "balance" (tag2 fam) st1), (tag2 fam).
  split; [|split; [reflexivity|split]].
  - unfold add_bus_balance.
    rewrite (require_objs_ok blk l Hobjs Hne); cbn [bind].
    rewrite Hlinks; cbn [bind]; rewrite Hbounds; cbn [bind].
    rewrite Hk2; cbn [bind]; rewrite Hloop; cbn [bind].
    rewrite (dict_of_nodup pair_eqb pair_eqb_spec links Hndl).
    fold bal; fold rule; rewrite Hfam; reflexivity.
  - rewrite tag2_fst', Hfst; reflexivity.
  - intros b t c rho Hb Hbal Hin.
    apply in_tag2 in Hin; apply Hfin in Hin.
    destruct (Hrule b t Hb Hbal) as [c' [Hc' Hsem]].
    rewrite Hc' in Hin; inversion Hin; subst c'; apply Hsem.
Qed.

Lemma bus_balance_equation_witness :
  exists st' fam,
    add_bus_balance Example.mdl Example.bus_block Example.st0 = Ok st' /\
    con_comp "balance" st' = Some fam /\
    map fst fam
    = [Idx2 "bel" 0; Idx2 "bel" 1; Idx2 "bel" 2;
       Idx2 "bel2" 0; Idx2 "bel2" 1; Idx2 "bel2" 2] /\
    (forall c rho,
       In (Idx2 "bel2" 0, c) fam ->
       (holds rho c <->
        balance_lhs Example.bus_block [(("bel", "bel2"), 9 # 10)]
          Example.bel2 0 rho
        == balance_rhs Example.bus_block [(("bel", "bel2"), 9 # 10)]
             Example.bel2 0 rho)).
Proof.
  destruct (bus_balance_equation Example.mdl Example.bus_block Example.st0
              [Example.bel; Example.bgas; Example.bel2]
              [(("bel", "bel2"), 9 # 10)] [(("bel", "bel2"), 500)])
    as [st' [fam [Hrun [Hfam [Hfst Hsem]]]]].
  - reflexivity.
  - discriminate.
  - reflexivity.
  - reflexivity.
  - nodup_uids.
  - nodup_uids.
  - intros b [<-|[<-|[<-|[]]]] Hbal; try reflexivity; discriminate Hbal.
  - exists st', fam; split; [exact Hrun|split; [exact Hfam|split; [exact Hfst|]]].
    intros c rho Hin.
    apply (Hsem Example.bel2 0%Z c rho); [simpl; auto | reflexivity | exact Hin].
Defined.

Lemma require_objs_inv (blk : block) (l l' : list entity) :
  objs blk = Some l -> require_objs blk = Ok l' -> l' = l.
Proof.
  intros H H'; unfold require_objs in H'; rewrite H in H'.
  destruct l; inversion H'; reflexivity.
Qed.

Lemma filter_balanced_skip (pre post : list entity) (b : entity) :
  balanced b = false ->
  filter balanced (pre ++ b :: post) = filter balanced (pre ++ post).
Proof.
  intro H; rewrite !filter_app; simpl; rewrite H; reflexivity.
Qed.

(** C10. A bus of the subset whose [balanced] attribute is not true gets no
    balance constraint, and it changes nothing else: the generator does
    (returns or raises) exactly what it does on the subset without that
    bus, as long as other buses remain. *)
Theorem bus_balance_skips_unbalanced (m : model) (blk : block) (st : state)
  (l : list entity) (b : entity) :
  objs blk = Some l -> In b l -> balanced b = false ->
  (forall b', In b' l -> balanced b' = true -> e_uid b' <> e_uid b) ->
  (forall st' fam t c,
     add_bus_balance m blk st = Ok st' ->
     con_comp "balance" st' = Some fam ->
     ~ In (Idx2 (e_uid b) t, c) fam) /\
  (forall pre post,
     l = pre ++ b :: post -> pre ++ post <> [] ->
     add_bus_balance m blk st
     = add_bus_balance m (with_objs blk (pre ++ post)) st).
Proof.
  intros Hobjs Hb Hbal Huniq; split.
  - intros st' fam t c Hrun Hfam Hin.
    unfold add_bus_balance in Hrun.
    apply bind_ok in Hrun; destruct Hrun as [l' [Hl' Hrun]].
    apply (require_objs_inv blk l l' Hobjs) in Hl'; subst l'.
    apply bind_ok in Hrun; destruct Hrun as [eta_items [_ Hrun]].
    apply bind_ok in Hrun; destruct Hrun as [max_items [_ Hrun]].
    apply bind_ok in Hrun; destruct Hrun as [tuples [_ Hrun]].
    apply bind_ok in Hrun; destruct Hrun as [st1 [_ Hrun]].
    apply bind_ok in Hrun; destruct Hrun as [fam0 [Hbuild Hrun]].
    inversion Hrun; subst st'.
    rewrite con_comp_add in Hfam; inversion Hfam; subst fam.
    apply in_tag2 in Hin.
    destruct (build_constraint_in _ _ _ _ _ Hbuild Hin) as [Hix _].
    apply in_prod_iff in Hix; destruct Hix as [He _].
    destruct (in_balanced l _ He) as [b' [Hb' [Hbal' E]]].
    apply (Huniq b' Hb' Hbal' E).
  - intros pre post Hl Hrest.
    assert (Hne : l <> []) by (subst l; destruct pre; discriminate).
    unfold add_bus_balance.
    rewrite (require_objs_ok blk l Hobjs Hne).
    rewrite (require_objs_ok (with_objs blk (pre ++ post)) (pre ++ post)
               eq_refl Hrest).
    cbn [bind]; subst l; rewrite (filter_balanced_skip pre post b Hbal).
    reflexivity.
Qed.

Lemma bus_balance_skips_unbalanced_witness :
  (forall st' fam t c,
     add_bus_balance Example.mdl Example.bus_block Example.st0 = Ok st' ->
     con_comp "balance" st' = Some fam ->
     ~ In (Idx2 "bgas" t, c) fam) /\
  add_bus_balance Example.mdl Example.bus_block Example.st0
  = add_bus_balance Example.mdl
      (with_objs Example.bus_block [Example.bel; Example.bel2]) Example.st0.
Proof.
  destruct (bus_balance_skips_unbalanced Example.mdl Example.bus_block
              Example.st0 [Example.bel; Example.bgas; Example.bel2]
              Example.bgas) as [H1 H2].
  - reflexivity.
  - simpl; auto.
  - reflexivity.
  - intros b' [<-|[<-|[<-|[]]]] Hbal; try discriminate; discriminate Hbal.
  - split; [exact H1|].
    apply (H2 [Example.bel] [Example.bel2]); [reflexivity | discriminate].
Defined.

(* ================================================================== *)
(** ** Global output limit *)

Lemma qsum_concat {A : Type} (f : A -> Q) (xss : list (list A)) :
  qsum f (concat xss) == qsum (fun xs => qsum f xs) xss.
Proof.
  induction xss as [|xs rest IH]; simpl; [reflexivity|].
  rewrite qsum_app, IH; reflexivity.
Qed.

Lemma is_empty_concat_map {A B C : Type} (f : A -> B -> C) (outs : list B)
  (ts : list A) :
  is_empty (concat (map (fun t => map (f t) outs) ts))
  = is_empty outs || is_empty ts.
Proof.
  destruct outs as [|o outs].
  - simpl; induction ts as [|t rest IH]; simpl; [reflexivity | exact IH].
  - destruct ts; reflexivity.
Qed.

Lemma limit_O_items (l : list entity) :
  (forall x, In x l -> exists os, code_limit_outputs x = Ok os) ->
  map_r (fun obj => os <- map_r output_uid (outputs obj) ;;
                    Ok (e_uid obj, os)) l
  = Ok (map (fun x => (e_uid x, outputs_or_nil x)) l).
Proof.
  intro H; apply map_r_ok; intros x Hx.
  destruct (H x Hx) as [os Hos]; unfold outputs_or_nil; rewrite Hos.
  unfold code_limit_outputs in Hos; rewrite Hos; reflexivity.
Qed.

Lemma output_limit_rule_ok (m : model) (l : list entity) (obj : entity)
  (outs : list uid) :
  NoDup (map e_uid l) -> In obj l ->
  code_limit_outputs obj = Ok outs ->
  exists r,
    output_limit_rule m
      (dict_of String.eqb (map (fun o => (e_uid o, sum_out_limit o)) l))
      (dict_of String.eqb (map (fun x => (e_uid x, outputs_or_nil x)) l))
      (e_uid obj) = Ok r /\
    not_bool r /\
    match sum_out_limit obj with
    | PosInf => r = RSkip
    | Finite q =>
        if is_empty outs || is_empty (timesteps m) then r = RSkip
        else exists c, r = RCons c /\
               forall rho, holds rho c <->
                 limit_sum rho (e_uid obj) outs (timesteps m) <= q
    end.
Proof.
  intros Hnd Hobj Houts; unfold output_limit_rule.
  assert (Hon : outputs_or_nil obj = outs).
  { unfold outputs_or_nil; rewrite Houts; reflexivity. }
  rewrite (map_r_ok _ (fun t => map (fun o => EVar (W (e_uid obj) o t)) outs)).
  2:{ intros t _.
      rewrite (attr_dict_get outputs_or_nil l obj Hnd Hobj), Hon; reflexivity. }
  cbn [bind].
  rewrite (attr_dict_get sum_out_limit l obj Hnd Hobj); cbn [bind].
  destruct (sum_out_limit obj) as [q|].
  2:{ exists RSkip; simpl; auto. }
  set (s := py_sum (concat (map (fun t => map (fun o => EVar (W (e_uid obj) o t)) outs)
                                (timesteps m)))).
  assert (Hs : is_number s = is_empty outs || is_empty (timesteps m)).
  { unfold s; rewrite is_number_sum_terms.
    - apply (is_empty_concat_map (fun t o => EVar (W (e_uid obj) o t))).
    - intros x Hx; apply in_concat in Hx; destruct Hx as [xs [Hxs Hx]].
      apply in_map_iff in Hxs; destruct Hxs as [t [<- _]].
      apply in_map_iff in Hx; destruct Hx as [o [<- _]]; reflexivity. }
  rewrite is_number_py_sub, Hs; cbn [is_number]; rewrite andb_true_r.
  destruct (is_empty outs || is_empty (timesteps m)) eqn:E.
  - exists RSkip; simpl; auto.
  - assert (Hle : py_le (py_sub s (ENum q)) (ENum 0)
                  = RCons (CLe (py_sub s (ENum q)) (ENum 0))).
    { apply py_le_cons; rewrite is_number_py_sub, Hs; reflexivity. }
    rewrite Hle; eexists; split; [reflexivity|split; [exact I|]].
    eexists; split; [reflexivity|].
    intro rho; cbn [holds eval]; rewrite eval_py_sub; cbn [eval].
    assert (Hev : eval rho s == limit_sum rho (e_uid obj) outs (timesteps m)).
    { unfold s, limit_sum; rewrite eval_py_sum, qsum_concat, qsum_map.
      apply qsum_ext; intros t _; rewrite qsum_map; reflexivity. }
    rewrite Hev; split; intro H; lra.
Qed.

(** C5, amended. For every entity of the global-output-limit subset the
    generator emits [sum over all timesteps t and all outputs o of
    W(e,o',t) <= sum_out_limit(e)], where [o'] is the uid of the output
    [o], or, when [o] is a transport, the uid of the transport's first
    output; the constraint is skipped exactly when that sum has no term
    (it is a plain number) or the limit is [+infinity]. *)
Theorem global_output_limit_emitted (m : model) (blk : block) (st : state)
  (l : list entity) :
  objs blk = Some l -> l <> [] ->
  NoDup (map e_uid l) ->
  uids blk = map e_uid l ->
  (forall x, In x l -> exists os, code_limit_outputs x = Ok os) ->
  exists st' fam,
    add_global_output_limit m blk st = Ok st' /\
    con_comp "global_limit" st' = Some fam /\
    vars st' = vars st /\
    (forall obj outs,
       In obj l -> code_limit_outputs obj = Ok outs ->
       limit_emitted m fam obj outs).
Proof.
  intros Hobjs Hne Hnd Hu Hall.
  set (rule := output_limit_rule m
      (dict_of String.eqb (map (fun o => (e_uid o, sum_out_limit o)) l))
      (dict_of String.eqb (map (fun x => (e_uid x, outputs_or_nil x)) l))).
  set (g := fun e => match rule e with Ok r => r | Raise _ => RSkip end).
  assert (Hg : forall e, In e (uids blk) -> rule e = Ok (g e) /\ not_bool (g e)).
  { intros e He; rewrite Hu in He; destruct (in_uids _ _ He) as [obj [Hobj <-]].
    destruct (Hall obj Hobj) as [outs Houts].
    destruct (output_limit_rule_ok m l obj outs Hnd Hobj Houts) as [r [Hr [Hnb _]]].
    unfold g, rule; rewrite Hr; auto. }
  assert (Hb := build_constraint_ok (uids blk) rule g Hg).
  eexists; eexists; split; [|split; [|split]].
  - unfold add_global_output_limit.
    rewrite (require_objs_ok blk l Hobjs Hne); cbn [bind].
    rewrite (limit_O_items l Hall); cbn [bind].
    fold rule; rewrite Hb; reflexivity.
  - apply con_comp_add.
  - reflexivity.
  - intros obj outs Hobj Houts.
    destruct (output_limit_rule_ok m l obj outs Hnd Hobj Houts) as [r [Hr [_ Hres]]].
    assert (Hge : g (e_uid obj) = r) by (unfold g, rule; rewrite Hr; reflexivity).
    assert (Hin : In (e_uid obj) (uids blk)) by (rewrite Hu; apply in_map; exact Hobj).
    assert (Hmem : forall c,
              In (Idx1 (e_uid obj), c)
                 (tag1 (flat_map (fun i => entry_of i (g i)) (uids blk)))
              <-> r = RCons c).
    { intro c; rewrite in_tag1, in_entries, Hge; tauto. }
    unfold limit_emitted; destruct (sum_out_limit obj) as [q|].
    + destruct (is_empty outs || is_empty (timesteps m)).
      * intros c Hc; apply Hmem in Hc; rewrite Hres in Hc; discriminate.
      * destruct Hres as [c0 [Hc0 Hsem]]; split.
        -- exists c0; apply Hmem; exact Hc0.
        -- intros c rho Hc; apply Hmem in Hc; rewrite Hc0 in Hc.
           inversion Hc; subst c; apply Hsem.
    + intros c Hc; apply Hmem in Hc; rewrite Hres in Hc; discriminate.
Qed.

Lemma global_output_limit_emitted_witness :
  exists st' fam,
    add_global_output_limit Example.mdl Example.feeder_block Example.st0
    = Ok st' /\
    con_comp "global_limit" st' = Some fam /\
    limit_emitted Example.mdl fam Example.feeder ["bel2"].
Proof.
  destruct (global_output_limit_emitted Example.mdl Example.feeder_block
              Example.st0 [Example.feeder])
    as [st' [fam [Hrun [Hfam [_ Hsem]]]]].
  - reflexivity.
  - discriminate.
  - nodup_uids.
  - reflexivity.
  - intros x [<-|[]]; eexists; reflexivity.
  - exists st', fam; split; [exact Hrun|split; [exact Hfam|]].
    apply Hsem; [left; reflexivity | reflexivity].
Defined.

(** C5, as stated, fails: the only output of the example feeder is a
    transport, so the sum over its non-transport outputs is a plain number
    and the claim has the constraint skipped; the generator emits one, on
    the flow towards the transport's destination. *)
Lemma output_limit_counts_transport_outputs :
  exists st' fam,
    add_global_output_limit Example.mdl Example.feeder_block Example.st0
    = Ok st' /\
    con_comp "global_limit" st' = Some fam /\
    spec_limit_outputs Example.feeder = [] /\
    ~ limit_emitted Example.mdl fam Example.feeder
        (spec_limit_outputs Example.feeder).
Proof.
  eexists; eexists; split; [reflexivity|split; [reflexivity|split; [reflexivity|]]].
  unfold limit_emitted; simpl.
  intro H; eapply H; left; reflexivity.
Qed.

(* ================================================================== *)
(** * Further properties of the generators *)

(** ** Families over the block's index set *)

(** A family built over [block.indexset = uids x timesteps] by a rule that
    succeeds with a relation for every entity of the subset: one entry per
    index, each with the meaning [sem] the rule establishes. *)
Lemma indexed_family (m : model) (blk : block) (l : list entity)
  (rule : uid * Z -> result rule_result)
  (sem : entity -> Z -> constraint -> Prop) :
  indexset blk = list_prod (map e_uid l) (timesteps m) ->
  (forall s t, In s l ->
     exists c, rule (e_uid s, t) = Ok (RCons c) /\ sem s t c) ->
  exists fam,
    build_constraint (indexset blk) rule = Ok fam /\
    map fst (tag2 fam) = map idx2 (indexset blk) /\
    (forall s t c, In s l -> In (Idx2 (e_uid s) t, c) (tag2 fam) -> sem s t c).
Proof.
  intros Hix Hrule.
  destruct (build_total (indexset blk) rule) as [fam [Hfam [Hfst Hfin]]].
  { intros [e t] Het; rewrite Hix in Het.
    apply in_prod_iff in Het; destruct Het as [He _].
    destruct (in_uids _ _ He) as [s [Hs <-]].
    destruct (Hrule s t Hs) as [c [Hc _]]; exists c; exact Hc. }
  exists fam; split; [exact Hfam|split].
  - rewrite tag2_fst', Hfst; reflexivity.
  - intros s t c Hs Hin; apply in_tag2 in Hin; apply Hfin in Hin.
    destruct (Hrule s t Hs) as [c' [Hc' Hsem]].
    rewrite Hc' in Hin; inversion Hin; subst c'; exact Hsem.
Qed.

(** ** Transformer relations *)

(** [add_simple_io_relation]: for every transformer of the subset and every
    timestep exactly one equality meaning
    [W(I(e),e,t) * eta(e)[idx] == W(e,O(e)[idx],t)] joins the family
    [io_relation]; the variable space is not touched. *)
Theorem simple_io_relation_emitted (m : model) (blk : block) (idx : nat)
  (st : state) (l : list entity) :
  objs blk = Some l -> l <> [] ->
  NoDup (map e_uid l) ->
  indexset blk = list_prod (map e_uid l) (timesteps m) ->
  (forall s, In s l ->
     (exists i, I_of m (e_uid s) = Ok i) /\
     (exists o, O_at m (e_uid s) idx = Ok o) /\
     (exists q, getitem (eta s) (KInt (Z.of_nat idx)) = Ok q)) ->
  exists fam,
    add_simple_io_relation m blk idx st
    = Ok (add_con_comp "io_relation" fam st) /\
    map fst fam = map idx2 (indexset blk) /\
    (forall s t c i o q rho,
       In s l -> In (Idx2 (e_uid s) t, c) fam ->
       I_of m (e_uid s) = Ok i -> O_at m (e_uid s) idx = Ok o ->
       getitem (eta s) (KInt (Z.of_nat idx)) = Ok q ->
       (holds rho c <->
        rho (W i (e_uid s) t) * q == rho (W (e_uid s) o t))).
Proof.
  intros Hobjs Hne Hnd Hix Hwf.
  destruct (indexed_family m blk l
              (io_rule m (dict_of String.eqb (map (fun o => (e_uid o, eta o)) l)) idx)
              (fun s t c => forall i o q rho,
                 I_of m (e_uid s) = Ok i -> O_at m (e_uid s) idx = Ok o ->
                 getitem (eta s) (KInt (Z.of_nat idx)) = Ok q ->
                 (holds rho c <->
                  rho (W i (e_uid s) t) * q == rho (W (e_uid s) o t))) Hix)
    as [fam [Hfam [Hfst Hsem]]].
  { intros s t Hs; destruct (Hwf s Hs) as [[i HI] [[o HO] [q Hq]]].
    unfold io_rule; rewrite HI; cbn [bind].
    rewrite (attr_dict_get eta l s Hnd Hs); cbn [bind].
    rewrite Hq; cbn [bind]; rewrite HO; cbn [bind].
    eexists; split; [reflexivity|].
    intros i' o' q' rho Hi' Ho' Hq'.
    inversion Hi'; inversion Ho'; inversion Hq'; subst.
    cbn [holds eval py_sub py_mul]; split; intro H; lra. }
  exists (tag2 fam); split; [|split; [exact Hfst|]].
  - unfold add_simple_io_relation.
    rewrite (require_objs_ok blk l Hobjs Hne); cbn [bind].
    rewrite Hfam; reflexivity.
  - intros s t c i o q rho Hs Hin; apply (Hsem s t c Hs Hin).
Qed.

Lemma simple_io_relation_emitted_witness :
  exists fam,
    add_simple_io_relation Plant.mdl Plant.pp_block 0 Example.st0
    = Ok (add_con_comp "io_relation" fam Example.st0) /\
    map fst fam = [Idx2 "pp_gas" 0; Idx2 "pp_gas" 1] /\
    (forall c rho,
       In (Idx2 "pp_gas" 1, c) fam ->
       (holds rho c <->
        rho (W "bgas" "pp_gas" 1) * (29 # 50) == rho (W "pp_gas" "bel" 1))).
Proof.
  destruct (simple_io_relation_emitted Plant.mdl Plant.pp_block 0 Example.st0
              [Plant.pp_gas]) as [fam [Hrun [Hfst Hsem]]].
  - reflexivity.
  - discriminate.
  - nodup_uids.
  - reflexivity.
  - intros s [<-|[]]; repeat split; eexists; reflexivity.
  - exists fam; split; [exact Hrun|split; [exact Hfst|]].
    intros c rho Hin.
    apply (Hsem Plant.pp_gas 1%Z c "bgas" "bel" (29 # 50) rho);
      [left; reflexivity | exact Hin | reflexivity | reflexivity | reflexivity].
Defined.

Lemma qeq_bool_nonzero (q : Q) : ~ q == 0 -> Qeq_bool q 0 = false.
Proof.
  intro H; destruct (Qeq_bool q 0) eqn:E; [|reflexivity].
  apply Qeq_bool_iff in E; contradiction.
Qed.

(** [add_eta_total_chp_relation]: for every unit of the subset and every
    timestep exactly one equality meaning
    [W(I(e),e,t) * eta_total(e) == W(e,O(e)[0],t) + W(e,O(e)[1],t)] joins
    the family [ioo_relation]; the variable space is not touched. *)
Theorem eta_total_chp_relation_emitted (m : model) (blk : block)
  (st : state) (l : list entity) :
  objs blk = Some l -> l <> [] ->
  NoDup (map e_uid l) ->
  indexset blk = list_prod (map e_uid l) (timesteps m) ->
  (forall s, In s l ->
     (exists i, I_of m (e_uid s) = Ok i) /\
     (exists o0, O_at m (e_uid s) 0 = Ok o0) /\
     (exists o1, O_at m (e_uid s) 1 = Ok o1)) ->
  exists fam,
    add_eta_total_chp_relation m blk st
    = Ok (add_con_comp "ioo_relation" fam st) /\
    map fst fam = map idx2 (indexset blk) /\
    (forall s t c i o0 o1 rho,
       In s l -> In (Idx2 (e_uid s) t, c) fam ->
       I_of m (e_uid s) = Ok i ->
       O_at m (e_uid s) 0 = Ok o0 -> O_at m (e_uid s) 1 = Ok o1 ->
       (holds rho c <->
        rho (W i (e_uid s) t) * eta_total s
        == rho (W (e_uid s) o0 t) + rho (W (e_uid s) o1 t))).
Proof.
  intros Hobjs Hne Hnd Hix Hwf.
  destruct (indexed_family m blk l
              (ioo_rule m (dict_of String.eqb
                             (map (fun o => (e_uid o, eta_total o)) l)))
              (fun s t c => forall i o0 o1 rho,
                 I_of m (e_uid s) = Ok i ->
                 O_at m (e_uid s) 0 = Ok o0 -> O_at m (e_uid s) 1 = Ok o1 ->
                 (holds rho c <->
                  rho (W i (e_uid s) t) * eta_total s
                  == rho (W (e_uid s) o0 t) + rho (W (e_uid s) o1 t))) Hix)
    as [fam [Hfam [Hfst Hsem]]].
  { intros s t Hs; destruct (Hwf s Hs) as [[i HI] [[o0 HO0] [o1 HO1]]].
    unfold ioo_rule; rewrite HI; cbn [bind].
    rewrite (attr_dict_get eta_total l s Hnd Hs); cbn [bind].
    rewrite HO0; cbn [bind]; rewrite HO1; cbn [bind].
    eexists; split; [reflexivity|].
    intros i' o0' o1' rho Hi' H0' H1'.
    inversion Hi'; inversion H0'; inversion H1'; subst.
    cbn [holds eval py_add py_mul]; reflexivity. }
  exists (tag2 fam); split; [|split; [exact Hfst|]].
  - unfold add_eta_total_chp_relation.
    rewrite (require_objs_ok blk l Hobjs Hne); cbn [bind].
    rewrite Hfam; reflexivity.
  - intros s t c i o0 o1 rho Hs Hin; apply (Hsem s t c Hs Hin).
Qed.

Lemma eta_total_chp_relation_emitted_witness :
  exists fam,
    add_eta_total_chp_relation Plant.mdl Plant.chp_block Example.st0
    = Ok (add_con_comp "ioo_relation" fam Example.st0) /\
    (forall c rho,
       In (Idx2 "chp" 0, c) fam ->
       (holds rho c <->
        rho (W "bgas" "chp" 0) * (4 # 5)
        == rho (W "chp" "bel" 0) + rho (W "chp" "bth" 0))).
Proof.
  destruct (eta_total_chp_relation_emitted Plant.mdl Plant.chp_block
              Example.st0 [Plant.chp]) as [fam [Hrun [_ Hsem]]].
  - reflexivity.
  - discriminate.
  - nodup_uids.
  - reflexivity.
  - intros s [<-|[]]; repeat split; eexists; reflexivity.
  - exists fam; split; [exact Hrun|].
    intros c rho Hin.
    apply (Hsem Plant.chp 0%Z c "bgas" "bel" "bth" rho);
      [left; reflexivity | exact Hin | reflexivity | reflexivity | reflexivity].
Defined.

(** [add_simple_chp_relation]: for every unit of the subset and every
    timestep exactly one equality meaning
    [W(e,O(e)[0],t) / eta(e)[0] == W(e,O(e)[1],t) / eta(e)[1]] joins the
    family [pth_relation], provided both efficiencies are not zero. *)
Theorem simple_chp_relation_emitted (m : model) (blk : block)
  (st : state) (l : list entity) :
  objs blk = Some l -> l <> [] ->
  NoDup (map e_uid l) ->
  indexset blk = list_prod (map e_uid l) (timesteps m) ->
  (forall s, In s l ->
     (exists o0, O_at m (e_uid s) 0 = Ok o0) /\
     (exists o1, O_at m (e_uid s) 1 = Ok o1) /\
     (exists q0, getitem (eta s) (KInt 0) = Ok q0 /\ ~ q0 == 0) /\
     (exists q1, getitem (eta s) (KInt 1) = Ok q1 /\ ~ q1 == 0)) ->
  exists fam,
    add_simple_chp_relation m blk st
    = Ok (add_con_comp "pth_relation" fam st) /\
    map fst fam = map idx2 (indexset blk) /\
    (forall s t c o0 o1 q0 q1 rho,
       In s l -> In (Idx2 (e_uid s) t, c) fam ->
       O_at m (e_uid s) 0 = Ok o0 -> O_at m (e_uid s) 1 = Ok o1 ->
       getitem (eta s) (KInt 0) = Ok q0 ->
       getitem (eta s) (KInt 1) = Ok q1 ->
       (holds rho c <->
        rho (W (e_uid s) o0 t) / q0 == rho (W (e_uid s) o1 t) / q1)).
Proof.
  intros Hobjs Hne Hnd Hix Hwf.
  destruct (indexed_family m blk l
              (simple_chp_rule m (dict_of String.eqb
                                    (map (fun o => (e_uid o, eta o)) l)))
              (fun s t c => forall o0 o1 q0 q1 rho,
                 O_at m (e_uid s) 0 = Ok o0 -> O_at m (e_uid s) 1 = Ok o1 ->
                 getitem (eta s) (KInt 0) = Ok q0 ->
                 getitem (eta s) (KInt 1) = Ok q1 ->
                 (holds rho c <->
                  rho (W (e_uid s) o0 t) / q0
                  == rho (W (e_uid s) o1 t) / q1)) Hix)
    as [fam [Hfam [Hfst Hsem]]].
  { intros s t Hs.
    destruct (Hwf s Hs) as [[o0 HO0] [[o1 HO1] [[q0 [Hq0 Hz0]] [q1 [Hq1 Hz1]]]]].
    unfold simple_chp_rule; rewrite HO0; cbn [bind].
    rewrite !(attr_dict_get eta l s Hnd Hs); cbn [bind].
    rewrite Hq0; cbn [bind]; unfold py_div.
    rewrite (qeq_bool_nonzero q0 Hz0); cbn [bind].
    rewrite HO1; cbn [bind]; rewrite Hq1; cbn [bind py_neg].
    rewrite (qeq_bool_nonzero q1 Hz1); cbn [bind].
    eexists; split; [reflexivity|].
    intros o0' o1' q0' q1' rho H0' H1' Hq0' Hq1'.
    inversion H0'; inversion H1'; inversion Hq0'; inversion Hq1'; subst.
    cbn [holds eval py_add]; unfold Qdiv; split; intro H; lra. }
  exists (tag2 fam); split; [|split; [exact Hfst|]].
  - unfold add_simple_chp_relation.
    rewrite (require_objs_ok blk l Hobjs Hne); cbn [bind].
    rewrite Hfam; reflexivity.
  - intros s t c o0 o1 q0 q1 rho Hs Hin; apply (Hsem s t c Hs Hin).
Qed.

Lemma simple_chp_relation_emitted_witness :
  exists fam,
    add_simple_chp_relation Plant.mdl Plant.chp_block Example.st0
    = Ok (add_con_comp "pth_relation" fam Example.st0) /\
    (forall c rho,
       In (Idx2 "chp" 0, c) fam ->
       (holds rho c <->
        rho (W "chp" "bel" 0) / (3 # 10) == rho (W "chp" "bth" 0) / (1 # 2))).
Proof.
  destruct (simple_chp_relation_emitted Plant.mdl Plant.chp_block
              Example.st0 [Plant.chp]) as [fam [Hrun [_ Hsem]]].
  - reflexivity.
  - discriminate.
  - nodup_uids.
  - reflexivity.
  - intros s [<-|[]]; split; [eexists; reflexivity|].
    split; [eexists; reflexivity|].
    split; eexists; (split; [reflexivity | intro H; discriminate H]).
  - exists fam; split; [exact Hrun|].
    intros c rho Hin.
    apply (Hsem Plant.chp 0%Z c "bel" "bth" (3 # 10) (1 # 2) rho);
      [left; reflexivity | exact Hin | reflexivity | reflexivity
       | reflexivity | reflexivity].
Defined.

(** [add_simple_extraction_chp_relation]: for every unit of the subset and
    every timestep the family [equivalent_output] holds exactly one equality
    meaning [W(I(e),e,t) == (W(e,O(e)[0],t) + beta(e) * W(e,O(e)[1],t)) /
    eta_el_cond(e)] and the family [pth_relation] exactly one inequality
    meaning [W(e,O(e)[0],t) <= sigma(e) * W(e,O(e)[1],t)], provided
    [eta_el_cond(e)] is not zero. *)
Theorem extraction_chp_relation_emitted (m : model) (blk : block)
  (st : state) (l : list entity) :
  objs blk = Some l -> l <> [] ->
  NoDup (map e_uid l) ->
  indexset blk = list_prod (map e_uid l) (timesteps m) ->
  (forall s, In s l ->
     (exists i, I_of m (e_uid s) = Ok i) /\
     (exists o0, O_at m (e_uid s) 0 = Ok o0) /\
     (exists o1, O_at m (e_uid s) 1 = Ok o1) /\
     ~ eta_el_cond s == 0) ->
  exists eqv pth,
    add_simple_extraction_chp_relation m blk st
    = Ok (add_con_comp "pth_relation" pth
            (add_con_comp "equivalent_output" eqv st)) /\
    map fst eqv = map idx2 (indexset blk) /\
    map fst pth = map idx2 (indexset blk) /\
    (forall s t c i o0 o1 rho,
       In s l -> In (Idx2 (e_uid s) t, c) eqv ->
       I_of m (e_uid s) = Ok i ->
       O_at m (e_uid s) 0 = Ok o0 -> O_at m (e_uid s) 1 = Ok o1 ->
       (holds rho c <->
        rho (W i (e_uid s) t)
        == (rho (W (e_uid s) o0 t) + beta s * rho (W (e_uid s) o1 t))
           / eta_el_cond s)) /\
    (forall s t c o0 o1 rho,
       In s l -> In (Idx2 (e_uid s) t, c) pth ->
       O_at m (e_uid s) 0 = Ok o0 -> O_at m (e_uid s) 1 = Ok o1 ->
       (holds rho c <->
        rho (W (e_uid s) o0 t) <= sigma s * rho (W (e_uid s) o1 t))).
Proof.
  intros Hobjs Hne Hnd Hix Hwf.
  destruct (indexed_family m blk l
              (equivalent_output_rule m
                 (dict_of String.eqb (map (fun o => (e_uid o, beta o)) l))
                 (dict_of String.eqb (map (fun o => (e_uid o, eta_el_cond o)) l)))
              (fun s t c => forall i o0 o1 rho,
                 I_of m (e_uid s) = Ok i ->
                 O_at m (e_uid s) 0 = Ok o0 -> O_at m (e_uid s) 1 = Ok o1 ->
                 (holds rho c <->
                  rho (W i (e_uid s) t)
                  == (rho (W (e_uid s) o0 t) + beta s * rho (W (e_uid s) o1 t))
                     / eta_el_cond s)) Hix)
    as [eqv [Heqv [Hefst Hesem]]].
  { intros s t Hs; destruct (Hwf s Hs) as [[i HI] [[o0 HO0] [[o1 HO1] Hz]]].
    unfold equivalent_output_rule; rewrite HI; cbn [bind].
    rewrite HO0; cbn [bind].
    rewrite (attr_dict_get beta l s Hnd Hs); cbn [bind].
    rewrite HO1; cbn [bind].
    rewrite (attr_dict_get eta_el_cond l s Hnd Hs); cbn [bind].
    unfold py_div; rewrite (qeq_bool_nonzero _ Hz); cbn [py_add py_mul bind].
    eexists; split; [reflexivity|].
    intros i' o0' o1' rho Hi' H0' H1'.
    inversion Hi'; inversion H0'; inversion H1'; subst.
    cbn [holds eval]; reflexivity. }
  destruct (indexed_family m blk l
              (power_heat_rule m
                 (dict_of String.eqb (map (fun o => (e_uid o, sigma o)) l)))
              (fun s t c => forall o0 o1 rho,
                 O_at m (e_uid s) 0 = Ok o0 -> O_at m (e_uid s) 1 = Ok o1 ->
                 (holds rho c <->
                  rho (W (e_uid s) o0 t)
                  <= sigma s * rho (W (e_uid s) o1 t))) Hix)
    as [pth [Hpth [Hpfst Hpsem]]].
  { intros s t Hs; destruct (Hwf s Hs) as [_ [[o0 HO0] [[o1 HO1] _]]].
    unfold power_heat_rule; rewrite HO0; cbn [bind].
    rewrite (attr_dict_get sigma l s Hnd Hs); cbn [bind].
    rewrite HO1; cbn [bind].
    eexists; split; [reflexivity|].
    intros o0' o1' rho H0' H1'; inversion H0'; inversion H1'; subst.
    cbn [holds eval py_mul]; reflexivity. }
  exists (tag2 eqv), (tag2 pth).
  split; [|split; [exact Hefst|split; [exact Hpfst|split]]].
  - unfold add_simple_extraction_chp_relation.
    rewrite (require_objs_ok blk l Hobjs Hne); cbn [bind].
    rewrite Heqv; cbn [bind]; rewrite Hpth; reflexivity.
  - intros s t c i o0 o1 rho Hs Hin; apply (Hesem s t c Hs Hin).
  - intros s t c o0 o1 rho Hs Hin; apply (Hpsem s t c Hs Hin).
Qed.

Lemma extraction_chp_relation_emitted_witness :
  exists eqv pth,
    add_simple_extraction_chp_relation Plant.mdl Plant.chp_block Example.st0
    = Ok (add_con_comp "pth_relation" pth
            (add_con_comp "equivalent_output" eqv Example.st0)) /\
    (forall c rho,
       In (Idx2 "chp" 1, c) pth ->
       (holds rho c <->
        rho (W "chp" "bel" 1) <= (3 # 5) * rho (W "chp" "bth" 1))).
Proof.
  destruct (extraction_chp_relation_emitted Plant.mdl Plant.chp_block
              Example.st0 [Plant.chp]) as [eqv [pth [Hrun [_ [_ [_ Hsem]]]]]].
  - reflexivity.
  - discriminate.
  - nodup_uids.
  - reflexivity.
  - intros s [<-|[]]; split; [eexists; reflexivity|].
    split; [eexists; reflexivity|].
    split; [eexists; reflexivity | intro H; discriminate H].
  - exists eqv, pth; split; [exact Hrun|].
    intros c rho Hin.
    apply (Hsem Plant.chp 1%Z c "bel" "bth" rho);
      [left; reflexivity | exact Hin | reflexivity | reflexivity].
Defined.

(** ** Errors and what the generators leave alone *)

Lemma guarded_generators_raise_witness :
  add_bus_balance Example.mdl (Block None [] [] false [] []) Example.st0
  = Raise ValueError /\
  add_output_gradient_calc Example.mdl (Block (Some []) [] [] false [] [])
    "both" Example.st0 = Raise ValueError.
Proof.
  split.
  - apply (guarded_generators_raise Example.mdl (Block None [] [] false [] [])
             Example.st0 0 "both"); left; reflexivity.
  - apply (guarded_generators_raise Example.mdl
             (Block (Some []) [] [] false [] []) Example.st0 0 "both");
      right; reflexivity.
Defined.

(** [add_output_gradient_calc] with a direction other than ['positive'],
    ['negative'] and ['both'] (a misspelt one, say) declares nothing and
    raises nothing: it returns the state it was given. *)
Theorem output_gradient_unknown_direction (m : model) (blk : block)
  (st : state) (l : list entity) (d : string) :
  objs blk = Some l -> l <> [] ->
  d <> "positive" -> d <> "negative" -> d <> "both" ->
  add_output_gradient_calc m blk d st = Ok st.
Proof.
  intros Hobjs Hne Hp Hn Hb.
  rewrite (add_output_gradient_calc_blocks m blk d st l
             (require_objs_ok blk l Hobjs Hne)).
  apply String.eqb_neq in Hp, Hn, Hb; rewrite Hp, Hn, Hb; reflexivity.
Qed.

Lemma output_gradient_unknown_direction_witness :
  add_output_gradient_calc Example.mdl Example.source_block "postive"
    Example.st0 = Ok Example.st0.
Proof.
  apply (output_gradient_unknown_direction Example.mdl Example.source_block
           Example.st0 [Example.wind] "postive");
    [reflexivity | discriminate | discriminate | discriminate | discriminate].
Defined.

Lemma map_r_ok_inv {A B : Type} (f : A -> result B) (xs : list A)
  (ys : list B) (x : A) :
  map_r f xs = Ok ys -> In x xs -> exists y, f x = Ok y.
Proof.
  revert ys; induction xs as [|a rest IH]; simpl; intros ys H Hin;
    [contradiction|].
  destruct (f a) as [y|] eqn:Ea; cbn [bind] in H; [|discriminate].
  destruct (map_r f rest) as [ys'|]; cbn [bind] in H; [|discriminate].
  destruct Hin as [<-|Hin]; [exists y; exact Ea | apply (IH ys' eq_refl Hin)].
Qed.

(** [add_bus_balance] reads [inputs[0]] and [outputs[0]] of every transport
    of [model.components]: a transport without an input or without an
    output makes the generator raise, whatever the bus subset is; no
    balance is built. *)
Theorem bus_balance_needs_transport_ends (m : model) (blk : block)
  (st : state) (tr : entity) :
  In tr (components m) -> is_transport tr = true ->
  inputs tr = [] \/ outputs tr = [] ->
  exists e, add_bus_balance m blk st = Raise e.
Proof.
  intros Hin Htr Hends.
  destruct (add_bus_balance m blk st) as [st'|e] eqn:Hrun;
    [|exists e; reflexivity].
  exfalso; unfold add_bus_balance in Hrun.
  apply bind_ok in Hrun; destruct Hrun as [l [_ Hrun]].
  apply bind_ok in Hrun; destruct Hrun as [items [Hitems _]].
  assert (Ht : In tr (transports m)) by (apply filter_In; auto).
  destruct (map_r_ok_inv _ _ _ tr Hitems Ht) as [y Hy].
  unfold transport_eta_item, transport_key, list_item in Hy.
  destruct Hends as [E|E]; rewrite E in Hy; simpl in Hy.
  - discriminate.
  - destruct (inputs tr); simpl in Hy; discriminate.
Qed.

Lemma bus_balance_needs_transport_ends_witness :
  exists e,
    add_bus_balance
      (Model [Example.stub "cable" Transport] [0%Z] [] [])
      Example.bus_block Example.st0 = Raise e.
Proof.
  apply (bus_balance_needs_transport_ends _ _ _ (Example.stub "cable" Transport));
    [left; reflexivity | reflexivity | left; reflexivity].
Defined.

(** The generators that only build constraints never touch the variable
    space: values, fixed flags, domains and bounds of all variables and the
    declared variable components are what they were. *)
Theorem constraint_generators_keep_variables (m : model) (blk : block)
  (st st' : state) (idx : nat) :
  add_simple_io_relation m blk idx st = Ok st' \/
  add_eta_total_chp_relation m blk st = Ok st' \/
  add_simple_chp_relation m blk st = Ok st' \/
  add_simple_extraction_chp_relation m blk st = Ok st' \/
  add_global_output_limit m blk st = Ok st' \/
  add_storage_charge_discharge_limits m blk st = Ok st' ->
  vars st' = vars st /\ var_comps st' = var_comps st.
Proof.
  unfold add_simple_io_relation, add_eta_total_chp_relation,
    add_simple_chp_relation, add_simple_extraction_chp_relation,
    add_global_output_limit, add_storage_charge_discharge_limits.
  intros [H|[H|[H|[H|[H|H]]]]];
    repeat (apply bind_ok in H; destruct H as [? [_ H]]);
    inversion H; split; reflexivity.
Qed.

Lemma constraint_generators_keep_variables_witness :
  exists st',
    add_simple_io_relation Plant.mdl Plant.pp_block 0 Example.st0 = Ok st' /\
    vars st' = vars Example.st0.
Proof.
  eexists; split; [reflexivity|].
  eapply (constraint_generators_keep_variables Plant.mdl Plant.pp_block
            Example.st0 _ 0).
  left; reflexivity.
Defined.

(** A property of the state that every successful pass of a loop body
    keeps holds after the loop. *)
Lemma for_each_invariant {A : Type} (xs : list A)
  (body : state -> A -> result state) (P : state -> Prop) (st st' : state) :
  P st ->
  (forall s x s', In x xs -> P s -> body s x = Ok s' -> P s') ->
  for_each xs body st = Ok st' -> P st'.
Proof.
  revert st; induction xs as [|x rest IH]; simpl; intros st H0 Hstep Hrun.
  - inversion Hrun; subst; exact H0.
  - apply bind_ok in Hrun; destruct Hrun as [s1 [Hb Hrun]].
    apply (IH s1); [| |exact Hrun].
    + apply (Hstep st x s1); auto.
    + intros s y s' Hy; apply Hstep; right; exact Hy.
Qed.

(** [setub] changes the upper bound and nothing else. *)
Lemma setub_keeps (v v' : var) (q : Q) (s : state) :
  v_value (vars (setub v q s) v') = v_value (vars s v') /\
  v_fixed (vars (setub v q s) v') = v_fixed (vars s v') /\
  v_nonneg (vars (setub v q s) v') = v_nonneg (vars s v') /\
  v_lb (vars (setub v q s) v') = v_lb (vars s v').
Proof.
  unfold setub, upd_var; simpl.
  destruct (var_eq_dec v' v); simpl; auto.
Qed.

(** Setting a value and fixing change neither domain nor bounds. *)
Lemma fix_set_keeps (v v' : var) (q : Q) (s : state) :
  v_nonneg (vars (fix_var v (set_value v q s)) v') = v_nonneg (vars s v') /\
  v_lb (vars (fix_var v (set_value v q s)) v') = v_lb (vars s v') /\
  v_ub (vars (fix_var v (set_value v q s)) v') = v_ub (vars s v').
Proof.
  unfold fix_var, set_value, upd_var; simpl.
  destruct (var_eq_dec v' v); simpl; auto.
Qed.

(** [add_bus_balance] and the variable space: the upper bound of the flow
    over every transport link is set to the link's [out_max[0]] at every
    timestep; no value, fixed flag, domain or lower bound changes; the
    variables that are not flows over a transport link are untouched; no
    variable component is declared. *)
Theorem bus_balance_bounds_transports (m : model) (blk : block)
  (st st' : state) (bounds : list ((uid * uid) * Q)) :
  map_r transport_max_item (transports m) = Ok bounds ->
  NoDup (map fst bounds) ->
  add_bus_balance m blk st = Ok st' ->
  (forall k q t, In (k, q) bounds -> In t (timesteps m) ->
     v_ub (vars st' (W (fst k) (snd k) t)) = Some q) /\
  (forall v,
     v_value (vars st' v) = v_value (vars st v) /\
     v_fixed (vars st' v) = v_fixed (vars st v) /\
     v_nonneg (vars st' v) = v_nonneg (vars st v) /\
     v_lb (vars st' v) = v_lb (vars st v)) /\
  (forall v,
     (forall k q t, In (k, q) bounds -> In t (timesteps m) ->
                    v <> W (fst k) (snd k) t) ->
     vars st' v = vars st v) /\
  var_comps st' = var_comps st.
Proof.
  intros Hbounds Hnd Hrun.
  unfold add_bus_balance in Hrun.
  apply bind_ok in Hrun; destruct Hrun as [l [_ Hrun]].
  apply bind_ok in Hrun; destruct Hrun as [eta_items [_ Hrun]].
  apply bind_ok in Hrun; destruct Hrun as [max_items [Hmax Hrun]].
  rewrite Hbounds in Hmax; inversion Hmax; subst max_items; clear Hmax.
  apply bind_ok in Hrun; destruct Hrun as [tuples [Htuples Hrun]].
  rewrite (transport_items_keys (fun t => getitem (out_max t) (KInt 0))
             _ _ Hbounds) in Htuples.
  inversion Htuples; subst tuples; clear Htuples.
  apply bind_ok in Hrun; destruct Hrun as [st1 [Hloop Hrun]].
  apply bind_ok in Hrun; destruct Hrun as [fam [_ Hrun]].
  inversion Hrun; subst st'; unfold add_con_comp; cbn [vars var_comps].
  rewrite (dict_of_nodup pair_eqb pair_eqb_spec bounds Hnd) in Hloop.
  set (g := fun k => match dict_get pair_eqb k bounds with
                     | Ok q => q
                     | Raise _ => 0
                     end).
  set (step := fun (s : state) (kt : (uid * uid) * Z) =>
         setub (W (fst (fst kt)) (snd (fst kt)) (snd kt)) (g (fst kt)) s).
  assert (Hfold : st1 = fold_left step
                          (list_prod (map fst bounds) (timesteps m)) st).
  { rewrite (for_each_ok _ _ step) in Hloop; [inversion Hloop; reflexivity|].
    intros s' [k t] Hin; apply in_prod_iff in Hin; destruct Hin as [Hk _].
    apply in_map_iff in Hk; destruct Hk as [[k' v] [E Hin]]; simpl in E; subst k'.
    unfold step, g; cbn [fst snd].
    rewrite (dict_get_in pair_eqb pair_eqb_spec bounds k v Hnd Hin).
    reflexivity. }
  subst st1; split; [|split; [|split]].
  - intros k q t Hk Ht.
    assert (Hg : g k = q).
    { unfold g; rewrite (dict_get_in pair_eqb pair_eqb_spec bounds k q Hnd Hk).
      reflexivity. }
    rewrite <- Hg; destruct k as [k1 k2]; cbn [fst snd].
    refine (fold_writes step
              (fun kt => W (fst (fst kt)) (snd (fst kt)) (snd kt))
              (fun x d => match x with
                          | W e1 e2 _ => v_ub d = Some (g (e1, e2))
                          | _ => True
                          end) _ st _ _ (W k1 k2 t) _).
    + intros s x v' Hne; unfold step; apply vars_setub_other; exact Hne.
    + intros s x; unfold step; rewrite vars_setub_same; cbn [v_ub].
      destruct (fst x); reflexivity.
    + apply in_map_iff; exists ((k1, k2), t); split; [reflexivity|].
      apply in_prod; [|exact Ht].
      apply (in_map fst bounds ((k1, k2), q)); exact Hk.
  - intro v.
    generalize (list_prod (map fst bounds) (timesteps m)) as xs.
    intro xs; induction xs as [|x xs IH] using rev_ind; [auto|].
    rewrite fold_left_app; cbn [fold_left]; unfold step at 1 3 5 7.
    destruct (setub_keeps (W (fst (fst x)) (snd (fst x)) (snd x)) v
                (g (fst x)) (fold_left step xs st)) as [H1 [H2 [H3 H4]]].
    destruct IH as [I1 [I2 [I3 I4]]].
    rewrite H1, H2, H3, H4; auto.
  - intros v Hv.
    apply (fold_frame step
             (fun kt => W (fst (fst kt)) (snd (fst kt)) (snd kt))).
    + intros s x v' Hne; unfold step; apply vars_setub_other; exact Hne.
    + intro Hin; apply in_map_iff in Hin; destruct Hin as [[k t] [E Hin]].
      apply in_prod_iff in Hin; destruct Hin as [Hk Ht].
      apply in_map_iff in Hk; destruct Hk as [[k' q] [E' Hk]].
      simpl in E'; subst k'.
      apply (Hv k q t Hk Ht); symmetry; exact E.
  - apply fold_var_comps; intros; reflexivity.
Qed.

Lemma bus_balance_bounds_transports_witness :
  exists st',
    add_bus_balance Example.mdl Example.bus_block Example.st0 = Ok st' /\
    v_ub (vars st' (W "bel" "bel2" 2)) = Some 500 /\
    vars st' (W "wind" "bel" 2) = vars Example.st0 (W "wind" "bel" 2).
Proof.
  assert (Hex : exists st',
             add_bus_balance Example.mdl Example.bus_block Example.st0 = Ok st')
    by (eexists; reflexivity).
  destruct Hex as [st' Hrun]; exists st'; split; [exact Hrun|].
  destruct (bus_balance_bounds_transports Example.mdl Example.bus_block
              Example.st0 st' [(("bel", "bel2"), 500)])
    as [Hub [_ [Hframe _]]]; [reflexivity | nodup_uids | exact Hrun |].
  split.
  - apply (Hub ("bel", "bel2") 500 2%Z); simpl; auto.
  - apply Hframe; intros k q t [E|[]] _; inversion E; subst; discriminate.
Defined.

(** ** Fixed sources in investment mode *)




(** ** Missing entries *)

Lemma build_constraint_ok_inv {I : Type} (ix : list I)
  (rule : I -> result rule_result) (fam : list (I * constraint)) (i : I) :
  build_constraint ix rule = Ok fam -> In i ix -> exists r, rule i = Ok r.
Proof.
  revert fam; induction ix as [|j rest IH]; simpl; intros fam H Hin;
    [contradiction|].
  destruct (rule j) as [r|] eqn:Hr; cbn [bind] in H; [|discriminate].
  destruct Hin as [<-|Hin]; [exists r; exact Hr|].
  destruct r as [|c|b]; [| |discriminate].
  - apply (IH fam H Hin).
  - destruct (build_constraint rest rule) as [fam'|] eqn:Hb;
      cbn [bind] in H; [|discriminate].
    apply (IH fam' eq_refl Hin).
Qed.

Lemma dict_set_keys {K V : Type} (eqb : K -> K -> bool) (k k' : K) (v : V)
  (d : dict K V) :
  In k' (map fst (dict_set eqb k v d)) -> k' = k \/ In k' (map fst d).
Proof.
  induction d as [|[k0 v0] d IH]; simpl.
  - intros [E|[]]; auto.
  - destruct (eqb k0 k); simpl; intros [E|H]; auto.
    destruct (IH H); auto.
Qed.

Lemma dict_of_keys {K V : Type} (eqb : K -> K -> bool) (kvs : list (K * V))
  (k : K) :
  In k (map fst (dict_of eqb kvs)) -> In k (map fst kvs).
Proof.
  unfold dict_of.
  assert (H : forall acc,
            In k (map fst (fold_left
                             (fun d kv => dict_set eqb (fst kv) (snd kv) d)
                             kvs acc)) ->
            In k (map fst acc) \/ In k (map fst kvs)).
  { induction kvs as [|[k0 v0] kvs IH]; simpl; intros acc Hin; [auto|].
    destruct (IH _ Hin) as [Hacc|Hrest]; [|auto].
    destruct (dict_set_keys eqb k0 k v0 acc Hacc); auto. }
  intro Hin; destruct (H [] Hin) as [[]|Hk]; exact Hk.
Qed.

Lemma dict_get_key {K V : Type} (eqb : K -> K -> bool) (d : dict K V)
  (k : K) (v : V) :
  (forall a b, eqb a b = true -> a = b) ->
  dict_get eqb k d = Ok v -> In k (map fst d).
Proof.
  intro Hspec; induction d as [|[k0 v0] d IH]; simpl; intro H; [discriminate|].
  destruct (eqb k0 k) eqn:E; [left; apply Hspec; exact E | right; auto].
Qed.

(** [add_simple_io_relation] returns only if every index [(e, t)] of
    [block.indexset] names an entity of [block.objs] that has an entry in
    [model.I] and an output number [idx] in [model.O]: an index outside the
    subset or a missing entry makes the generator raise. *)
Theorem simple_io_relation_needs_lookups (m : model) (blk : block)
  (idx : nat) (st st' : state) (l : list entity) :
  objs blk = Some l ->
  add_simple_io_relation m blk idx st = Ok st' ->
  forall e t, In (e, t) (indexset blk) ->
    In e (map e_uid l) /\
    (exists i, I_of m e = Ok i) /\
    (exists o, O_at m e idx = Ok o).
Proof.
  intros Hobjs Hrun e t Hin.
  unfold add_simple_io_relation in Hrun.
  apply bind_ok in Hrun; destruct Hrun as [l' [Hl' Hrun]].
  apply (require_objs_inv blk l l' Hobjs) in Hl'; subst l'.
  apply bind_ok in Hrun; destruct Hrun as [fam [Hbuild _]].
  destruct (build_constraint_ok_inv _ _ _ _ Hbuild Hin) as [r Hr].
  unfold io_rule in Hr.
  apply bind_ok in Hr; destruct Hr as [i [Hi Hr]].
  apply bind_ok in Hr; destruct Hr as [es [Hes Hr]].
  apply bind_ok in Hr; destruct Hr as [c [_ Hr]].
  apply bind_ok in Hr; destruct Hr as [o [Ho _]].
  split; [|split; [exists i; exact Hi | exists o; exact Ho]].
  apply (dict_get_key String.eqb) in Hes;
    [|intros a b; apply String.eqb_eq].
  apply dict_of_keys in Hes; rewrite map_map in Hes; exact Hes.
Qed.

Lemma simple_io_relation_needs_lookups_witness :
  exists st',
    add_simple_io_relation Plant.mdl Plant.pp_block 0 Example.st0 = Ok st' /\
    In "pp_gas" (map e_uid [Plant.pp_gas]) /\
    (exists i, I_of Plant.mdl "pp_gas" = Ok i).
Proof.
  assert (Hex : exists st',
             add_simple_io_relation Plant.mdl Plant.pp_block 0 Example.st0
             = Ok st') by (eexists; reflexivity).
  destruct Hex as [st' Hrun]; exists st'; split; [exact Hrun|].
  destruct (simple_io_relation_needs_lookups Plant.mdl Plant.pp_block 0
              Example.st0 st' [Plant.pp_gas] eq_refl Hrun "pp_gas" 0%Z)
    as [H1 [H2 _]]; [left; reflexivity|].
  split; [exact H1 | exact H2].
Defined.

(** ** The storage cycle *)

(** Over a horizon [0, 1, ..., n-1] a loss-free storage ends where it
    started: the last capacity is fixed to [cap_initial] and the first
    transition starts from [cap_initial], so in every solution the net
    charge [W(in,e,t) * eta_in - W(e,out,t) / eta_out] summed over the
    horizon is zero. *)
Theorem storage_cycle_closed (m : model) (blk : block) (st : state)
  (l : list entity) (s : entity) (i o : uid) (n : nat) :
  objs blk = Some l -> l <> [] ->
  NoDup (map e_uid l) ->
  uids blk = map e_uid l ->
  indexset blk = list_prod (uids blk) (timesteps m) ->
  timesteps m = map Z.of_nat (seq 0 n) -> (0 < n)%nat ->
  (forall x, In x l ->
     ~ eta_out x == 0 /\
     (exists i', I_of m (e_uid x) = Ok i') /\
     (exists o', O_at m (e_uid x) 0 = Ok o')) ->
  In s l -> I_of m (e_uid s) = Ok i -> O_at m (e_uid s) 0 = Ok o ->
  cap_loss s == 0 ->
  exists st',
    add_storage_balance m blk st = Ok st' /\
    forall rho,
      solution st' rho ->
      qsum (fun t => rho (W i (e_uid s) t) * eta_in s
                     - rho (W (e_uid s) o t) / eta_out s)
           (timesteps m) == 0.
Proof.
  intros Hobjs Hne Hnd Hu Hix Hts Hn Hwf Hs HI HO Hloss.
  destruct (fix_last_cap_ok m blk st l Hnd Hu) as [st1 [Hfix [_ Hcap]]].
  set (rule := storage_balance_rule m
      (dict_of String.eqb (map (fun x => (e_uid x, cap_initial x)) l))
      (dict_of String.eqb (map (fun x => (e_uid x, cap_loss x)) l))
      (dict_of String.eqb (map (fun x => (e_uid x, eta_in x)) l))
      (dict_of String.eqb (map (fun x => (e_uid x, eta_out x)) l))).
  destruct (build_total (indexset blk) rule) as [fam [Hfam [Hfst Hfin]]].
  { intros [e t] Het; rewrite Hix, Hu in Het.
    apply in_prod_iff in Het; destruct Het as [He _].
    destruct (in_uids _ _ He) as [x [Hx <-]].
    destruct (Hwf x Hx) as [Heta [[i' HI'] [o' HO']]].
    destruct (storage_balance_rule_ok m l x t i' o' Hnd Hx HI' HO' Heta)
      as [c [Hc _]].
    exists c; exact Hc. }
  exists (add_con_comp "balance" (tag2 fam) st1); split.
  { unfold add_storage_balance.
    rewrite (require_objs_ok blk l Hobjs Hne); cbn [bind].
    rewrite Hfix; cbn [bind]; fold rule; rewrite Hfam; reflexivity. }
  intros rho [Hcons Hresp].
  destruct (Hwf s Hs) as [Heta _].
  set (d := fun t => rho (W i (e_uid s) t) * eta_in s
                     - rho (W (e_uid s) o t) / eta_out s).
  assert (Hsem : forall t, In t (timesteps m) ->
            (t = 0%Z -> rho (Cap (e_uid s) 0) == cap_initial s + d 0%Z) /\
            ((t > 0)%Z ->
             rho (Cap (e_uid s) t) == rho (Cap (e_uid s) (t - 1)) + d t)).
  { intros t Ht.
    assert (Hi : In (e_uid s, t) (map fst fam)).
    { rewrite Hfst, Hix, Hu; apply in_prod; [apply in_map; exact Hs | exact Ht]. }
    apply in_map_iff in Hi; destruct Hi as [[et c] [E Hin]]; simpl in E; subst et.
    assert (Hh : holds rho c).
    { apply (Hcons "balance" (tag2 fam) (Idx2 (e_uid s) t) c);
        [left; reflexivity | apply in_tag2; exact Hin]. }
    apply Hfin in Hin.
    destruct (storage_balance_rule_ok m l s t i o Hnd Hs HI HO Heta)
      as [c' [Hc' Hboth]].
    unfold rule in Hin; rewrite Hc' in Hin; inversion Hin; subst c'.
    destruct (Hboth rho) as [H0 Hpos]; split.
    - intro E; apply (H0 E) in Hh; unfold d; rewrite Hh; ring.
    - intro E; apply (Hpos E) in Hh; unfold d; rewrite Hh, Hloss; ring. }
  assert (Hmem : forall k, (k < n)%nat -> In (Z.of_nat k) (timesteps m)).
  { intros k Hk; rewrite Hts; apply in_map, in_seq; lia. }
  assert (Hind : forall k, (k < n)%nat ->
            rho (Cap (e_uid s) (Z.of_nat k))
            == cap_initial s + qsum d (map Z.of_nat (seq 0 (S k)))).
  { induction k as [|k IH]; intro Hk.
    - destruct (Hsem 0%Z (Hmem 0%nat Hk)) as [H0 _].
      simpl; rewrite (H0 eq_refl); ring.
    - destruct (Hsem (Z.of_nat (S k)) (Hmem (S k) Hk)) as [_ Hpos].
      rewrite Hpos by lia.
      replace (Z.of_nat (S k) - 1)%Z with (Z.of_nat k) by lia.
      rewrite IH by lia.
      rewrite (seq_S (S k) 0), map_app, qsum_app; simpl; ring. }
  destruct n as [|n']; [lia|].
  assert (Hlast : t_last m = Z.of_nat n').
  { unfold t_last; rewrite Hts, length_map, length_seq; lia. }
  destruct (Hcap s Hs) as [Hfixed Hval]; rewrite Hlast in Hfixed, Hval.
  destruct (Hresp (Cap (e_uid s) (Z.of_nat n'))) as [Hf _].
  unfold add_con_comp in Hf; cbn [vars] in Hf.
  assert (Hend := Hf Hfixed _ Hval).
  rewrite (Hind n') in Hend by lia.
  rewrite Hts; fold d; lra.
Qed.

Lemma storage_cycle_closed_witness :
  exists st',
    add_storage_balance Example.mdl Example.storage_block Example.st0
    = Ok st' /\
    forall rho,
      solution st' rho ->
      qsum (fun t => rho (W "bel" "sto_simple" t) * 1
                     - rho (W "sto_simple" "bel" t) / (4 # 5))
           [0; 1; 2]%Z == 0.
Proof.
  apply (storage_cycle_closed Example.mdl Example.storage_block Example.st0
           [Example.storage] Example.storage "bel" "bel" 3).
  - reflexivity.
  - discriminate.
  - nodup_uids.
  - reflexivity.
  - reflexivity.
  - reflexivity.
  - lia.
  - intros x [<-|[]]; split; [intro H; discriminate H|].
    split; eexists; reflexivity.
  - left; reflexivity.
  - reflexivity.
  - reflexivity.
  - reflexivity.
Defined.

(** ** Ramp limits *)

Lemma lookup_comp_in {A : Type} (name : string) (l : list (string * A))
  (a : A) :
  lookup_comp name l = Some a -> In (name, a) l.
Proof.
  induction l as [|[n x] rest IH]; simpl; intro H; [discriminate|].
  destruct (String.eqb n name) eqn:E.
  - apply String.eqb_eq in E; inversion H; subst; left; reflexivity.
  - right; apply IH; exact H.
Qed.

(** In a solution a declared gradient direction bounds the flow
    difference by the entity's gradient limit. *)
Lemma gradient_declared_bound (m : model) (blk : block) (l : list entity)
  (st' : state) (nv nc : string) (mk : uid -> Z -> var) (gmax : entity -> Q)
  (diff : valuation -> uid -> uid -> Z -> Q) (rho : valuation)
  (s : entity) (t : Z) (o : uid) :
  gradient_declared m blk l st' nv nc mk gmax diff ->
  solution st' rho ->
  In s l -> In t (timesteps m) -> O_at m (e_uid s) 0 = Ok o -> (t > 0)%Z ->
  diff rho (e_uid s) o t <= gmax s.
Proof.
  intros [fam [Hc [_ Hall]]] [Hcons Hresp] Hs Ht Ho Hgt.
  destruct (Hall s t o Hs Ht Ho) as [[_ [_ Hub]] [Hpos _]].
  destruct (Hpos Hgt) as [[c Hin] Hsem].
  assert (Hh : holds rho c).
  { apply (Hcons nc fam (Idx2 (e_uid s) t) c); [|exact Hin].
    apply lookup_comp_in; exact Hc. }
  apply (Hsem c rho Hin) in Hh.
  destruct (Hresp (mk (e_uid s) t)) as [_ [_ [_ Hu]]].
  apply (Qle_trans _ _ _ Hh), Hu; exact Hub.
Qed.

(** [add_output_gradient_calc] with direction ['both'] limits the ramp of
    the first output in both directions: in every solution, for every
    entity of the subset and every timestep [t > 0],
    [- grad_neg(e) <= W(e,out,t) - W(e,out,t-1) <= grad_pos(e)]. *)
Theorem output_gradient_ramp_limits (m : model) (blk : block) (st : state)
  (l : list entity) :
  objs blk = Some l -> l <> [] ->
  NoDup (map e_uid l) ->
  indexset blk = list_prod (map e_uid l) (timesteps m) ->
  (forall s, In s l -> exists o, O_at m (e_uid s) 0 = Ok o) ->
  exists st',
    add_output_gradient_calc m blk "both" st = Ok st' /\
    forall rho s t o,
      solution st' rho ->
      In s l -> In t (timesteps m) -> (t > 0)%Z ->
      O_at m (e_uid s) 0 = Ok o ->
      - grad_neg s <= rho (W (e_uid s) o t) - rho (W (e_uid s) o (t - 1))
      /\ rho (W (e_uid s) o t) - rho (W (e_uid s) o (t - 1)) <= grad_pos s.
Proof.
  intros Hobjs Hne Hnd Hix HO.
  rewrite (add_output_gradient_calc_blocks m blk "both" st l
             (require_objs_ok blk l Hobjs Hne)).
  cbn [String.eqb Ascii.eqb Bool.eqb orb andb].
  destruct (grad_block_added m blk l "grad_pos_var" "grad_pos_calc" GradPos
              grad_pos (grad_pos_calc_rule m) grad_pos_result st Hnd Hix)
    as [st1 [Hr1 Ha1]]; [reflexivity | exact HO | |].
  { intros e t o Ho; split;
      [apply grad_pos_calc_rule_ok; exact Ho | apply grad_result_not_bool]. }
  destruct (grad_block_added m blk l "grad_neg_var" "grad_neg_calc" GradNeg
              grad_neg (grad_neg_calc_rule m) grad_neg_result st1 Hnd Hix)
    as [st2 [Hr2 Ha2]]; [reflexivity | exact HO | |].
  { intros e t o Ho; split;
      [apply grad_neg_calc_rule_ok; exact Ho | apply grad_result_not_bool]. }
  exists st2; rewrite Hr1; cbn [bind]; rewrite Hr2; split; [reflexivity|].
  assert (Dneg : gradient_declared m blk l st2 "grad_neg_var" "grad_neg_calc"
                   GradNeg grad_neg neg_diff).
  { apply (block_added_declared _ _ _ _ _ _ _ _ _ _ _ Ha2).
    - intros e o t Ht; apply grad_neg_result_sem; exact Ht.
    - intros e o t Ht; apply grad_result_skip; exact Ht. }
  assert (Dpos : gradient_declared m blk l st2 "grad_pos_var" "grad_pos_calc"
                   GradPos grad_pos pos_diff).
  { destruct Ha2 as [fam2 [Hcc [Hvc [Hfr _]]]].
    apply (declared_preserved m blk l st1 st2 _ _ _ _ GradPos GradNeg
             _ _ _ _ (block_added_declared _ _ _ _ _ _ _ _ _ _ _ Ha1
                        (fun e o t Ht => grad_pos_result_sem e o t Ht)
                        (fun e o t Ht => proj1 (grad_result_skip e o t Ht)))
             Hcc Hvc Hfr); try reflexivity.
    intros; discriminate. }
  intros rho s t o Hsol Hs Ht Hgt Ho.
  assert (Hp := gradient_declared_bound _ _ _ _ _ _ _ _ _ rho s t o
                  Dpos Hsol Hs Ht Ho Hgt).
  assert (Hn := gradient_declared_bound _ _ _ _ _ _ _ _ _ rho s t o
                  Dneg Hsol Hs Ht Ho Hgt).
  unfold pos_diff in Hp; unfold neg_diff in Hn; split; lra.
Qed.

Lemma output_gradient_ramp_limits_witness :
  exists st',
    add_output_gradient_calc Plant.mdl Plant.pp_block "both" Example.st0
    = Ok st' /\
    forall rho,
      solution st' rho ->
      - (50) <= rho (W "pp_gas" "bel" 1) - rho (W "pp_gas" "bel" 0)
      /\ rho (W "pp_gas" "bel" 1) - rho (W "pp_gas" "bel" 0) <= 100.
Proof.
  destruct (output_gradient_ramp_limits Plant.mdl Plant.pp_block Example.st0
              [Plant.pp_gas]) as [st' [Hrun Hlim]].
  - reflexivity.
  - discriminate.
  - nodup_uids.
  - reflexivity.
  - intros s [<-|[]]; eexists; reflexivity.
  - exists st'; split; [exact Hrun|].
    intros rho Hsol.
    apply (Hlim rho Plant.pp_gas 1%Z "bel" Hsol);
      [left; reflexivity | simpl; auto | lia | reflexivity].
Defined.

(** ** What the writing generators leave alone *)

(** [add_storage_balance] writes to the capacity variables of the last
    timestep only: every other variable keeps its data, no domain or bound
    changes anywhere, and no variable component is declared. *)
Theorem storage_balance_touches_last_cap (m : model) (blk : block)
  (st st' : state) :
  add_storage_balance m blk st = Ok st' ->
  (forall v, (forall e, In e (uids blk) -> v <> Cap e (t_last m)) ->
             vars st' v = vars st v) /\
  (forall v,
     v_nonneg (vars st' v) = v_nonneg (vars st v) /\
     v_lb (vars st' v) = v_lb (vars st v) /\
     v_ub (vars st' v) = v_ub (vars st v)) /\
  var_comps st' = var_comps st.
Proof.
  intro Hrun; unfold add_storage_balance in Hrun.
  apply bind_ok in Hrun; destruct Hrun as [l [_ Hrun]].
  apply bind_ok in Hrun; destruct Hrun as [st1 [Hfix Hrun]].
  apply bind_ok in Hrun; destruct Hrun as [fam [_ Hrun]].
  inversion Hrun; subst st'; unfold add_con_comp; cbn [vars var_comps].
  unfold fix_last_cap in Hfix.
  split; [|split].
  - intros v Hv.
    refine (for_each_invariant _ _ (fun s => vars s v = vars st v) st st1
             eq_refl _ Hfix).
    intros s e s' He Hs Hb.
    apply bind_ok in Hb; destruct Hb as [c [_ Hb]]; inversion Hb.
    rewrite vars_fix_set_other; [exact Hs | apply Hv; exact He].
  - intro v.
    refine (for_each_invariant _ _
             (fun s => v_nonneg (vars s v) = v_nonneg (vars st v) /\
                       v_lb (vars s v) = v_lb (vars st v) /\
                       v_ub (vars s v) = v_ub (vars st v)) st st1 _ _ Hfix);
      [auto|].
    intros s e s' He [H1 [H2 H3]] Hb.
    apply bind_ok in Hb; destruct Hb as [c [_ Hb]]; inversion Hb.
    destruct (fix_set_keeps (Cap e (t_last m)) v c s) as [K1 [K2 K3]].
    rewrite K1, K2, K3; auto.
  - refine (for_each_invariant _ _ (fun s => var_comps s = var_comps st) st st1
             eq_refl _ Hfix).
    intros s e s' He Hs Hb.
    apply bind_ok in Hb; destruct Hb as [c [_ Hb]]; inversion Hb; exact Hs.
Qed.

Lemma storage_balance_touches_last_cap_witness :
  exists st',
    add_storage_balance Example.mdl Example.storage_block Example.st0
    = Ok st' /\
    vars st' (Cap "sto_simple" 1) = vars Example.st0 (Cap "sto_simple" 1) /\
    vars st' (W "bel" "sto_simple" 2) = vars Example.st0 (W "bel" "sto_simple" 2).
Proof.
  assert (Hex : exists st',
             add_storage_balance Example.mdl Example.storage_block Example.st0
             = Ok st') by (eexists; reflexivity).
  destruct Hex as [st' Hrun]; exists st'; split; [exact Hrun|].
  destruct (storage_balance_touches_last_cap Example.mdl Example.storage_block
              Example.st0 st' Hrun) as [Hframe _].
  split; apply Hframe; intros e _; discriminate.
Defined.

(** [add_fixed_source] in non-investment mode writes values and fixed
    flags of flows over the edges of its sources only: no domain or bound
    of any variable changes, and every variable that is not such a flow
    keeps its data. *)
Theorem fixed_source_keeps_bounds (m : model) (blk : block)
  (st st' : state) (l : list entity) :
  objs blk = Some l -> investment blk = false ->
  add_fixed_source m blk st = Ok st' ->
  (forall v,
     v_nonneg (vars st' v) = v_nonneg (vars st v) /\
     v_lb (vars st' v) = v_lb (vars st v) /\
     v_ub (vars st' v) = v_ub (vars st v)) /\
  (forall v,
     (forall e1 e2 t, In (e1, e2) (edges l) -> In t (timesteps m) ->
                      v <> W e1 e2 t) ->
     vars st' v = vars st v).
Proof.
  intros Hobjs Hinv Hrun; unfold add_fixed_source in Hrun.
  apply bind_ok in Hrun; destruct Hrun as [l' [Hl' Hrun]].
  apply (require_objs_inv blk l l' Hobjs) in Hl'; subst l'.
  rewrite Hinv in Hrun; cbn [negb] in Hrun.
  split.
  - intro v.
    refine (for_each_invariant _ _
             (fun s => v_nonneg (vars s v) = v_nonneg (vars st v) /\
                       v_lb (vars s v) = v_lb (vars st v) /\
                       v_ub (vars s v) = v_ub (vars st v)) st st' _ _ Hrun);
      [auto|].
    intros s [[e1 e2] t] s' _ [H1 [H2 H3]] Hb.
    apply bind_ok in Hb; destruct Hb as [vs [_ Hb]].
    apply bind_ok in Hb; destruct Hb as [x [_ Hb]].
    apply bind_ok in Hb; destruct Hb as [om [_ Hb]].
    apply bind_ok in Hb; destruct Hb as [c [_ Hb]]; inversion Hb.
    destruct (fix_set_keeps (W e1 e2 t) v (x * c) s) as [K1 [K2 K3]].
    rewrite K1, K2, K3; auto.
  - intros v Hv.
    refine (for_each_invariant _ _ (fun s => vars s v = vars st v) st st'
             eq_refl _ Hrun).
    intros s [[e1 e2] t] s' Hin Hs Hb.
    apply in_prod_iff in Hin; destruct Hin as [He Ht].
    apply bind_ok in Hb; destruct Hb as [vs [_ Hb]].
    apply bind_ok in Hb; destruct Hb as [x [_ Hb]].
    apply bind_ok in Hb; destruct Hb as [om [_ Hb]].
    apply bind_ok in Hb; destruct Hb as [c [_ Hb]]; inversion Hb.
    rewrite vars_fix_set_other; [exact Hs | apply (Hv e1 e2 t He Ht)].
Qed.

Lemma fixed_source_keeps_bounds_witness :
  exists st',
    add_fixed_source Example.mdl Example.source_block Example.st0 = Ok st' /\
    v_ub (vars st' (W "wind" "bel" 0)) = v_ub (vars Example.st0 (W "wind" "bel" 0)) /\
    vars st' (W "bel" "wind" 0) = vars Example.st0 (W "bel" "wind" 0).
Proof.
  assert (Hex : exists st',
             add_fixed_source Example.mdl Example.source_block Example.st0
             = Ok st') by (eexists; reflexivity).
  destruct Hex as [st' Hrun]; exists st'; split; [exact Hrun|].
  destruct (fixed_source_keeps_bounds Example.mdl Example.source_block
              Example.st0 st' [Example.wind] eq_refl eq_refl Hrun)
    as [Hb Hframe].
  split; [apply Hb|].
  apply Hframe; intros e1 e2 t [E|[]] _; inversion E; subst; discriminate.
Defined.

(** ** Objects that share a uid *)

Lemma dict_get_set_same {K V : Type} (eqb : K -> K -> bool) (k : K) (v : V)
  (d : dict K V) :
  (forall a, eqb a a = true) ->
  dict_get eqb k (dict_set eqb k v d) = Ok v.
Proof.
  intro Hrefl; induction d as [|[k0 v0] d IH]; simpl.
  - rewrite Hrefl; reflexivity.
  - destruct (eqb k0 k) eqn:E; simpl; rewrite E; [reflexivity | exact IH].
Qed.

Lemma dict_get_set_other {K V : Type} (eqb : K -> K -> bool) (k k' : K)
  (v : V) (d : dict K V) :
  (forall a b, eqb a b = true <-> a = b) ->
  k' <> k ->
  dict_get eqb k (dict_set eqb k' v d) = dict_get eqb k d.
Proof.
  intros Hspec Hne; induction d as [|[k0 v0] d IH]; simpl.
  - rewrite (eqb_neq eqb Hspec k' k Hne); reflexivity.
  - destruct (eqb k0 k') eqn:E; simpl.
    + apply Hspec in E; subst k0.
      rewrite (eqb_neq eqb Hspec k' k Hne); reflexivity.
    + destruct (eqb k0 k); [reflexivity | exact IH].
Qed.

Lemma dict_fold_keeps {A : Type} (f : entity -> A) (post : list entity)
  (k : uid) (v : A) (d : dict uid A) :
  (forall x, In x post -> e_uid x <> k) ->
  dict_get String.eqb k d = Ok v ->
  dict_get String.eqb k
    (fold_left (fun d' kv => dict_set String.eqb (fst kv) (snd kv) d')
               (map (fun x => (e_uid x, f x)) post) d) = Ok v.
Proof.
  revert d; induction post as [|x post IH]; intros d Hpost Hd;
    cbn [map fold_left fst snd]; [exact Hd|].
  apply IH.
  - intros y Hy; apply Hpost; right; exact Hy.
  - rewrite (dict_get_set_other String.eqb _ _ _ _ string_eqb_spec
               (Hpost x (or_introl eq_refl))).
    exact Hd.
Qed.

(** Every attribute dictionary [{obj.uid: obj.attr for obj in block.objs}]
    maps a uid to the attribute of the last object of the subset that
    carries it: an earlier object with the same uid is overridden without
    an error. *)
Theorem attr_dict_last_wins {A : Type} (f : entity -> A)
  (pre post : list entity) (a : entity) :
  (forall x, In x post -> e_uid x <> e_uid a) ->
  dict_get String.eqb (e_uid a)
    (dict_of String.eqb (map (fun x => (e_uid x, f x)) (pre ++ a :: post)))
  = Ok (f a).
Proof.
  intro Hpost; unfold dict_of.
  rewrite map_app, fold_left_app; cbn [map fold_left fst snd].
  apply dict_fold_keeps; [exact Hpost|].
  apply dict_get_set_same; exact String.eqb_refl.
Qed.

Lemma attr_dict_last_wins_witness :
  dict_get String.eqb "wind"
    (dict_of String.eqb
       (map (fun x => (e_uid x, out_max x))
            [Example.wind; Plant.wind_keyed; Example.rgas]))
  = Ok (PyDict [(KStr "bel", 1000000)]).
Proof.
  apply (attr_dict_last_wins out_max [Example.wind] [Example.rgas]
           Plant.wind_keyed).
  intros x [<-|[]]; discriminate.
Defined.
